(** * Vehicle dynamics and multiplayer synchronisation: a shallow embedding

    The development follows the TypeScript sources:
    - [vehicle/Car.tsx]: the per-frame simulation of one vehicle, local and
      remote, and its key listeners;
    - [scene/World.tsx]: the world bounds, the static colliders and the
      handlers of the keys [e] and [b];
    - [multiplayer/useFirebaseMultiplayer.ts] (the iteration with adaptive
      publish rates, the quota timer and the chat feed document): driver
      ownership, publishing, chat, the listeners and the cleanup of a room;
    - [App.tsx]: room codes; [ui/MobileControls.tsx]: the hold buttons.

    JavaScript numbers are modelled by rationals [Q]: every operation is the
    exact one, the rounding of IEEE doubles is left out and there is no NaN
    or infinity ([JS.num] adds them where a property speaks of them).  Where
    rounding, overflow or NaN decide a property, the code is modelled twice
    more: [Car64] and [World64] have the local frame and the colliders on
    binary64 numbers, for runs that are computed; [Rounded] has the
    collision pass on rationals with a rounding arithmetic, for properties
    of every input.
    Millisecond clock readings ([Date.now()], [toMillis()]) are integers [Z].
    Strings are ASCII text.

    The hook is modelled by explicit state passing: a record of its refs, the
    documents of the store as a finite map and, for each call that goes to
    the store, what the store does with it (it throws, it rejects, it commits
    at a given time).  An [async] function returns how its promise ends. *)

From Stdlib Require Import QArith Qabs Qminmax Qround Qpower ZArith Lia Lqa.
From Stdlib Require Import String Ascii List Sorted Permutation.
From Stdlib Require Floats.
From stdpp Require Import gmap strings list fin_maps.

(** ** JavaScript helpers *)

Module JS.

Local Open Scope Q_scope.

(** [a < b] on numbers. *)
Definition Qltb (a b : Q) : bool := negb (Qle_bool b a).

(** [Math.sign]. *)
Definition sign (a : Q) : Q :=
  if Qltb 0 a then 1 else if Qltb a 0 then -1 else 0.

(** Truncation towards zero, and the remainder [a % b] of JavaScript, which
    takes the sign of the dividend. *)
Definition trunc (a : Q) : Z := if Qltb a 0 then Qceiling a else Qfloor a.

Definition fmod (a b : Q) : Q := a - b * inject_Z (trunc (a / b)).

(** [Math.PI], the double nearest to pi, as the rational it denotes. *)
Definition PI : Q := 884279719003555 # 281474976710656.

(** [cond ? 1 : 0]. *)
Definition flag (b : bool) : Q := if b then 1 else 0.

(** Numbers with the values that are not finite, for the places where the
    development states that none is produced.  Arithmetic is exact on the
    finite ones (no rounding, no overflow, one zero). *)
Inductive num :=
| Fin (q : Q)
| PInf
| NInf
| NaN.

Definition nneg (a : num) : num :=
  match a with Fin x => Fin (- x) | PInf => NInf | NInf => PInf | NaN => NaN end.

(** [Math.abs]. *)
Definition nabs (a : num) : num :=
  match a with Fin x => Fin (Qabs x) | PInf | NInf => PInf | NaN => NaN end.

Definition nadd (a b : num) : num :=
  match a, b with
  | NaN, _ | _, NaN => NaN
  | Fin x, Fin y => Fin (x + y)
  | PInf, NInf | NInf, PInf => NaN
  | PInf, _ | _, PInf => PInf
  | NInf, _ | _, NInf => NInf
  end.

(** An infinity times a finite factor. *)
Definition scaleInf (inf : num) (x : Q) : num :=
  if Qeq_bool x 0 then NaN else if Qltb x 0 then nneg inf else inf.

Definition nmul (a b : num) : num :=
  match a, b with
  | NaN, _ | _, NaN => NaN
  | Fin x, Fin y => Fin (x * y)
  | Fin x, inf | inf, Fin x => scaleInf inf x
  | PInf, PInf | NInf, NInf => PInf
  | PInf, NInf | NInf, PInf => NInf
  end.

Definition ndiv (a b : num) : num :=
  match a, b with
  | NaN, _ | _, NaN => NaN
  | Fin x, Fin y =>
      if Qeq_bool y 0 then
        if Qeq_bool x 0 then NaN else if Qltb x 0 then NInf else PInf
      else Fin (x / y)
  | Fin _, _ => Fin 0
  | inf, Fin y => if Qltb y 0 then nneg inf else inf
  | _, _ => NaN
  end.

(** [Math.min]. *)
Definition nmin (a b : num) : num :=
  match a, b with
  | NaN, _ | _, NaN => NaN
  | Fin x, Fin y => Fin (Qmin x y)
  | NInf, _ | _, NInf => NInf
  | PInf, o | o, PInf => o
  end.

(** [Math.max]. *)
Definition nmax (a b : num) : num :=
  match a, b with
  | NaN, _ | _, NaN => NaN
  | Fin x, Fin y => Fin (Qmax x y)
  | PInf, _ | _, PInf => PInf
  | NInf, o | o, NInf => o
  end.

(** [a < b]. *)
Definition nlt (a b : num) : bool :=
  match a, b with
  | Fin x, Fin y => Qltb x y
  | NInf, Fin _ | NInf, PInf | Fin _, PInf => true
  | _, _ => false
  end.

End JS.

(** ** The vehicle ([Car.tsx]) *)

Module Car.

Import JS.
Local Open Scope Q_scope.

Record Collider := { c_x : Q; c_z : Q; c_w : Q; c_d : Q }.

Record Bounds := { minX : Q; maxX : Q; minZ : Q; maxZ : Q }.

Record CarState := {
  s_x : Q; s_y : Q; s_z : Q; s_yaw : Q; s_speed : Q; s_gear : Z;
  s_rpm : Q; s_damage : Q; s_traction : Q; s_headlightsOn : bool }.

(** The mutable part of the component: the mesh position, the refs [speed],
    [yaw], [damage] and the React state [gear], [headlightsOn]. *)
Record Sim := {
  pos_x : Q; pos_y : Q; pos_z : Q;
  yaw : Q; speed : Q; damage : Q;
  gear : Z; headlightsOn : bool }.

(** [keys.current], the object of pressed keys. *)
Definition KeyMap := gmap string bool.

Definition pressed (keys : KeyMap) (k : string) : bool :=
  match keys !! k with Some b => b | None => false end.

Definition gearRatios : list Q := [3.1; 3.0; 2.2; 1.6; 1.25; 1.0; 0.82].
Definition finalDrive : Q := 3.4.
Definition wheelRadius : Q := 0.36.
Definition maxRpm : Q := 9000.
Definition idleRpm : Q := 900.
Definition enginePower : Q := 36.
Definition brakePower : Q := 34.
Definition drag : Q := 0.02.
Definition rolling : Q := 0.28.
Definition carScale : Q := 1.2.
Definition carHalfW : Q := 1.3 * carScale.
Definition carHalfD : Q := 2.6 * carScale.

(** The overlap test of [resolveCollision]: the collider's footprint against
    the vehicle's box, the collider's half extents inflated by the car's. *)
Definition overlaps (c : Collider) (x z : Q) : bool :=
  let halfW := c_w c / 2 + carHalfW in
  let halfD := c_d c / 2 + carHalfD in
  let dx := x - c_x c in
  let dz := z - c_z c in
  Qltb (Qabs dx) halfW && Qltb (Qabs dz) halfD.

(** [resolveCollision], on the position [(x, z)] and the flag [collided]. *)
Definition resolveCollision (c : Collider) (p : Q * Q * bool) : Q * Q * bool :=
  let '(x, z, collided) := p in
  let halfW := c_w c / 2 + carHalfW in
  let halfD := c_d c / 2 + carHalfD in
  let dx := x - c_x c in
  let dz := z - c_z c in
  if overlaps c x z then
    let penX := halfW - Qabs dx in
    let penZ := halfD - Qabs dz in
    if Qltb penX penZ
    then (x + (if Qeq_bool dx 0 then 1 else sign dx) * penX, z, true)
    else (x, z + (if Qeq_bool dz 0 then 1 else sign dz) * penZ, true)
  else (x, z, collided).

(** [for (const c of colliders) resolveCollision(c)]. *)
Definition resolveAll (cs : list Collider) (p : Q * Q * bool) : Q * Q * bool :=
  fold_left (fun acc c => resolveCollision c acc) cs p.

(** The two loops: the static colliders, then the dynamic ones when the
    optional ref is given. *)
Definition resolvePass (colliders : list Collider)
    (dynamicColliders : option (list Collider)) (p : Q * Q * bool)
  : Q * Q * bool :=
  let p1 := resolveAll colliders p in
  match dynamicColliders with
  | Some ds => resolveAll ds p1
  | None => p1
  end.

(** One axis of the world-bounds block. *)
Definition clampAxis (lo hi v : Q) (collided : bool) : Q * bool :=
  if Qltb v lo then (lo, true)
  else if Qltb hi v then (hi, true)
  else (v, collided).

Definition clampToBounds (b : Bounds) (p : Q * Q * bool) : Q * Q * bool :=
  let '(x, z, collided) := p in
  let '(x', collided1) :=
    clampAxis (minX b + carHalfW) (maxX b - carHalfW) x collided in
  let '(z', collided2) :=
    clampAxis (minZ b + carHalfD) (maxZ b - carHalfD) z collided1 in
  (x', z', collided2).

(** Two colliders whose footprints, inflated by the car's half extents, have
    no point in common: the centres are at least the sum of the inflated half
    extents apart along one axis. *)
Definition apart (c c' : Collider) : Prop :=
  (c_w c / 2 + carHalfW) + (c_w c' / 2 + carHalfW) <= Qabs (c_x c - c_x c') \/
  (c_d c / 2 + carHalfD) + (c_d c' / 2 + carHalfD) <= Qabs (c_z c - c_z c').

(** The position lies in the inflated footprint of the collider or on its
    edge. *)
Definition reaches (c : Collider) (x z : Q) : Prop :=
  Qabs (x - c_x c) <= c_w c / 2 + carHalfW /\
  Qabs (z - c_z c) <= c_d c / 2 + carHalfD.

(** A collider whose inflated footprint lies in the range the world-bounds
    block allows. *)
Definition insideClamp (b : Bounds) (c : Collider) : Prop :=
  minX b + carHalfW <= c_x c - (c_w c / 2 + carHalfW) /\
  c_x c + (c_w c / 2 + carHalfW) <= maxX b - carHalfW /\
  minZ b + carHalfD <= c_z c - (c_d c / 2 + carHalfD) /\
  c_z c + (c_d c / 2 + carHalfD) <= maxZ b - carHalfD.

(** The block [if (collided) { ... }] on [damage] and [speed]. *)
Definition collisionResponse (dmg spd : Q) : Q * Q :=
  let impact := Qmin 1 (Qabs spd / 18) in
  let dmg' := Qmin 1 (dmg + impact * 0.22) in
  let spd' := spd * -0.25 in
  (dmg', if Qltb (Qabs spd') 0.8 then 0 else spd').

(** The same block on numbers that may not be finite. *)
Definition collisionResponseNum (dmg spd : num) : num * num :=
  let impact := nmin (Fin 1) (ndiv (nabs spd) (Fin 18)) in
  let dmg' := nmin (Fin 1) (nadd dmg (nmul impact (Fin 0.22))) in
  let spd' := nmul spd (Fin (-0.25)) in
  (dmg', if nlt (nabs spd') (Fin 0.8) then Fin 0 else spd').

Definition tractionOf (speedAbs steerInput : Q) : Q :=
  Qmax 0 (1 - Qmin 1 (speedAbs / 45) * Qabs steerInput * 0.6).

Definition steerInputOf (active : bool) (keys : KeyMap) : Q :=
  flag (active && (pressed keys "a" || pressed keys "arrowleft"))
  + (if active && (pressed keys "d" || pressed keys "arrowright")
     then -1 else 0).

(** [gearRatios[Math.max(0, Math.min(gear, gearRatios.length - 1))]]. *)
Definition gearRatio (g : Z) : Q :=
  nth (Z.to_nat (Z.max 0 (Z.min g (Z.of_nat (length gearRatios) - 1))))
      gearRatios 0.

(** The automatic gear change at the end of the frame; the two [setGear]
    updaters are applied in the order they are queued. *)
Definition autoShift (active : bool) (rpm : Q) (g : Z) : Z :=
  if active && (0 <? g)%Z then
    let g1 := if Qltb 7800 rpm && (g <? 6)%Z then Z.min 6 (g + 1) else g in
    if Qltb rpm 2200 && (1 <? g)%Z then Z.max 1 (g1 - 1) else g1
  else g.

(** The reported [rpm] and the automatic gear change on numbers that may not
    be finite: [speedAbs] is what [Math.abs(speed.current)] gave. *)
Definition rpmNum (speedAbs : num) (ratio : Q) : num :=
  let wheelRpm :=
    nmul (ndiv speedAbs (Fin (2 * PI * wheelRadius))) (Fin 60) in
  nmin (Fin maxRpm)
       (nmax (Fin idleRpm) (nmul (nmul wheelRpm (Fin ratio)) (Fin finalDrive))).

Definition autoShiftNum (active : bool) (rpm : num) (g : Z) : Z :=
  if active && (0 <? g)%Z then
    let g1 :=
      if nlt (Fin 7800) rpm && (g <? 6)%Z then Z.min 6 (g + 1) else g in
    if nlt rpm (Fin 2200) && (1 <? g)%Z then Z.max 1 (g1 - 1) else g1
  else g.

Section Frame.

(** [Math.sin] and [Math.cos]: functions from doubles to doubles, of which the
    development uses nothing. *)
Variable Math_sin Math_cos : Q -> Q.

Variable colliders : list Collider.
Variable dynamicColliders : option (list Collider).
Variable bounds : Bounds.

(** The speed once the forces, the handbrake and the idle decay are applied:
    [speed.current] when [speedAbs] is read. *)
Definition integrateSpeed (active : bool) (keys : KeyMap) (delta : Q) (s : Sim)
  : Q :=
  let throttle := flag (active && (pressed keys "w" || pressed keys "arrowup")) in
  let brake := flag (active && (pressed keys "s" || pressed keys "arrowdown")) in
  let handbrake := active && pressed keys " " in
  let ratio := gearRatio (gear s) in
  let direction := if (gear s =? 0)%Z then -1 else 1 in
  let engineForce := throttle * enginePower * ratio * direction in
  let brakeSign := if Qeq_bool (speed s) 0 then 1 else sign (speed s) in
  let brakeForce := brakePower * brake * brakeSign in
  let accel :=
    engineForce - brakeForce - drag * speed s * Qabs (speed s)
    - rolling * speed s in
  let speed1 := speed s + accel * delta in
  let speed2 :=
    if handbrake && Qltb 0.5 (Qabs speed1) then speed1 * 0.985 else speed1 in
  if negb active then speed2 * 0.99 else speed2.

(** The position advanced along the heading, then pushed out of the colliders
    and clamped to the world, with the flag [collided]. *)
Definition movePosition (spd delta : Q) (s : Sim) : Q * Q * bool :=
  let fwd_x := Math_sin (yaw s) in
  let fwd_z := Math_cos (yaw s) in
  let x1 := pos_x s + fwd_x * (spd * delta) in
  let z1 := pos_z s + fwd_z * (spd * delta) in
  clampToBounds bounds (resolvePass colliders dynamicColliders (x1, z1, false)).

(** The body of [useFrame] in local mode, for a mounted mesh: the new state
    of the component and the [CarState] handed to [onUpdate]. *)
Definition frameLocal (active : bool) (keys : KeyMap) (delta : Q) (s : Sim)
  : Sim * CarState :=
  let steerInput := steerInputOf active keys in
  let ratio := gearRatio (gear s) in
  let speed3 := integrateSpeed active keys delta s in
  let speedAbs := Qabs speed3 in
  let steerFactor := 1 / (1 + speedAbs * 0.08) in
  let yaw' :=
    yaw s + steerInput * steerFactor * delta * 1.7
            * (if Qltb 0.2 speedAbs then sign speed3 else 1) in
  let '(x2, z2, collided) := movePosition speed3 delta s in
  let '(damage', speed4) :=
    if collided then collisionResponse (damage s) speed3
    else (damage s, speed3) in
  let wheelRpm := speedAbs / (2 * PI * wheelRadius) * 60 in
  let rpm := Qmin maxRpm (Qmax idleRpm (wheelRpm * ratio * finalDrive)) in
  let traction := tractionOf speedAbs steerInput in
  ({| pos_x := x2; pos_y := pos_y s; pos_z := z2;
      yaw := yaw'; speed := speed4; damage := damage';
      gear := autoShift active rpm (gear s);
      headlightsOn := headlightsOn s |},
   {| s_x := x2; s_y := pos_y s; s_z := z2; s_yaw := yaw';
      s_speed := speed4; s_gear := gear s; s_rpm := rpm;
      s_damage := damage'; s_traction := traction;
      s_headlightsOn := headlightsOn s |}).

(** What happens to a local vehicle between two renders. *)
Inductive Event :=
| Frame (active : bool) (keys : KeyMap) (delta : Q)
| KeyDown (active : bool) (k : string)
| Spawn (x y z : Q) (newYaw : option Q).

(** The [keydown] handler (first press, not a repeat): gear up, gear down,
    headlights. *)
Definition keyDown (active : bool) (k : string) (s : Sim) : Sim :=
  if negb active then s
  else if String.eqb k "r" then
    {| pos_x := pos_x s; pos_y := pos_y s; pos_z := pos_z s; yaw := yaw s;
       speed := speed s; damage := damage s;
       gear := Z.min 6 (gear s + 1); headlightsOn := headlightsOn s |}
  else if String.eqb k "f" then
    {| pos_x := pos_x s; pos_y := pos_y s; pos_z := pos_z s; yaw := yaw s;
       speed := speed s; damage := damage s;
       gear := Z.max 0 (gear s - 1); headlightsOn := headlightsOn s |}
  else if String.eqb k "h" then
    {| pos_x := pos_x s; pos_y := pos_y s; pos_z := pos_z s; yaw := yaw s;
       speed := speed s; damage := damage s;
       gear := gear s; headlightsOn := negb (headlightsOn s) |}
  else s.

(** The [spawnAt] effect. *)
Definition spawn (x y z : Q) (newYaw : option Q) (s : Sim) : Sim :=
  {| pos_x := x; pos_y := y; pos_z := z;
     yaw := match newYaw with Some w => w | None => yaw s end;
     speed := 0; damage := Qmax 0 (damage s - 0.2);
     gear := gear s; headlightsOn := headlightsOn s |}.

Definition handle (e : Event) (s : Sim) : Sim :=
  match e with
  | Frame active keys delta => fst (frameLocal active keys delta s)
  | KeyDown active k => keyDown active k s
  | Spawn x y z w => spawn x y z w s
  end.

Definition run (es : list Event) (s : Sim) : Sim :=
  fold_left (fun acc e => handle e acc) es s.

End Frame.

(** The vehicle as another client drives it: [remoteState], whose [y] may be
    missing. *)
Record RemoteState := { r_x : Q; r_y : option Q; r_z : Q; r_yaw : Q }.

(** The effect on [remoteState] in remote mode, for a mounted mesh: the
    targets are the sample's (the frame reads them from the sample again) and
    the speed is set to 0. *)
Definition remoteSample (s : Sim) : Sim :=
  {| pos_x := pos_x s; pos_y := pos_y s; pos_z := pos_z s; yaw := yaw s;
     speed := 0; damage := damage s; gear := gear s;
     headlightsOn := headlightsOn s |}.

(** The body of [useFrame] in remote mode, for a mounted mesh:
    [position.lerp(target, 0.4)] and the turn towards the sample's
    heading. *)
Definition frameRemote (remoteState : option RemoteState) (s : Sim) : Sim :=
  match remoteState with
  | None => s
  | Some r =>
      let ty := match r_y r with Some y => y | None => 0.75 end in
      let diff := fmod (r_yaw r - yaw s + PI * 3) (PI * 2) - PI in
      {| pos_x := pos_x s + (r_x r - pos_x s) * 0.4;
         pos_y := pos_y s + (ty - pos_y s) * 0.4;
         pos_z := pos_z s + (r_z r - pos_z s) * 0.4;
         yaw := yaw s + diff * 0.36;
         speed := speed s; damage := damage s; gear := gear s;
         headlightsOn := headlightsOn s |}
  end.

(** The vehicle stands clear of the colliders and inside the range the
    world-bounds block allows. *)
Definition standsClear (cs : list Collider) (b : Bounds) (s : Sim) : Prop :=
  Forall (fun c => overlaps c (pos_x s) (pos_z s) = false) cs /\
  (minX b + carHalfW <= pos_x s <= maxX b - carHalfW) /\
  (minZ b + carHalfD <= pos_z s <= maxZ b - carHalfD).

(** Neither throttle nor brake is applied in the frame, and the vehicle is
    not respawned. *)
Definition noDrive (e : Event) : Prop :=
  match e with
  | Frame active keys _ =>
      active && (pressed keys "w" || pressed keys "arrowup") = false /\
      active && (pressed keys "s" || pressed keys "arrowdown") = false
  | KeyDown _ _ => True
  | Spawn _ _ _ _ => False
  end.

End Car.

(** ** The world ([World.tsx]) *)

Module World.

Import Car.
Local Open Scope Q_scope.

Definition bounds : Bounds :=
  {| minX := -1200; maxX := 1200; minZ := -1200; maxZ := 1200 |}.

(** The array [base], the first static colliders; the last one is the
    pool. *)
Definition base : list Collider :=
  [ {| c_x := 50; c_z := -120; c_w := 20; c_d := 20 |};
    {| c_x := -160; c_z := 200; c_w := 30; c_d := 12 |};
    {| c_x := 180; c_z := 140; c_w := 46; c_d := 26 |} ].

(** The footprints of [blocks] (heights left out): whole numbers, [%] being
    the remainder that takes the sign of the dividend. *)
Definition blocks : list Collider :=
  let step := 240%Z in
  flat_map
    (fun i =>
       flat_map
         (fun j =>
            if (Z.abs i <=? 1)%Z && (Z.abs j <=? 1)%Z then []
            else
              [ {| c_x := inject_Z (i * step + Z.rem j 2 * 20);
                   c_z := inject_Z (j * step + Z.rem i 2 * 20);
                   c_w := inject_Z (60 + Z.rem (i + j + 10) 3 * 30);
                   c_d := inject_Z (70 + Z.rem (i - j + 10) 3 * 25) |} ])
         [-4; -3; -2; -1; 0; 1; 2; 3; 4]%Z)
    [-4; -3; -2; -1; 0; 1; 2; 3; 4]%Z.

(** The footprints of [towers]. *)
Definition towers : list Collider :=
  flat_map
    (fun i =>
       map
         (fun j =>
            {| c_x := inject_Z (520 + i * 70);
               c_z := inject_Z (-320 + j * 80);
               c_w := inject_Z (30 + Z.rem i 3 * 8);
               c_d := 36 |})
         [0; 1; 2; 3; 4]%Z)
    [0; 1; 2; 3; 4; 5; 6; 7]%Z.

(** The prop [colliders] of every [Car]. *)
Definition colliders : list Collider := base ++ blocks ++ towers.

End World.

(** ** The multiplayer hook ([useFirebaseMultiplayer.ts]) *)

Module Net.

Import JS.

(** *** Strings *)

(** The white space [String.prototype.trim] removes, as far as it is ASCII. *)
Definition isSpace (a : ascii) : bool :=
  let n := nat_of_ascii a in
  (n =? 32)%nat || ((9 <=? n)%nat && (n <=? 13)%nat).

Fixpoint trimStart (s : string) : string :=
  match s with
  | String a s' => if isSpace a then trimStart s' else s
  | EmptyString => EmptyString
  end.

Fixpoint trimEnd (s : string) : string :=
  match s with
  | String a s' =>
      match trimEnd s' with
      | EmptyString => if isSpace a then EmptyString else String a EmptyString
      | t => String a t
      end
  | EmptyString => EmptyString
  end.

Definition trim (s : string) : string := trimEnd (trimStart s).

(** [s.slice(0, n)]. *)
Definition slice0 (n : nat) (s : string) : string := String.substring 0 n s.

Definition isEmpty (s : string) : bool :=
  match s with EmptyString => true | _ => false end.

Definition lowerAscii (a : ascii) : ascii :=
  let n := nat_of_ascii a in
  if (65 <=? n)%nat && (n <=? 90)%nat then ascii_of_nat (n + 32) else a.

Fixpoint toLowerCase (s : string) : string :=
  match s with
  | String a s' => String (lowerAscii a) (toLowerCase s')
  | EmptyString => EmptyString
  end.

(** [hay.includes(needle)]. *)
Fixpoint includes (needle hay : string) : bool :=
  String.prefix needle hay ||
  match hay with
  | String _ hay' => includes needle hay'
  | EmptyString => false
  end.

(** *** Documents *)

(** The value of a document field.  A [Timestamp] is known by its
    [toMillis()]; an object is the list of its properties. *)
#[warnings="-register-all"] Inductive value :=
| VNull
| VBool (b : bool)
| VNum (q : Q)
| VStr (s : string)
| VTime (ms : Z)
| VArr (l : list value)
| VObj (o : list (string * value)).

(** A document's data, a patch, an object literal handed to [set]: the
    properties that are present. *)
Abbreviation fields := (gmap string value).

(** The documents of the room's [cars] collection, by id ([snap.exists()] is
    [is_Some]).  The chat feed is the document ['chat-feed'] of that same
    collection. *)
Abbreviation store := (gmap string (gmap string value)).

(** [!!v], with [None] for [undefined]. *)
Definition truthy (v : option value) : bool :=
  match v with
  | None | Some VNull => false
  | Some (VBool b) => b
  | Some (VNum q) => negb (Qeq_bool q 0)
  | Some (VStr s) => negb (isEmpty s)
  | Some (VTime _) | Some (VArr _) | Some (VObj _) => true
  end.

(** [v !== s] for a string [s]. *)
Definition differsFrom (v : option value) (s : string) : bool :=
  match v with
  | Some (VStr s') => negb (String.eqb s' s)
  | _ => true
  end.

(** [raw?.updatedAt?.toMillis?.() ?? 0]. *)
Definition updatedAtMs (raw : option fields) : Z :=
  match raw with
  | Some d => match d !! "updatedAt" with Some (VTime ms) => ms | _ => 0%Z end
  | None => 0%Z
  end.

(** [patch.k ?? 0] on a numeric property. *)
Definition numOr0 (o : fields) (k : string) : Q :=
  match o !! k with Some (VNum q) => q | _ => 0%Q end.

(** [set(ref, {...data, updatedAt: serverTimestamp()}, { merge: true })]
    once it reaches the server, whose clock reads [srv]. *)
Definition setMerge (id : string) (data : fields) (srv : Z) (st : store)
  : store :=
  <[id := (<["updatedAt" := VTime srv]> data) ∪ default ∅ (st !! id)]> st.

Definition STALE_MS : Z := 15000.
Definition PLAYER_SYNC_FAST_MS : Z := 140.
Definition PLAYER_SYNC_NORMAL_MS : Z := 260.
Definition PLAYER_HEARTBEAT_MS : Z := 2500.
Definition CAR_SYNC_FAST_MS : Z := 90.
Definition CAR_SYNC_NORMAL_MS : Z := 180.
Definition CAR_HEARTBEAT_MS : Z := 1000.
Definition CHAT_MAX_MESSAGES : nat := 40.
Definition QUOTA_RETRY_MS : Z := 60000.

(** *** The state of one client *)

Record NetPlayerState := {
  name : string; x : Q; z : Q; yaw : Q;
  health : Q; wanted : Q; ammo : Q; inCar : bool }.

(** What was thrown: the [code] and [message] it carries when it is an object
    that has them as strings. *)
Record Err := { code : option string; message : option string }.

(** [clientId], the [localState] of the current render and the refs and state
    of the hook.  [quotaUnblockTimer] tells whether the timer is set. *)
Record Client := {
  clientId : string;
  localState : NetPlayerState;
  lastSent : Z;
  lastCarSent : gmap string Z;
  lastPlayerPayload : option NetPlayerState;
  lastCarPayload : gmap string (gmap string value);
  quotaBlocked : bool;
  quotaUnblockTimer : bool;
  firebaseError : option string }.

Definition safeName (c : Client) : string :=
  let n := name (localState c) in
  if isEmpty (trim n) then "Guest" else slice0 16 (trim n).

Definition toErr (label : string) (err : Err) : string :=
  match message err with
  | Some m => label +:+ ": " +:+ m
  | None => label +:+ ": bilinmeyen hata"
  end.

Definition isQuotaError (err : Err) : bool :=
  match code err with
  | Some k => String.eqb k "resource-exhausted"
  | None => false
  end
  || match message err with
     | Some m => includes "quota exceeded" (toLowerCase m)
     | None => false
     end.

Definition setWriteErr (label : string) (err : Err) (c : Client) : Client :=
  if isQuotaError err then
    {| clientId := clientId c; localState := localState c;
       lastSent := lastSent c; lastCarSent := lastCarSent c;
       lastPlayerPayload := lastPlayerPayload c;
       lastCarPayload := lastCarPayload c;
       quotaBlocked := true;
       quotaUnblockTimer := true;
       firebaseError := Some (label +:+ ": Quota exceeded (Spark limit)") |}
  else
    {| clientId := clientId c; localState := localState c;
       lastSent := lastSent c; lastCarSent := lastCarSent c;
       lastPlayerPayload := lastPlayerPayload c;
       lastCarPayload := lastCarPayload c;
       quotaBlocked := quotaBlocked c;
       quotaUnblockTimer := quotaUnblockTimer c;
       firebaseError := Some (toErr label err) |}.

(** The timer set by [setWriteErr] fires, [QUOTA_RETRY_MS] later. *)
Definition quotaTimerFires (c : Client) : Client :=
  {| clientId := clientId c; localState := localState c;
     lastSent := lastSent c; lastCarSent := lastCarSent c;
     lastPlayerPayload := lastPlayerPayload c;
     lastCarPayload := lastCarPayload c;
     quotaBlocked := false;
     quotaUnblockTimer := false;
     firebaseError :=
       match firebaseError c with
       | Some prev => if includes "Quota exceeded" prev then None else Some prev
       | None => None
       end |}.

(** *** A hook that has just entered a room *)

(** The initial values of the refs and state, which the effect on [roomId]
    also restores. *)
Definition enterRoom (cid : string) (ls : NetPlayerState) : Client :=
  {| clientId := cid; localState := ls;
     lastSent := 0; lastCarSent := ∅;
     lastPlayerPayload := None; lastCarPayload := ∅;
     quotaBlocked := false; quotaUnblockTimer := false;
     firebaseError := None |}.

(** *** Publishing the player and the cars *)

Local Open Scope Q_scope.

(** [Math.hypot(dx, dz) > t] for a threshold [t >= 0], without the square
    root. *)
Definition hypotGt (dx dz t : Q) : bool := Qltb (t * t) (dx * dx + dz * dz).

(** [Math.abs(((a - b + Math.PI * 3) % (Math.PI * 2)) - Math.PI)]. *)
Definition yawDelta (a b : Q) : Q :=
  Qabs (fmod (a - b + PI * 3) (PI * 2) - PI).

(** [{ ...localState, name: safeName }]. *)
Definition playerPayload (c : Client) : NetPlayerState :=
  let ls := localState c in
  {| name := safeName c; x := x ls; z := z ls; yaw := yaw ls;
     health := health ls; wanted := wanted ls; ammo := ammo ls;
     inCar := inCar ls |}.

(** The [gap] of the player effect; [moveDist] is 999 and [yawDiff] is
    [Math.PI] while nothing was sent. *)
Definition playerGap (c : Client) : Z :=
  let ls := localState c in
  let prev := lastPlayerPayload c in
  let moveGt t :=
    match prev with
    | Some p => hypotGt (x ls - x p) (z ls - z p) t
    | None => Qltb t 999
    end in
  let yawDiff :=
    match prev with Some p => yawDelta (yaw ls) (yaw p) | None => PI end in
  let changed :=
    match prev with
    | None => true
    | Some p =>
        moveGt 0.08 || Qltb 0.06 yawDiff
        || negb (Qeq_bool (health ls) (health p))
        || negb (Qeq_bool (wanted ls) (wanted p))
        || negb (Qeq_bool (ammo ls) (ammo p))
        || negb (Bool.eqb (inCar ls) (inCar p))
        || negb (String.eqb (safeName c) (name p))
    end in
  if negb changed then PLAYER_HEARTBEAT_MS
  else if inCar ls || moveGt 0.7 || Qltb 0.3 yawDiff then PLAYER_SYNC_FAST_MS
  else PLAYER_SYNC_NORMAL_MS.

(** A [setDoc] on the player's document, issued when the clock read
    [pw_now]. *)
Record PlayerWrite := { pw_now : Z; pw_payload : NetPlayerState }.

(** The player effect, run when the clock reads [now]: the write it issues,
    if any.  It leaves the refs alone. *)
Definition playerPublish (now : Z) (c : Client) : option PlayerWrite :=
  if quotaBlocked c then None
  else if (now - lastSent c <? playerGap c)%Z then None
  else Some {| pw_now := now; pw_payload := playerPayload c |}.

(** The [then] of that write, once the server has acknowledged it. *)
Definition playerWritten (w : PlayerWrite) (c : Client) : Client :=
  {| clientId := clientId c; localState := localState c;
     lastSent := pw_now w; lastCarSent := lastCarSent c;
     lastPlayerPayload := Some (pw_payload w);
     lastCarPayload := lastCarPayload c;
     quotaBlocked := quotaBlocked c;
     quotaUnblockTimer := quotaUnblockTimer c;
     firebaseError := firebaseError c |}.

(** A render with a new [localState]. *)
Definition render (ls : NetPlayerState) (c : Client) : Client :=
  {| clientId := clientId c; localState := ls;
     lastSent := lastSent c; lastCarSent := lastCarSent c;
     lastPlayerPayload := lastPlayerPayload c;
     lastCarPayload := lastCarPayload c;
     quotaBlocked := quotaBlocked c;
     quotaUnblockTimer := quotaUnblockTimer c;
     firebaseError := firebaseError c |}.

(** The [minGap] of [pushCarState]. *)
Definition carGap (patch : fields) (prev : option fields) : Z :=
  let posGt t :=
    match prev with
    | Some p =>
        hypotGt (numOr0 patch "x" - numOr0 p "x")
                (numOr0 patch "z" - numOr0 p "z") t
    | None => Qltb t 999
    end in
  let yawDiff :=
    match prev with
    | Some p => yawDelta (numOr0 patch "yaw") (numOr0 p "yaw")
    | None => PI
    end in
  let speedAbs := Qabs (numOr0 patch "speed") in
  let changed :=
    match prev with
    | None => true
    | Some p =>
        posGt 0.1 || Qltb 0.08 yawDiff
        || Qltb 0.5 (Qabs (numOr0 patch "speed" - numOr0 p "speed"))
        || negb (Qeq_bool (numOr0 patch "gear") (numOr0 p "gear"))
        || negb (Bool.eqb (truthy (patch !! "headlightsOn"))
                          (truthy (p !! "headlightsOn")))
    end in
  if negb changed then CAR_HEARTBEAT_MS
  else if Qltb 6 speedAbs || posGt 0.8 || Qltb 0.35 yawDiff
       then CAR_SYNC_FAST_MS
  else CAR_SYNC_NORMAL_MS.

(** A [setDoc] on a car's document: the car, the clock reading when it was
    issued, the patch it carries and the data sent (the patch with the
    driver's identity; the server adds [updatedAt]). *)
Record CarWrite := {
  cw_id : string; cw_now : Z; cw_patch : fields; cw_data : fields }.

Definition pushCarState (carId : string) (patch : fields) (now : Z)
    (c : Client) : Client * option CarWrite :=
  if quotaBlocked c then (c, None)
  else
    let last := default 0%Z (lastCarSent c !! carId) in
    let prev := lastCarPayload c !! carId in
    if (now - last <? carGap patch prev)%Z then (c, None)
    else
      ({| clientId := clientId c; localState := localState c;
          lastSent := lastSent c;
          lastCarSent := <[carId := now]> (lastCarSent c);
          lastPlayerPayload := lastPlayerPayload c;
          lastCarPayload := <[carId := patch]> (lastCarPayload c);
          quotaBlocked := quotaBlocked c;
          quotaUnblockTimer := quotaUnblockTimer c;
          firebaseError := firebaseError c |},
       Some {| cw_id := carId; cw_now := now; cw_patch := patch;
               cw_data :=
                 <["driverName" := VStr (safeName c)]>
                   (<["driverId" := VStr (clientId c)]> patch) |}).

(** What the hook goes through between two room changes, as far as
    publishing goes. *)
Inductive Event :=
| PlayerEffect (ls : NetPlayerState) (now : Z)
| PlayerWritten (w : PlayerWrite)
| WriteFailed (label : string) (err : Err)
| CarPush (carId : string) (patch : fields) (now : Z)
| QuotaTimer.

Inductive Issued :=
| IssuedPlayer (w : PlayerWrite)
| IssuedCar (w : CarWrite).

Definition handle (e : Event) (c : Client) : Client * list Issued :=
  match e with
  | PlayerEffect ls now =>
      let c' := render ls c in
      (c', match playerPublish now c' with
           | Some w => [IssuedPlayer w]
           | None => []
           end)
  | PlayerWritten w => (playerWritten w c, [])
  | WriteFailed label err => (setWriteErr label err c, [])
  | CarPush carId patch now =>
      let '(c', w) := pushCarState carId patch now c in
      (c', match w with Some w => [IssuedCar w] | None => [] end)
  | QuotaTimer => (quotaTimerFires c, [])
  end.

Fixpoint run (es : list Event) (c : Client) : Client * list Issued :=
  match es with
  | [] => (c, [])
  | e :: es' =>
      let '(c1, out1) := handle e c in
      let '(c2, out2) := run es' c1 in
      (c2, out1 ++ out2)
  end.

(** The car writes of a trace for [carId] keep their distance: each comes at
    least the gap selected for it after the one before, [last] and [prev]
    being the time and the patch of that one. *)
Fixpoint carSpaced (carId : string) (last : Z) (prev : option fields)
    (out : list Issued) : Prop :=
  match out with
  | [] => True
  | IssuedPlayer _ :: out' => carSpaced carId last prev out'
  | IssuedCar w :: out' =>
      if String.eqb (cw_id w) carId then
        (carGap (cw_patch w) prev <= cw_now w - last)%Z /\
        carSpaced carId (cw_now w) (Some (cw_patch w)) out'
      else carSpaced carId last prev out'
  end.

(** The issue time of the last player write of a trace that the server has
    acknowledged, [t0] when there is none. *)
Fixpoint lastAcked (es : list Event) (t0 : Z) : Z :=
  match es with
  | [] => t0
  | PlayerWritten w :: es' => lastAcked es' (pw_now w)
  | _ :: es' => lastAcked es' t0
  end.

(** *** The driver's seat *)

(** How an [async] function ends. *)
Inductive Promise (A : Type) :=
| Resolved (a : A)
| Rejected (e : Err).

Arguments Resolved {A} a.
Arguments Rejected {A} e.

(** What the store does with one call: setting the call up throws (the
    reference cannot be built, the client is terminated); or the promise of
    [runTransaction] rejects (the store cannot be reached, the transaction
    gives up); or the body runs on the document as it is and its writes are
    committed at once, the client's clock reading [now] and the server's
    [srv]. *)
Inductive TxEnv :=
| SetupThrows (e : Err)
| TxRejects (e : Err)
| TxCommits (now srv : Z).

Definition driverOf (raw : option fields) : option value :=
  match raw with Some d => d !! "driverId" | None => None end.

Definition occupiedByOther (me : string) (raw : option fields) (now : Z)
  : bool :=
  truthy (driverOf raw) && differsFrom (driverOf raw) me
  && ((updatedAtMs raw =? 0)%Z || (now - updatedAtMs raw <? STALE_MS)%Z).

(** [return runTransaction(...)] hands the promise over without awaiting it:
    the [catch] of [tryEnterCar] sees what is thrown while the call is set
    up, not a rejection. *)
Definition tryEnterCar (carId : string) (env : TxEnv) (c : Client)
    (st : store) : Promise bool * Client * store :=
  if quotaBlocked c then (Resolved true, c, st)
  else
    match env with
    | SetupThrows e => (Resolved false, setWriteErr "Try enter car" e c, st)
    | TxRejects e => (Rejected e, c, st)
    | TxCommits now srv =>
        if occupiedByOther (clientId c) (st !! carId) now
        then (Resolved false, c, st)
        else (Resolved true, c,
              setMerge carId
                (<["driverName" := VStr (safeName c)]>
                   (<["driverId" := VStr (clientId c)]> ∅)) srv st)
    end.

Definition leaveCar (carId : string) (patch : option fields) (env : TxEnv)
    (c : Client) (st : store) : Promise bool * Client * store :=
  if quotaBlocked c then (Resolved true, c, st)
  else
    match env with
    | SetupThrows e => (Resolved false, setWriteErr "Leave car" e c, st)
    | TxRejects e => (Rejected e, c, st)
    | TxCommits now srv =>
        if truthy (driverOf (st !! carId))
           && differsFrom (driverOf (st !! carId)) (clientId c)
        then (Resolved false, c, st)
        else (Resolved true, c,
              setMerge carId
                (<["driverName" := VNull]>
                   (<["driverId" := VNull]> (default ∅ patch))) srv st)
    end.

(** Calls of [tryEnterCar] on one car by several clients.  The transactions
    of the store are serialised document by document, so calls made at the
    same time are the list of these calls in the order the store takes
    them. *)
Fixpoint acquireAll (carId : string) (calls : list (Client * TxEnv))
    (st : store) : list (Promise bool) * store :=
  match calls with
  | [] => ([], st)
  | (c, env) :: rest =>
      let '(r, _, st1) := tryEnterCar carId env c st in
      let '(rs, st2) := acquireAll carId rest st1 in
      (r :: rs, st2)
  end.

(** *** The chat feed *)

Record ChatMessage := {
  id : string; senderId : string; senderName : string;
  text : string; createdAtMs : Q }.

(** [typeof m === 'object' && !!m]. *)
Definition isObject (m : value) : bool :=
  match m with
  | VTime _ | VArr _ | VObj _ => true
  | VNull | VBool _ | VNum _ | VStr _ => false
  end.

(** [Array.isArray(data?.messages) ? data.messages : []]. *)
Definition messagesOf (data : option fields) : list value :=
  match data with
  | Some d => match d !! "messages" with Some (VArr l) => l | _ => [] end
  | None => []
  end.

(** [l.slice(-n)]. *)
Definition sliceLast {A : Type} (n : nat) (l : list A) : list A :=
  skipn (length l - n) l.

(** The message pushed by [sendChatMessage]; [msgId] is the identifier made
    of the clock and of [Math.random()]. *)
Definition newMessage (msgId : string) (c : Client) (clean : string)
    (now : Z) : value :=
  VObj [("id", VStr msgId); ("senderId", VStr (clientId c));
        ("senderName", VStr (safeName c)); ("text", VStr clean);
        ("createdAtMs", VNum (inject_Z now))].

(** The list the transaction of [sendChatMessage] writes back. *)
Definition appendAndTrim (stored : list value) (m : value) : list value :=
  sliceLast CHAT_MAX_MESSAGES (filter isObject stored ++ [m]).

(** [sendChatMessage]: the transaction is awaited, so that its rejection is
    caught too. *)
Definition sendChatMessage (text : string) (msgId : string) (env : TxEnv)
    (c : Client) (st : store) : Client * store :=
  if quotaBlocked c then (c, st)
  else
    let clean := slice0 180 (trim text) in
    if isEmpty clean then (c, st)
    else
      match env with
      | SetupThrows e | TxRejects e => (setWriteErr "Chat write" e c, st)
      | TxCommits now srv =>
          let next :=
            appendAndTrim (messagesOf (st !! "chat-feed"))
                          (newMessage msgId c clean now) in
          (c, setMerge "chat-feed"
                (<["messages" := VArr next]>
                   (<["kind" := VStr "chat_feed"]> ∅)) srv st)
      end.

(** Chat messages sent one after the other, each by some client and with the
    store's answer to it. *)
Fixpoint sendAll (calls : list (Client * string * string * TxEnv))
    (st : store) : store :=
  match calls with
  | [] => st
  | (c, text, msgId, env) :: rest =>
      sendAll rest (snd (sendChatMessage text msgId env c st))
  end.

(** The property [k] of an object. *)
Fixpoint prop (o : list (string * value)) (k : string) : option value :=
  match o with
  | (k', v) :: o' => if String.eqb k' k then Some v else prop o' k
  | [] => None
  end.

Definition strOr (v : option value) (d : string) : string :=
  match v with Some (VStr s) => s | _ => d end.

(** One turn of the loop of the chat listener: [None] when reading
    [raw.text] throws (the item is [null]), [Some None] when the item is
    skipped.  [rnd] is the identifier drawn for a message without one. *)
Definition chatRow (rnd : string) (item : value)
  : option (option ChatMessage) :=
  match item with
  | VNull => None
  | VObj o =>
      match prop o "text" with
      | Some (VStr t) =>
          if isEmpty (trim t) then Some None
          else Some (Some
            {| id := strOr (prop o "id") rnd;
               senderId := strOr (prop o "senderId") "";
               senderName :=
                 match prop o "senderName" with
                 | Some (VStr n) =>
                     if isEmpty (trim n) then "Guest" else slice0 16 n
                 | _ => "Guest"
                 end;
               text := slice0 180 t;
               createdAtMs :=
                 match prop o "createdAtMs" with
                 | Some (VNum q) => q
                 | _ => 0
                 end |})
      | _ => Some None
      end
  | VBool _ | VNum _ | VStr _ | VTime _ | VArr _ => Some None
  end.

Fixpoint chatRows (rnd : nat -> string) (i : nat) (source : list value)
  : option (list ChatMessage) :=
  match source with
  | [] => Some []
  | item :: rest =>
      match chatRow (rnd i) item with
      | None => None
      | Some r =>
          match chatRows rnd (S i) rest with
          | None => None
          | Some rows =>
              Some (match r with Some m => m :: rows | None => rows end)
          end
      end
  end.

(** [rows.sort((a, b) => a.createdAtMs - b.createdAtMs)].  The sort of an
    array is stable, and this is the stable sort: a message goes in front of
    the later ones that are not older than it. *)
Fixpoint insertByTime (m : ChatMessage) (l : list ChatMessage)
  : list ChatMessage :=
  match l with
  | [] => [m]
  | y :: l' =>
      if Qle_bool (createdAtMs m) (createdAtMs y) then m :: l
      else y :: insertByTime m l'
  end.

Definition sortByTime (l : list ChatMessage) : list ChatMessage :=
  fold_right insertByTime [] l.

(** The order of the display: not younger, by [createdAtMs]. *)
Definition olderOrSame (a b : ChatMessage) : Prop :=
  createdAtMs a <= createdAtMs b.

(** The chat listener on a snapshot of the feed document: the list handed to
    [setChatMessages], or [None] when the callback throws. *)
Definition chatSnapshot (rnd : nat -> string) (data : option fields)
  : option (list ChatMessage) :=
  match chatRows rnd 0 (messagesOf data) with
  | Some rows => Some (sortByTime rows)
  | None => None
  end.

(** *** The players of the room *)

(** The data of the player effect's [setDoc]: [{ ...localState, name:
    safeName }]; the server adds [updatedAt]. *)
Definition playerDoc (p : NetPlayerState) : fields :=
  {[ "name" := VStr (name p); "x" := VNum (x p); "z" := VNum (z p);
     "yaw" := VNum (yaw p); "health" := VNum (health p);
     "wanted" := VNum (wanted p); "ammo" := VNum (ammo p);
     "inCar" := VBool (inCar p) ]}.

(** That write once it reaches the server, on the documents of the room's
    [players] collection. *)
Definition landPlayerWrite (cid : string) (w : PlayerWrite) (srv : Z)
    (players : store) : store :=
  setMerge cid (playerDoc (pw_payload w)) srv players.

(** [typeof v === 'number' ? v : d]. *)
Definition numOr (v : option value) (d : Q) : Q :=
  match v with Some (VNum q) => q | _ => d end.

(** [typeof n === 'string' && n.trim() ? n.slice(0, 16) : 'Guest']. *)
Definition shownName (v : option value) : string :=
  match v with
  | Some (VStr n) => if isEmpty (trim n) then "Guest" else slice0 16 n
  | _ => "Guest"
  end.

(** [RemotePlayer]: a player's state with the id of its document. *)
Record RemotePlayer := { rp_id : string; rp_state : NetPlayerState }.

(** One turn of the loop of the players listener, on a document of the
    snapshot: the player pushed, if any. *)
Definition remotePlayerOf (me : string) (now : Z) (item : string * fields)
  : option RemotePlayer :=
  let raw := item.2 in
  if String.eqb item.1 me then None
  else if (0 <? updatedAtMs (Some raw))%Z
          && (STALE_MS <? now - updatedAtMs (Some raw))%Z then None
  else
    match raw !! "x", raw !! "z", raw !! "yaw" with
    | Some (VNum px), Some (VNum pz), Some (VNum pyaw) =>
        Some {| rp_id := item.1;
                rp_state :=
                  {| name := shownName (raw !! "name");
                     x := px; z := pz; yaw := pyaw;
                     health := numOr (raw !! "health") 100;
                     wanted := numOr (raw !! "wanted") 0;
                     ammo := numOr (raw !! "ammo") 0;
                     inCar := truthy (raw !! "inCar") |} |}
    | _, _, _ => None
    end.

(** The players listener on a snapshot of the collection, the documents in
    the order of the snapshot: the list handed to [setRemotePlayers]. *)
Definition playersSnapshot (me : string) (now : Z)
    (snap : list (string * fields)) : list RemotePlayer :=
  omap (remotePlayerOf me now) snap.

(** *** The cars of the room *)

(** A car of the state [cars], an object: [c.id], a string by the type of
    the state. *)
Definition idOf (c : fields) : string := strOr (c !! "id") "".

(** An entry of [DEFAULT_CARS]. *)
Definition defaultCar (cid : string) (cx cz cyaw : Q) : fields :=
  {[ "id" := VStr cid; "x" := VNum cx; "y" := VNum 0.75; "z" := VNum cz;
     "yaw" := VNum cyaw; "speed" := VNum 0; "gear" := VNum 1;
     "rpm" := VNum 900; "damage" := VNum 0; "traction" := VNum 1;
     "headlightsOn" := VBool true; "driverId" := VNull;
     "driverName" := VNull ]}.

Definition DEFAULT_CARS : list fields :=
  [ defaultCar "car-1" 6 (-6) 0;
    defaultCar "car-2" (-14) 10 (PI * 0.2);
    defaultCar "car-3" 20 14 (PI * -0.35);
    defaultCar "car-4" (-24) (-18) (PI * 0.55) ].

(** [typeof v === 'string' ? v : null]. *)
Definition strOrNull (v : option value) : value :=
  match v with Some (VStr s) => VStr s | _ => VNull end.

(** The listener of [baseCar]'s document on a snapshot of it ([raw] is
    [None] when the document does not exist), as the updater handed to
    [setCars]: the cars by id (a later one of the same id wins), the entry of
    [baseCar] replaced, and the list read back in the order of
    [DEFAULT_CARS]. *)
Definition carsListener (baseCar : fields) (raw : option fields)
    (prev : list fields) : list fields :=
  let raw' := default ∅ raw in
  let byId : gmap string fields :=
    fold_left (fun m c => <[idOf c := c]> m) prev ∅ in
  let oldCar := default baseCar (byId !! idOf baseCar) in
  let byId' :=
    <[idOf baseCar :=
        <["driverName" := strOrNull (raw' !! "driverName")]>
          (<["driverId" := strOrNull (raw' !! "driverId")]>
             (<["id" := VStr (idOf baseCar)]> (raw' ∪ oldCar)))]> byId in
  map (fun c => default c (byId' !! idOf c)) DEFAULT_CARS.

(** The entry the listener makes of [baseCar] out of a snapshot: [{ ...oldCar,
    ...raw, id, driverId, driverName }]. *)
Definition shownCar (baseCar : fields) (raw : option fields)
    (oldCar : fields) : fields :=
  <["driverName" := strOrNull (default ∅ raw !! "driverName")]>
    (<["driverId" := strOrNull (default ∅ raw !! "driverId")]>
       (<["id" := VStr (idOf baseCar)]> (default ∅ raw ∪ oldCar))).

(** The state [cars] after snapshots of the documents of some of the cars,
    one after the other. *)
Definition carsAfter (snaps : list (fields * option fields))
    (prev : list fields) : list fields :=
  fold_left (fun cars s => carsListener s.1 s.2 cars) snaps prev.

(** [cars.find((c) => c.id === carId)]. *)
Definition findCar (carId : string) (cars : list fields) : option fields :=
  List.find (fun c => String.eqb (idOf c) carId) cars.

(** The write of [pushCarState] once it reaches the server. *)
Definition landCarWrite (w : CarWrite) (srv : Z) (st : store) : store :=
  setMerge (cw_id w) (cw_data w) srv st.

(** *** Cleaning up a room *)

(** The documents of a room: the players, the cars with the chat feed, and
    whether the room's own document exists. *)
Record Room := { rm_players : store; rm_cars : store; rm_doc : bool }.

Inductive DocRef :=
| PlayerRef (pid : string)
| CarRef (cid : string)
| RoomRef.

(** What the store does with the calls of one cleanup: [getDocs] rejects or
    answers, the clock reads [cl_now] then, and each [deleteDoc] goes through
    or not. *)
Record CleanEnv := {
  getDocsFails : bool; cl_now : Z; deleteOk : DocRef -> bool }.

Definition isLive (now : Z) (raw : fields) : bool :=
  (0 <? updatedAtMs (Some raw))%Z
  && (now - updatedAtMs (Some raw) <? STALE_MS * 2)%Z.

(** The loop over the snapshot: [staleRefs], [liveCount] and [selfLive]. *)
Definition scanPlayers (me : string) (now : Z)
    (snap : list (string * fields)) : list string * nat * bool :=
  fold_left
    (fun (acc : list string * nat * bool) (item : string * fields) =>
       let '(staleRefs, liveCount, selfLive) := acc in
       if isLive now item.2
       then (staleRefs, S liveCount, selfLive || String.eqb item.1 me)
       else (staleRefs ++ [item.1], liveCount, selfLive))
    snap ([], O, false).

(** [Promise.allSettled(refs.map((ref) => deleteDoc(ref)))]. *)
Definition deleteDocs (ok : string -> bool) (ids : list string)
    (col : store) : store :=
  fold_left (fun m i => if ok i then delete i m else m) ids col.

(** [maybeDeleteRoomIfEmpty], run without another client writing in
    between. *)
Definition maybeDeleteRoomIfEmpty (me : string) (assumeSelfRemoved : bool)
    (env : CleanEnv) (r : Room) : Room :=
  if getDocsFails env then r
  else
    let '(staleRefs, liveCount, selfLive) :=
      scanPlayers me (cl_now env) (map_to_list (rm_players r)) in
    let players' :=
      deleteDocs (fun i => deleteOk env (PlayerRef i)) staleRefs
        (rm_players r) in
    if (liveCount =? 0)%nat
       || (assumeSelfRemoved && (liveCount =? 1)%nat && selfLive)
    then
      {| rm_players := players';
         rm_cars :=
           deleteDocs (fun i => deleteOk env (CarRef i))
             (map idOf DEFAULT_CARS ++ ["chat-feed"]) (rm_cars r);
         rm_doc := rm_doc r && negb (deleteOk env RoomRef) |}
    else
      {| rm_players := players'; rm_cars := rm_cars r; rm_doc := rm_doc r |}.

(** [clean], the cleanup of the effect on [clientId] and [roomId]: the
    player's own document is deleted, or not when that fails, then the room
    is looked at. *)
Definition clean (me : string) (selfDeleteOk : bool) (env : CleanEnv)
    (r : Room) : Room :=
  maybeDeleteRoomIfEmpty me true env
    {| rm_players :=
         if selfDeleteOk then delete me (rm_players r) else rm_players r;
       rm_cars := rm_cars r; rm_doc := rm_doc r |}.

End Net.

(** ** The keys of the world ([World.tsx]) *)

Module Scene.

Import JS Net.
Local Open Scope Q_scope.

Definition ENTER_CAR_DISTANCE : Q := 4.6.

(** A car of the prop [cars], as its type [NetCarState] has it. *)
Record NetCarState := {
  car_id : string;
  car_x : Q; car_y : Q; car_z : Q; car_yaw : Q;
  car_speed : Q; car_gear : Q; car_rpm : Q; car_damage : Q;
  car_traction : Q; car_headlightsOn : bool;
  car_driverId : option string; car_driverName : option string }.

(** The state of the component that the key handlers read and set:
    [drivenCarId], [spawnAt], [activeCarSpawnAt] (x, y, z and yaw), the ref
    [activeCarStateRef], the ref [playerPos] (x and z; y is always 1) and the
    flag of the application set through [onInCarChange]. *)
Record Local := {
  drivenCarId : option string;
  spawnAt : option (Q * Q * Q);
  activeCarSpawnAt : option (Q * Q * Q * Q);
  activeCarState : option Car.CarState;
  playerPos : Q * Q;
  inCarFlag : bool }.

(** [!!id] for an id that may be null. *)
Definition truthyId (o : option string) : bool :=
  match o with Some i => negb (isEmpty i) | None => false end.

(** [{ ...live }]. *)
Definition carStatePatch (live : Car.CarState) : fields :=
  {[ "x" := VNum (Car.s_x live); "y" := VNum (Car.s_y live);
     "z" := VNum (Car.s_z live); "yaw" := VNum (Car.s_yaw live);
     "speed" := VNum (Car.s_speed live);
     "gear" := VNum (inject_Z (Car.s_gear live));
     "rpm" := VNum (Car.s_rpm live); "damage" := VNum (Car.s_damage live);
     "traction" := VNum (Car.s_traction live);
     "headlightsOn" := VBool (Car.s_headlightsOn live) ]}.

(** The square of [playerPos.distanceTo(new Vector3(c.x, 1, c.z))]. *)
Definition dist2 (p : Q * Q) (c : NetCarState) : Q :=
  (p.1 - car_x c) * (p.1 - car_x c) + (p.2 - car_z c) * (p.2 - car_z c).

(** The loop that looks for the nearest car: [nearest] with the square of
    [minDist], [None] standing for [null] and [Infinity].  Distances are not
    negative, so they compare as their squares do. *)
Definition nearestCar (p : Q * Q) (cars : list NetCarState)
  : option (NetCarState * Q) :=
  fold_left
    (fun (best : option (NetCarState * Q)) c =>
       match best with
       | None => Some (c, dist2 p c)
       | Some (_, m) => if Qltb (dist2 p c) m then Some (c, dist2 p c) else best
       end)
    cars None.

Section Handlers.

Variable Math_sin Math_cos : Q -> Q.

(** The state of whatever stands behind the callbacks, and the callbacks
    [onTryEnterCar], [onLeaveCar] and [onCarSync]. *)
Context {S : Type}.
Variable onTryEnterCar : string -> S -> Promise bool * S.
Variable onLeaveCar : string -> option fields -> S -> Promise bool * S.
Variable onCarSync : string -> fields -> S -> S.

(** The handler of the key [e], from the key press to the end of the
    [async] function, nothing else happening while it awaits. *)
Definition pressE (cars : list NetCarState) (w : Local) (h : S) : Local * S :=
  if truthyId (drivenCarId w) then
    let carId := default "" (drivenCarId w) in
    let live := activeCarState w in
    let fallback := List.find (fun c => String.eqb (car_id c) carId) cars in
    let pose :=
      match live, fallback with
      | Some l, _ => Some (Car.s_yaw l, Car.s_x l, Car.s_z l)
      | None, Some f => Some (car_yaw f, car_x f, car_z f)
      | None, None => None
      end in
    match pose with
    | None => (w, h)
    | Some (yaw, baseX, baseZ) =>
        let exitPos :=
          (baseX + Math_cos yaw * 1.8, 1, baseZ + - Math_sin yaw * 1.8) in
        let '(_, h') := onLeaveCar carId (carStatePatch <$> live) h in
        ({| drivenCarId := None; spawnAt := Some exitPos;
            activeCarSpawnAt := None; activeCarState := None;
            playerPos := playerPos w; inCarFlag := false |}, h')
    end
  else
    match nearestCar (playerPos w) cars with
    | None => (w, h)
    | Some (nearest, minDist2) =>
        if Qle_bool (ENTER_CAR_DISTANCE * ENTER_CAR_DISTANCE) minDist2
        then (w, h)
        else
          let '(r, h') := onTryEnterCar (car_id nearest) h in
          let ok :=
            match r with
            | Resolved b => b
            | Rejected _ => negb (truthyId (car_driverId nearest))
            end in
          if ok then
            ({| drivenCarId := Some (car_id nearest); spawnAt := spawnAt w;
                activeCarSpawnAt :=
                  Some (car_x nearest, car_y nearest, car_z nearest,
                        car_yaw nearest);
                activeCarState := activeCarState w;
                playerPos := playerPos w; inCarFlag := true |}, h')
          else (w, h')
    end.

(** The handler of the key [b]. *)
Definition pressB (cars : list NetCarState) (w : Local) (h : S) : S :=
  if truthyId (drivenCarId w) then h
  else
    let spawn : fields :=
      {[ "x" := VNum ((playerPos w).1 + 4); "y" := VNum 0.75;
         "z" := VNum (playerPos w).2; "yaw" := VNum 0 ]} in
    match List.find (fun c => negb (truthyId (car_driverId c))) cars with
    | None => h
    | Some emptyCar => onCarSync (car_id emptyCar) spawn h
    end.

End Handlers.

(** The callbacks of the hook, for a client and the cars of the store; the
    store answers a call as [env] says, and the clock reads [now] when
    [pushCarState] is called and [srv] on the server when its write
    arrives. *)
Definition hookTryEnterCar (env : TxEnv) (carId : string)
    (h : Client * store) : Promise bool * (Client * store) :=
  let '(r, c', st') := tryEnterCar carId env h.1 h.2 in (r, (c', st')).

Definition hookLeaveCar (env : TxEnv) (carId : string)
    (patch : option fields) (h : Client * store)
  : Promise bool * (Client * store) :=
  let '(r, c', st') := leaveCar carId patch env h.1 h.2 in (r, (c', st')).

Definition hookCarSync (now srv : Z) (carId : string) (patch : fields)
    (h : Client * store) : Client * store :=
  match pushCarState carId patch now h.1 with
  | (c', Some w) => (c', landCarWrite w srv h.2)
  | (c', None) => (c', h.2)
  end.

(** The callback [onUpdate] that the component gives to the [Car] of
    [carId]: the car the player drives hands its state to the ref and to
    [onCarSync]; any other car does nothing. *)
Definition onUpdate {S : Type} (onCarSync : string -> fields -> S -> S)
    (carId : string) (cs : Car.CarState) (w : Local) (h : S) : Local * S :=
  if match drivenCarId w with
     | Some d => String.eqb d carId
     | None => false
     end
  then
    ({| drivenCarId := drivenCarId w; spawnAt := spawnAt w;
        activeCarSpawnAt := activeCarSpawnAt w; activeCarState := Some cs;
        playerPos := playerPos w; inCarFlag := inCarFlag w |},
     onCarSync carId (carStatePatch cs) h)
  else (w, h).

(** A frame of a car as the hook meets it: the state the car hands to
    [onUpdate], the clock reading when [pushCarState] is called and the
    server time at which its write, if it issues one, arrives. *)
Record FrameReport := { fr_state : Car.CarState; fr_now : Z; fr_srv : Z }.

Definition reportFrames (carId : string) (fs : list FrameReport) (w : Local)
    (h : Client * store) : Local * (Client * store) :=
  fold_left
    (fun acc f =>
       onUpdate (hookCarSync (fr_now f) (fr_srv f)) carId (fr_state f)
         acc.1 acc.2)
    fs (w, h).

(** Whether one of the frames issues a car write. *)
Fixpoint issuesWrite (carId : string) (fs : list FrameReport) (c : Client)
  : bool :=
  match fs with
  | [] => false
  | f :: fs' =>
      match pushCarState carId (carStatePatch (fr_state f)) (fr_now f) c with
      | (_, Some _) => true
      | (c', None) => issuesWrite carId fs' c'
      end
  end.

(** The exit branch of the handler of the key [e] with the frames that come
    while it awaits [onLeaveCar]: [drivenCarId] is still set, so the car goes
    on handing its state to [onCarSync].  The writes of the frames [before]
    reach the store before the transaction of [leaveCar] commits, those of
    the frames [after] reach it later. *)
Definition pressE_leaving (Math_sin Math_cos : Q -> Q)
    (cars : list NetCarState) (now srv : Z)
    (before after : list FrameReport) (w : Local) (h : Client * store)
  : Local * (Client * store) :=
  if truthyId (drivenCarId w) then
    let carId := default "" (drivenCarId w) in
    let live := activeCarState w in
    let fallback := List.find (fun c => String.eqb (car_id c) carId) cars in
    let pose :=
      match live, fallback with
      | Some l, _ => Some (Car.s_yaw l, Car.s_x l, Car.s_z l)
      | None, Some f => Some (car_yaw f, car_x f, car_z f)
      | None, None => None
      end in
    match pose with
    | None => (w, h)
    | Some (yaw, baseX, baseZ) =>
        let exitPos :=
          (baseX + Math_cos yaw * 1.8, 1, baseZ + - Math_sin yaw * 1.8) in
        let patch := carStatePatch <$> live in
        let h1 := (reportFrames carId before w h).2 in
        let h2 := (hookLeaveCar (TxCommits now srv) carId patch h1).2 in
        let h3 := (reportFrames carId after w h2).2 in
        ({| drivenCarId := None; spawnAt := Some exitPos;
            activeCarSpawnAt := None; activeCarState := None;
            playerPos := playerPos w; inCarFlag := false |}, h3)
    end
  else (w, h).
(** A small scene: two of the cars, a driver and a player on foot. *)
Definition car1 : NetCarState :=
  {| car_id := "car-1"; car_x := 6; car_y := 0.75; car_z := -6; car_yaw := 0;
     car_speed := 0; car_gear := 1; car_rpm := 900; car_damage := 0;
     car_traction := 1; car_headlightsOn := true;
     car_driverId := Some "p-bob"%string;
     car_driverName := Some "Bob"%string |}.

Definition car2 : NetCarState :=
  {| car_id := "car-2"; car_x := -14; car_y := 0.75; car_z := 10;
     car_yaw := 0; car_speed := 0; car_gear := 1; car_rpm := 900;
     car_damage := 0; car_traction := 1; car_headlightsOn := true;
     car_driverId := None; car_driverName := None |}.

Definition lastFrame : Car.CarState :=
  {| Car.s_x := 30; Car.s_y := 0.75; Car.s_z := 40; Car.s_yaw := 0;
     Car.s_speed := 0; Car.s_gear := 1; Car.s_rpm := 900; Car.s_damage := 0;
     Car.s_traction := 1; Car.s_headlightsOn := true |}.

Definition driving : Local :=
  {| drivenCarId := Some "car-1"%string; spawnAt := None;
     activeCarSpawnAt := Some (6, 0.75, -6, 0);
     activeCarState := Some lastFrame; playerPos := (0, 0);
     inCarFlag := true |}.

Definition onFoot : Local :=
  {| drivenCarId := None; spawnAt := None; activeCarSpawnAt := None;
     activeCarState := None; playerPos := (-13, 9); inCarFlag := false |}.

Definition ann : Client :=
  enterRoom "p-ann"
    {| name := "Ann"; x := 0; z := 0; yaw := 0; health := 100; wanted := 0;
       ammo := 30; inCar := false |}.

Definition offline : Err :=
  {| code := Some "unavailable"%string; message := Some "offline"%string |}.

End Scene.

(** ** The older iteration of the hook

    [tryEnterCar], [leaveCar] and [setWriteErr] as the iteration without the
    quota timer has them: the two calls answer false while writes are
    suspended, and nothing lifts the suspension but a change of room. *)

Module Older.

Import JS Net.

Definition setWriteErr (label : string) (err : Err) (c : Client) : Client :=
  {| clientId := clientId c; localState := localState c;
     lastSent := lastSent c; lastCarSent := lastCarSent c;
     lastPlayerPayload := lastPlayerPayload c;
     lastCarPayload := lastCarPayload c;
     quotaBlocked := if isQuotaError err then true else quotaBlocked c;
     quotaUnblockTimer := quotaUnblockTimer c;
     firebaseError :=
       Some (if isQuotaError err
             then label +:+ ": Quota exceeded (Spark limit)"
             else toErr label err) |}.

Definition tryEnterCar (carId : string) (env : TxEnv) (c : Client)
    (st : store) : Promise bool * Client * store :=
  if quotaBlocked c then (Resolved false, c, st)
  else
    match env with
    | SetupThrows e => (Resolved false, setWriteErr "Try enter car" e c, st)
    | TxRejects e => (Rejected e, c, st)
    | TxCommits now srv =>
        if occupiedByOther (clientId c) (st !! carId) now
        then (Resolved false, c, st)
        else (Resolved true, c,
              setMerge carId
                (<["driverName" := VStr (safeName c)]>
                   (<["driverId" := VStr (clientId c)]> ∅)) srv st)
    end.

Definition leaveCar (carId : string) (patch : option fields) (env : TxEnv)
    (c : Client) (st : store) : Promise bool * Client * store :=
  if quotaBlocked c then (Resolved false, c, st)
  else
    match env with
    | SetupThrows e => (Resolved false, setWriteErr "Leave car" e c, st)
    | TxRejects e => (Rejected e, c, st)
    | TxCommits now srv =>
        if truthy (driverOf (st !! carId))
           && differsFrom (driverOf (st !! carId)) (clientId c)
        then (Resolved false, c, st)
        else (Resolved true, c,
              setMerge carId
                (<["driverName" := VNull]>
                   (<["driverId" := VNull]> (default ∅ patch))) srv st)
    end.

Definition hookTryEnterCar (env : TxEnv) (carId : string)
    (h : Client * store) : Promise bool * (Client * store) :=
  let '(r, c', st') := tryEnterCar carId env h.1 h.2 in (r, (c', st')).

Definition hookLeaveCar (env : TxEnv) (carId : string)
    (patch : option fields) (h : Client * store)
  : Promise bool * (Client * store) :=
  let '(r, c', st') := leaveCar carId patch env h.1 h.2 in (r, (c', st')).

End Older.

(** ** Room codes ([App.tsx]) *)

Module App.

Import Net.

Definition upperAscii (a : ascii) : ascii :=
  let n := nat_of_ascii a in
  if (97 <=? n)%nat && (n <=? 122)%nat then ascii_of_nat (n - 32) else a.

(** [toUpperCase], on ASCII text. *)
Fixpoint toUpperCase (s : string) : string :=
  match s with
  | String a s' => String (upperAscii a) (toUpperCase s')
  | EmptyString => EmptyString
  end.

(** A character of the class [A-Z0-9]. *)
Definition isCodeChar (a : ascii) : bool :=
  let n := nat_of_ascii a in
  ((65 <=? n)%nat && (n <=? 90)%nat) || ((48 <=? n)%nat && (n <=? 57)%nat).

(** [s.replace(/[^A-Z0-9]/g, '')]. *)
Fixpoint keepCodeChars (s : string) : string :=
  match s with
  | String a s' =>
      if isCodeChar a then String a (keepCodeChars s') else keepCodeChars s'
  | EmptyString => EmptyString
  end.

Definition normalizeRoomCode (input fallback : string) : string :=
  let cleaned := keepCodeChars (toUpperCase input) in
  if isEmpty (slice0 8 cleaned) then fallback else slice0 8 cleaned.

End App.

(** ** Keys from the touch controls ([MobileControls.tsx]) and the keys of
    the car ([Car.tsx]) *)

Module Input.

Import Net.

(** A [KeyboardEvent] dispatched on the window. *)
Inductive KeyEv :=
| KeyDownEv (key : string)
| KeyUpEv (key : string).

(** [activeKeys], a [Set]: its keys in the order they were added. *)
Definition has (key : string) (activeKeys : list string) : bool :=
  existsb (String.eqb key) activeKeys.

Definition press (key : string) (activeKeys : list string)
  : list string * list KeyEv :=
  if has key activeKeys then (activeKeys, [])
  else (activeKeys ++ [key], [KeyDownEv key]).

Definition release (key : string) (activeKeys : list string)
  : list string * list KeyEv :=
  if negb (has key activeKeys) then (activeKeys, [])
  else (List.filter (fun k => negb (String.eqb key k)) activeKeys,
        [KeyUpEv key]).

(** [for (const key of Array.from(activeKeys.current)) release(key)]. *)
Definition releaseAll (activeKeys : list string) : list string * list KeyEv :=
  fold_left
    (fun (acc : list string * list KeyEv) key =>
       let '(act, out) := release key acc.1 in (act, acc.2 ++ out))
    activeKeys (activeKeys, []).

(** What happens to the controls: a hold button goes down, it goes up or the
    pointer leaves it, and the window loses the pointer or the focus. *)
Inductive Op :=
| Press (key : string)
| Release (key : string)
| ReleaseAll.

Definition step (op : Op) (activeKeys : list string)
  : list string * list KeyEv :=
  match op with
  | Press key => press key activeKeys
  | Release key => release key activeKeys
  | ReleaseAll => releaseAll activeKeys
  end.

Fixpoint runOps (ops : list Op) (activeKeys : list string)
  : list string * list KeyEv :=
  match ops with
  | [] => (activeKeys, [])
  | op :: ops' =>
      let '(act1, out1) := step op activeKeys in
      let '(act2, out2) := runOps ops' act1 in
      (act2, out1 ++ out2)
  end.

(** The listeners [down] and [up] of the car, on its object of pressed
    keys. *)
Definition carKey (ev : KeyEv) (keys : Car.KeyMap) : Car.KeyMap :=
  match ev with
  | KeyDownEv key => <[toLowerCase key := true]> keys
  | KeyUpEv key => <[toLowerCase key := false]> keys
  end.

Definition carKeys (evs : list KeyEv) (keys : Car.KeyMap) : Car.KeyMap :=
  fold_left (fun ks ev => carKey ev ks) evs keys.

(** The keys held and the key map of the car agree: a key that is held
    reads pressed, and a key that was pressed on the controls and is held no
    longer reads released. *)
Definition agree (act : list string) (keys : Car.KeyMap)
    (seen : list KeyEv) : Prop :=
  NoDup act /\
  (forall k, k ∈ act -> toLowerCase k = k /\ Car.pressed keys k = true) /\
  (forall k, k ∉ act -> KeyDownEv k ∈ seen -> Car.pressed keys k = false).

(** Keys go down in lower case, as the buttons have them. *)
Definition lowerCaseOp (op : Op) : Prop :=
  match op with
  | Press key => toLowerCase key = key
  | Release _ | ReleaseAll => True
  end.

End Input.

(** ** The vehicle and the world in doubles

    [Car.tsx] and the colliders of [World.tsx] once more, on IEEE 754 binary64
    numbers as the kernel computes them: every operation rounds as the
    JavaScript one does and may give an infinity or NaN.  Evaluation order
    follows the source, a binary operation per step; a decimal literal
    denotes the double nearest to it, as it does in the source. *)

Set Warnings "-inexact-float".

Module Car64.

Import PrimFloat.
Local Open Scope float_scope.

(** A whole number as a double (exact below 2^53). *)
Fixpoint ofPos (p : positive) : float :=
  match p with
  | xH => 1
  | xO p' => 2 * ofPos p'
  | xI p' => 2 * ofPos p' + 1
  end.

Definition ofZ (n : Z) : float :=
  match n with
  | Z0 => 0
  | Zpos p => ofPos p
  | Zneg p => - ofPos p
  end.

(** [Math.sign]: zeros and NaN are returned as they are. *)
Definition sign (a : float) : float :=
  if 0 <? a then 1 else if a <? 0 then -1 else a.

(** [Math.min] and [Math.max]: NaN when an argument is NaN; of two zeros the
    negative one is the smaller. *)
Definition min (a b : float) : float :=
  if is_nan a || is_nan b then nan
  else if a <? b then a
  else if b <? a then b
  else if 1 / a <? 0 then a else b.

Definition max (a b : float) : float :=
  if is_nan a || is_nan b then nan
  else if a <? b then b
  else if b <? a then a
  else if 1 / a <? 0 then b else a.

(** [Math.PI]. *)
Definition PI : float := 0x1.921fb54442d18p+1.

(** [cond ? 1 : 0]. *)
Definition flag (b : bool) : float := if b then 1 else 0.

Record Collider := { c_x : float; c_z : float; c_w : float; c_d : float }.

Record Bounds := { minX : float; maxX : float; minZ : float; maxZ : float }.

Record CarState := {
  s_x : float; s_y : float; s_z : float; s_yaw : float; s_speed : float;
  s_gear : Z; s_rpm : float; s_damage : float; s_traction : float;
  s_headlightsOn : bool }.

(** The mesh position, the refs [speed], [yaw], [damage] and the React state
    [gear], [headlightsOn]. *)
Record Sim := {
  pos_x : float; pos_y : float; pos_z : float;
  yaw : float; speed : float; damage : float;
  gear : Z; headlightsOn : bool }.

Definition gearRatios : list float := [3.1; 3.0; 2.2; 1.6; 1.25; 1.0; 0.82].
Definition finalDrive : float := 3.4.
Definition wheelRadius : float := 0.36.
Definition maxRpm : float := 9000.
Definition idleRpm : float := 900.
Definition enginePower : float := 36.
Definition brakePower : float := 34.
Definition drag : float := 0.02.
Definition rolling : float := 0.28.
Definition carScale : float := 1.2.
Definition carHalfW : float := 1.3 * carScale.
Definition carHalfD : float := 2.6 * carScale.

(** The overlap test of [resolveCollision]. *)
Definition overlaps (c : Collider) (x z : float) : bool :=
  let halfW := c_w c / 2 + carHalfW in
  let halfD := c_d c / 2 + carHalfD in
  let dx := x - c_x c in
  let dz := z - c_z c in
  (abs dx <? halfW) && (abs dz <? halfD).

(** [resolveCollision], on the position [(x, z)] and the flag [collided]. *)
Definition resolveCollision (c : Collider) (p : float * float * bool)
  : float * float * bool :=
  let '(x, z, collided) := p in
  let halfW := c_w c / 2 + carHalfW in
  let halfD := c_d c / 2 + carHalfD in
  let dx := x - c_x c in
  let dz := z - c_z c in
  if overlaps c x z then
    let penX := halfW - abs dx in
    let penZ := halfD - abs dz in
    if penX <? penZ
    then (x + (if dx =? 0 then 1 else sign dx) * penX, z, true)
    else (x, z + (if dz =? 0 then 1 else sign dz) * penZ, true)
  else (x, z, collided).

Definition resolveAll (cs : list Collider) (p : float * float * bool)
  : float * float * bool :=
  fold_left (fun acc c => resolveCollision c acc) cs p.

Definition resolvePass (colliders : list Collider)
    (dynamicColliders : option (list Collider)) (p : float * float * bool)
  : float * float * bool :=
  let p1 := resolveAll colliders p in
  match dynamicColliders with
  | Some ds => resolveAll ds p1
  | None => p1
  end.

(** One axis of the world-bounds block: a NaN coordinate fails both
    comparisons. *)
Definition clampAxis (lo hi v : float) (collided : bool) : float * bool :=
  if v <? lo then (lo, true)
  else if hi <? v then (hi, true)
  else (v, collided).

Definition clampToBounds (b : Bounds) (p : float * float * bool)
  : float * float * bool :=
  let '(x, z, collided) := p in
  let '(x', collided1) :=
    clampAxis (minX b + carHalfW) (maxX b - carHalfW) x collided in
  let '(z', collided2) :=
    clampAxis (minZ b + carHalfD) (maxZ b - carHalfD) z collided1 in
  (x', z', collided2).

(** The block [if (collided) { ... }] on [damage] and [speed]. *)
Definition collisionResponse (dmg spd : float) : float * float :=
  let impact := min 1 (abs spd / 18) in
  let dmg' := min 1 (dmg + impact * 0.22) in
  let spd' := spd * -0.25 in
  (dmg', if abs spd' <? 0.8 then 0 else spd').

Definition tractionOf (speedAbs steerInput : float) : float :=
  max 0 (1 - min 1 (speedAbs / 45) * abs steerInput * 0.6).

Definition steerInputOf (active : bool) (keys : Car.KeyMap) : float :=
  flag (active && (Car.pressed keys "a" || Car.pressed keys "arrowleft"))
  + (if active && (Car.pressed keys "d" || Car.pressed keys "arrowright")
     then -1 else 0).

Definition gearRatio (g : Z) : float :=
  nth (Z.to_nat (Z.max 0 (Z.min g (Z.of_nat (length gearRatios) - 1))))
      gearRatios nan.

Definition autoShift (active : bool) (rpm : float) (g : Z) : Z :=
  if active && (0 <? g)%Z then
    let g1 := if (7800 <? rpm) && (g <? 6)%Z then Z.min 6 (g + 1) else g in
    if (rpm <? 2200) && (1 <? g)%Z then Z.max 1 (g1 - 1) else g1
  else g.

Section Frame.

(** [Math.sin] and [Math.cos]. *)
Variable Math_sin Math_cos : float -> float.

Variable colliders : list Collider.
Variable dynamicColliders : option (list Collider).
Variable bounds : Bounds.

(** The speed once the forces, the handbrake and the idle decay are
    applied. *)
Definition integrateSpeed (active : bool) (keys : Car.KeyMap) (delta : float)
    (s : Sim) : float :=
  let throttle :=
    flag (active && (Car.pressed keys "w" || Car.pressed keys "arrowup")) in
  let brake :=
    flag (active && (Car.pressed keys "s" || Car.pressed keys "arrowdown")) in
  let handbrake := active && Car.pressed keys " " in
  let ratio := gearRatio (gear s) in
  let direction := if (gear s =? 0)%Z then -1 else 1 in
  let engineForce := throttle * enginePower * ratio * direction in
  let brakeSign := if speed s =? 0 then 1 else sign (speed s) in
  let brakeForce := brakePower * brake * brakeSign in
  let accel :=
    engineForce - brakeForce - drag * speed s * abs (speed s)
    - rolling * speed s in
  let speed1 := speed s + accel * delta in
  let speed2 :=
    if handbrake && (0.5 <? abs speed1) then speed1 * 0.985 else speed1 in
  if negb active then speed2 * 0.99 else speed2.

(** [position.add(forward.clone().multiplyScalar(speed.current * delta))]
    on the three coordinates ([forward.y] is 0), then the pushes and the
    clamp on [x] and [z]. *)
Definition movePosition (spd delta : float) (s : Sim)
  : float * float * float * bool :=
  let fwd_x := Math_sin (yaw s) in
  let fwd_z := Math_cos (yaw s) in
  let x1 := pos_x s + fwd_x * (spd * delta) in
  let y1 := pos_y s + 0 * (spd * delta) in
  let z1 := pos_z s + fwd_z * (spd * delta) in
  let '(x2, z2, collided) :=
    clampToBounds bounds
      (resolvePass colliders dynamicColliders (x1, z1, false)) in
  (x2, y1, z2, collided).

(** The body of [useFrame] in local mode, for a mounted mesh. *)
Definition frameLocal (active : bool) (keys : Car.KeyMap) (delta : float)
    (s : Sim) : Sim * CarState :=
  let steerInput := steerInputOf active keys in
  let ratio := gearRatio (gear s) in
  let speed3 := integrateSpeed active keys delta s in
  let speedAbs := abs speed3 in
  let steerFactor := 1 / (1 + speedAbs * 0.08) in
  let yaw' :=
    yaw s + steerInput * steerFactor * delta * 1.7
            * (if 0.2 <? speedAbs then sign speed3 else 1) in
  let '(x2, y2, z2, collided) := movePosition speed3 delta s in
  let '(damage', speed4) :=
    if collided then collisionResponse (damage s) speed3
    else (damage s, speed3) in
  let wheelRpm := speedAbs / (2 * PI * wheelRadius) * 60 in
  let rpm := min maxRpm (max idleRpm (wheelRpm * ratio * finalDrive)) in
  let traction := tractionOf speedAbs steerInput in
  ({| pos_x := x2; pos_y := y2; pos_z := z2;
      yaw := yaw'; speed := speed4; damage := damage';
      gear := autoShift active rpm (gear s);
      headlightsOn := headlightsOn s |},
   {| s_x := x2; s_y := y2; s_z := z2; s_yaw := yaw';
      s_speed := speed4; s_gear := gear s; s_rpm := rpm;
      s_damage := damage'; s_traction := traction;
      s_headlightsOn := headlightsOn s |}).

(** Frames with the given times, one after the other, the same keys held:
    the state they leave. *)
Definition frames (active : bool) (keys : Car.KeyMap) (deltas : list float)
    (s : Sim) : Sim :=
  fold_left (fun acc delta => fst (frameLocal active keys delta acc)) deltas s.

(** The headings with which these frames start. *)
Fixpoint headings (active : bool) (keys : Car.KeyMap) (deltas : list float)
    (s : Sim) : list float :=
  match deltas with
  | [] => []
  | delta :: rest =>
      yaw s :: headings active keys rest (fst (frameLocal active keys delta s))
  end.

End Frame.

End Car64.

Module World64.

Import PrimFloat Car64.
Local Open Scope float_scope.

Definition bounds : Bounds :=
  {| minX := -1200; maxX := 1200; minZ := -1200; maxZ := 1200 |}.

Definition base : list Collider :=
  [ {| c_x := 50; c_z := -120; c_w := 20; c_d := 20 |};
    {| c_x := -160; c_z := 200; c_w := 30; c_d := 12 |};
    {| c_x := 180; c_z := 140; c_w := 46; c_d := 26 |} ].

(** The footprints of [blocks] (heights left out): whole numbers, computed
    here on integers, [%] being the remainder that takes the sign of the
    dividend. *)
Definition blocks : list Collider :=
  let step := 240%Z in
  flat_map
    (fun i =>
       flat_map
         (fun j =>
            if (Z.abs i <=? 1)%Z && (Z.abs j <=? 1)%Z then []
            else
              [ {| c_x := ofZ (i * step + Z.rem j 2 * 20);
                   c_z := ofZ (j * step + Z.rem i 2 * 20);
                   c_w := ofZ (60 + Z.rem (i + j + 10) 3 * 30);
                   c_d := ofZ (70 + Z.rem (i - j + 10) 3 * 25) |} ])
         [-4; -3; -2; -1; 0; 1; 2; 3; 4]%Z)
    [-4; -3; -2; -1; 0; 1; 2; 3; 4]%Z.

(** The footprints of [towers]. *)
Definition towers : list Collider :=
  flat_map
    (fun i =>
       map
         (fun j =>
            {| c_x := ofZ (520 + i * 70);
               c_z := ofZ (-320 + j * 80);
               c_w := ofZ (30 + Z.rem i 3 * 8);
               c_d := 36 |})
         [0; 1; 2; 3; 4]%Z)
    [0; 1; 2; 3; 4; 5; 6; 7]%Z.

Definition colliders : list Collider := base ++ blocks ++ towers.

(** [car-1] of [DEFAULT_CARS] as its driver finds it on entering: the spawn
    effect has placed the mesh and set [speed] to 0; [gear] is 1. *)
Definition car1 : Sim :=
  {| pos_x := 6; pos_y := 0.75; pos_z := -6; yaw := 0; speed := 0;
     damage := 0; gear := 1; headlightsOn := true |}.

(** A frame that comes 900 s after the one before (the page was in the
    background; the frame time is the clock's, unbounded), then [n] frames at
    60 per second. *)
Definition resumed (n : nat) : list float := 900 :: repeat (1 / 60) n.

(** The key [w] held. *)
Definition throttle : Car.KeyMap := {[ "w"%string := true ]}.

(** Functions that are [Math.sin] and [Math.cos] at heading 0. *)
Definition sin0 (y : float) : float := if y =? 0 then y else nan.
Definition cos0 (y : float) : float := if y =? 0 then 1 else nan.

End World64.

(** ** The collision pass with rounded arithmetic

    The pushes and the clamp once more on rationals, every sum, difference,
    product and quotient going through the arithmetic of the machine, of
    which the properties assume a bound on the relative error.  The
    comparisons are exact, as they are on doubles. *)

Module Rounded.

Import JS Car.
Local Open Scope Q_scope.

(** The arithmetic of the machine: the sum, the difference, the product and
    the quotient of two numbers as it returns them, and the vehicle's half
    extents [1.3 * carScale] and [2.6 * carScale] as it holds them. *)
Record Arith := {
  fadd : Q -> Q -> Q;
  fsub : Q -> Q -> Q;
  fmul : Q -> Q -> Q;
  fdiv : Q -> Q -> Q;
  carHalfW : Q;
  carHalfD : Q }.

(** What the properties assume of the arithmetic, for a unit roundoff [u]: a
    sum or a difference is returned with a relative error of at most [u],
    and a product with 1 or -1 is exact.  Binary64 arithmetic rounding to
    nearest meets this with [u = 2^-53] as long as no sum or difference
    overflows.  Nothing is assumed of the quotient. *)
Definition accurate (A : Arith) (u : Q) : Prop :=
  0 <= u <= 1 # 16 /\
  (forall a b, Qabs (fadd A a b - (a + b)) <= u * Qabs (a + b)) /\
  (forall a b, Qabs (fsub A a b - (a - b)) <= u * Qabs (a - b)) /\
  (forall q, fmul A 1 q == q /\ fmul A (-1) q == - q).

(** Exact arithmetic with the exact half extents. *)
Definition exact : Arith :=
  {| fadd := Qplus; fsub := Qminus; fmul := Qmult; fdiv := Qdiv;
     carHalfW := Car.carHalfW; carHalfD := Car.carHalfD |}.


Section Pass.

Variable A : Arith.

Definition halfW (c : Collider) : Q := fadd A (fdiv A (c_w c) 2) (carHalfW A).
Definition halfD (c : Collider) : Q := fadd A (fdiv A (c_d c) 2) (carHalfD A).

(** The overlap test of [resolveCollision]. *)
Definition overlaps (c : Collider) (x z : Q) : bool :=
  let dx := fsub A x (c_x c) in
  let dz := fsub A z (c_z c) in
  Qltb (Qabs dx) (halfW c) && Qltb (Qabs dz) (halfD c).

Definition resolveCollision (c : Collider) (p : Q * Q * bool)
  : Q * Q * bool :=
  let '(x, z, collided) := p in
  let dx := fsub A x (c_x c) in
  let dz := fsub A z (c_z c) in
  if overlaps c x z then
    let penX := fsub A (halfW c) (Qabs dx) in
    let penZ := fsub A (halfD c) (Qabs dz) in
    if Qltb penX penZ
    then (fadd A x (fmul A (if Qeq_bool dx 0 then 1 else sign dx) penX),
          z, true)
    else (x,
          fadd A z (fmul A (if Qeq_bool dz 0 then 1 else sign dz) penZ),
          true)
  else (x, z, collided).

Definition resolveAll (cs : list Collider) (p : Q * Q * bool)
  : Q * Q * bool :=
  fold_left (fun acc c => resolveCollision c acc) cs p.

Definition resolvePass (colliders : list Collider)
    (dynamicColliders : option (list Collider)) (p : Q * Q * bool)
  : Q * Q * bool :=
  let p1 := resolveAll colliders p in
  match dynamicColliders with
  | Some ds => resolveAll ds p1
  | None => p1
  end.

Definition clampToBounds (b : Bounds) (p : Q * Q * bool) : Q * Q * bool :=
  let '(x, z, collided) := p in
  let '(x', collided1) :=
    clampAxis (fadd A (minX b) (carHalfW A)) (fsub A (maxX b) (carHalfW A))
      x collided in
  let '(z', collided2) :=
    clampAxis (fadd A (minZ b) (carHalfD A)) (fsub A (maxZ b) (carHalfD A))
      z collided1 in
  (x', z', collided2).

(** The collider's centre and its inflated half extents, as computed, are at
    most [R] in magnitude. *)
Definition within (R : Q) (c : Collider) : Prop :=
  Qabs (c_x c) <= R /\ Qabs (c_z c) <= R /\ halfW c <= R /\ halfD c <= R.

(** The inflated footprints of two colliders, as computed, are at least [m]
    apart along one axis. *)
Definition apartBy (m : Q) (c c' : Collider) : Prop :=
  halfW c + halfW c' + m <= Qabs (c_x c - c_x c') \/
  halfD c + halfD c' + m <= Qabs (c_z c - c_z c').


(** The position lies in the inflated footprint, more than [t] from its edge
    on both axes. *)
Definition deepIn (t : Q) (c : Collider) (x z : Q) : Prop :=
  Qabs (x - c_x c) < halfW c - t /\ Qabs (z - c_z c) < halfD c - t.

(** The position lies in the inflated footprint or at most [t] outside it on
    both axes. *)
Definition near (t : Q) (c : Collider) (x z : Q) : Prop :=
  Qabs (x - c_x c) <= halfW c + t /\ Qabs (z - c_z c) <= halfD c + t.






End Pass.

(** The depth the properties allow for: eight roundings of magnitudes up to
    [R]. *)
Definition tol (u R : Q) : Q := 8 * u * R.

End Rounded.

(** * Properties *)

(** ** Numbers *)

Section NumberFacts.

Local Open Scope Q_scope.
Import JS.

Lemma Qltb_lt (a b : Q) : Qltb a b = true <-> a < b.
Proof.
  unfold Qltb. rewrite negb_true_iff. split.
  - intros H. apply Qnot_le_lt. intros Hle.
    apply Qle_bool_iff in Hle. congruence.
  - intros H. destruct (Qle_bool b a) eqn:E; [|reflexivity].
    apply Qle_bool_iff in E. lra.
Qed.

Lemma Qltb_ge (a b : Q) : Qltb a b = false <-> b <= a.
Proof.
  unfold Qltb. rewrite negb_false_iff. apply Qle_bool_iff.
Qed.

Lemma sign_pos (a : Q) : 0 < a -> sign a = 1.
Proof. intros H. unfold sign. apply Qltb_lt in H. now rewrite H. Qed.

Lemma sign_neg (a : Q) : a < 0 -> sign a = -1.
Proof.
  intros H. unfold sign.
  assert (Qltb 0 a = false) as -> by (apply Qltb_ge; lra).
  apply Qltb_lt in H. now rewrite H.
Qed.

(** Moving [x] away from the centre [cx] by [p >= 0] adds [p] to the
    distance between them. *)
Lemma push_away (x cx p : Q) :
  0 <= p ->
  Qabs (x + (if Qeq_bool (x - cx) 0 then 1 else sign (x - cx)) * p - cx)
  == Qabs (x - cx) + p.
Proof.
  intros Hp. destruct (Qeq_bool (x - cx) 0) eqn:E.
  - apply Qeq_bool_iff in E.
    rewrite (Qabs_pos (x - cx)) by lra. rewrite Qabs_pos by lra. lra.
  - apply Qeq_bool_neq in E.
    destruct (Qlt_le_dec 0 (x - cx)) as [Hd|Hd].
    + rewrite (sign_pos _ Hd). rewrite !Qabs_pos by lra. lra.
    + assert (x - cx < 0) as Hn
        by (apply Qle_lteq in Hd; destruct Hd; [lra | contradiction]).
      rewrite (sign_neg _ Hn). rewrite !Qabs_neg by lra. lra.
Qed.

End NumberFacts.

(** ** Collision resolution *)

Section CollisionFacts.

Local Open Scope Q_scope.
Import JS Car.

Lemma overlaps_true (c : Collider) (x z : Q) :
  overlaps c x z = true <->
  Qabs (x - c_x c) < c_w c / 2 + carHalfW /\
  Qabs (z - c_z c) < c_d c / 2 + carHalfD.
Proof.
  unfold overlaps. rewrite andb_true_iff, !Qltb_lt. reflexivity.
Qed.

Lemma overlaps_false (c : Collider) (x z : Q) :
  c_w c / 2 + carHalfW <= Qabs (x - c_x c) \/
  c_d c / 2 + carHalfD <= Qabs (z - c_z c) ->
  overlaps c x z = false.
Proof.
  intros H. destruct (overlaps c x z) eqn:E; [|reflexivity].
  apply overlaps_true in E. lra.
Qed.

(** Right after [resolveCollision c] the box is clear of [c]. *)
Lemma resolveCollision_clears (c : Collider) (p : Q * Q * bool) :
  let '(x, z, _) := resolveCollision c p in overlaps c x z = false.
Proof.
  destruct p as [[x z] collided]. unfold resolveCollision.
  destruct (overlaps c x z) eqn:E; [|exact E].
  apply overlaps_true in E. destruct E as [Ex Ez].
  destruct (Qltb _ _) eqn:Epen; apply overlaps_false.
  - left. rewrite push_away by lra. lra.
  - right. rewrite push_away by lra. lra.
Qed.

Lemma resolveAll_app (cs1 cs2 : list Collider) (p : Q * Q * bool) :
  resolveAll (cs1 ++ cs2) p = resolveAll cs2 (resolveAll cs1 p).
Proof. unfold resolveAll. apply fold_left_app. Qed.

Lemma Qabs_cases (e : Q) :
  (0 <= e /\ Qabs e == e) \/ (e <= 0 /\ Qabs e == - e).
Proof.
  destruct (Qlt_le_dec e 0) as [H|H].
  - right. split; [lra|]. apply Qabs_neg. lra.
  - left. split; [exact H|]. by apply Qabs_pos.
Qed.

Lemma resolveCollision_miss (c : Collider) (x z : Q) (collided : bool) :
  overlaps c x z = false ->
  resolveCollision c (x, z, collided) = (x, z, collided).
Proof. intros H. unfold resolveCollision. by rewrite H. Qed.

(** A push moves the vehicle to the edge of the inflated footprint. *)
Lemma resolveCollision_reaches (c : Collider) (x z : Q) (collided : bool) :
  overlaps c x z = true ->
  let '(x', z', _) := resolveCollision c (x, z, collided) in reaches c x' z'.
Proof.
  intros E. unfold resolveCollision. rewrite E.
  apply overlaps_true in E. destruct E as [Ex Ez].
  destruct (Qltb _ _) eqn:Epen; unfold reaches.
  - rewrite push_away by lra. split; lra.
  - rewrite push_away by lra. split; lra.
Qed.

(** Splits on the sign of [e], leaving [Qabs e] as [e] or [- e] for
    [lra]. *)
Ltac split_abs e :=
  let Hs := fresh "Hs" in
  let He := fresh "He" in
  destruct (Qabs_cases e) as [[Hs He]|[Hs He]].

Lemma apart_sym (c c' : Collider) : apart c c' -> apart c' c.
Proof.
  unfold apart. intros [H|H]; [left|right].
  - split_abs (c_x c - c_x c'); split_abs (c_x c' - c_x c); lra.
  - split_abs (c_z c - c_z c'); split_abs (c_z c' - c_z c); lra.
Qed.

(** On the edge of one footprint, the vehicle is outside every footprint
    apart from it. *)
Lemma reaches_apart (c c' : Collider) (x z : Q) :
  reaches c x z -> apart c c' -> overlaps c' x z = false.
Proof.
  intros [Rx Rz] [H|H]; apply overlaps_false; [left|right].
  - split_abs (c_x c - c_x c'); split_abs (x - c_x c);
      split_abs (x - c_x c'); lra.
  - split_abs (c_z c - c_z c'); split_abs (z - c_z c);
      split_abs (z - c_z c'); lra.
Qed.

Lemma resolveAll_cons (c : Collider) (cs : list Collider)
    (p : Q * Q * bool) :
  resolveAll (c :: cs) p = resolveAll cs (resolveCollision c p).
Proof. reflexivity. Qed.

Lemma resolveAll_miss (cs : list Collider) (x z : Q) (collided : bool) :
  Forall (fun c => overlaps c x z = false) cs ->
  resolveAll cs (x, z, collided) = (x, z, collided).
Proof.
  induction 1 as [|c cs Hc _ IH]; [reflexivity|].
  rewrite resolveAll_cons, (resolveCollision_miss _ _ _ _ Hc). exact IH.
Qed.

(** The loop over colliders that are pairwise apart: at its end the vehicle
    is outside every footprint, and it has not moved or it is on the edge of
    one of them. *)
Lemma resolveAll_clear (cs : list Collider) :
  ForallOrdPairs apart cs ->
  forall (x z : Q) (collided : bool),
    let '(x', z', _) := resolveAll cs (x, z, collided) in
    Forall (fun c => overlaps c x' z' = false) cs /\
    ((x', z') = (x, z) \/ Exists (fun c => reaches c x' z') cs).
Proof.
  induction 1 as [|c cs Hc Hcs IH]; intros x z collided.
  - simpl. split; [constructor|by left].
  - rewrite resolveAll_cons.
    destruct (overlaps c x z) eqn:E.
    + pose proof (resolveCollision_reaches c x z collided E) as Hr.
      pose proof (resolveCollision_clears c (x, z, collided)) as Hclear.
      destruct (resolveCollision c (x, z, collided)) as [[x1 z1] f1].
      assert (Forall (fun c' => overlaps c' x1 z1 = false) cs) as Hrest.
      { eapply Forall_impl; [exact Hc|].
        intros c' Hap. by apply (reaches_apart c c'). }
      rewrite (resolveAll_miss cs x1 z1 f1 Hrest).
      split; [by constructor|]. right. by constructor.
    + rewrite (resolveCollision_miss c x z collided E).
      specialize (IH x z collided).
      destruct (resolveAll cs (x, z, collided)) as [[x' z'] f'].
      destruct IH as [Hrest Hwhere]. split.
      * constructor; [|exact Hrest].
        destruct Hwhere as [[= -> ->]|Hex]; [exact E|].
        apply Exists_exists in Hex. destruct Hex as (c' & Hin & Hr).
        rewrite Forall_forall in Hc.
        apply (reaches_apart c' c); [exact Hr|].
        apply apart_sym, Hc, Hin.
      * destruct Hwhere as [Heq|Hex]; [by left|right; by constructor].
Qed.

(** The world-bounds block does not move the vehicle into a footprint that
    lies inside the range it clamps to. *)
Lemma clampToBounds_clear (b : Bounds) (c : Collider) (x z : Q)
    (collided : bool) :
  insideClamp b c -> overlaps c x z = false ->
  let '(x', z', _) := clampToBounds b (x, z, collided) in
  overlaps c x' z' = false.
Proof.
  intros (H1 & H2 & H3 & H4) Hc. unfold clampToBounds, clampAxis.
  destruct (Qltb x (minX b + carHalfW)) eqn:Ex1.
  { destruct (if Qltb z _ then _ else _) as [z' f].
    apply overlaps_false. left.
    split_abs (minX b + carHalfW - c_x c); lra. }
  destruct (Qltb (maxX b - carHalfW) x) eqn:Ex2.
  { destruct (if Qltb z _ then _ else _) as [z' f].
    apply overlaps_false. left.
    split_abs (maxX b - carHalfW - c_x c); lra. }
  destruct (Qltb z (minZ b + carHalfD)) eqn:Ez1.
  { apply overlaps_false. right.
    split_abs (minZ b + carHalfD - c_z c); lra. }
  destruct (Qltb (maxZ b - carHalfD) z) eqn:Ez2.
  { apply overlaps_false. right.
    split_abs (maxZ b - carHalfD - c_z c); lra. }
  exact Hc.
Qed.

Lemma resolvePass_all (cs : list Collider) (dyn : option (list Collider))
    (p : Q * Q * bool) :
  resolvePass cs dyn p = resolveAll (cs ++ default [] dyn) p.
Proof.
  unfold resolvePass. destruct dyn as [ds|]; simpl.
  - by rewrite resolveAll_app.
  - by rewrite app_nil_r.
Qed.

Lemma clampAxis_range (lo hi v : Q) (collided : bool) :
  lo <= hi -> lo <= fst (clampAxis lo hi v collided) <= hi.
Proof.
  intros Hle. unfold clampAxis.
  destruct (Qltb v lo) eqn:E1; simpl; [lra|].
  destruct (Qltb hi v) eqn:E2; simpl; [lra|].
  apply Qltb_ge in E1, E2. lra.
Qed.

End CollisionFacts.

Section PassFacts.

Local Open Scope Q_scope.
Import JS Car.

(** Two boxes 2 apart leave no room for the car; the second push moves it
    back into the first box.  Start at [(6, 0)], inside
    the inflated footprint of the first collider. *)
Lemma second_push_reenters_the_first_box :
  let c1 := {| c_x := 0; c_z := 0; c_w := 10; c_d := 10 |} in
  let c2 := {| c_x := 12; c_z := 0; c_w := 10; c_d := 10 |} in
  let '(x, z, _) :=
    clampToBounds World.bounds (resolvePass [c1; c2] None (6, 0, false)) in
  overlaps c1 6 0 = true /\ x == 5.44 /\ z == 0 /\ overlaps c1 x z = true.
Proof. vm_compute. repeat split; reflexivity. Qed.

(** The clamp can undo a push as well: a collider next to the world's edge. *)
Lemma clamp_pushes_back_in :
  let c := {| c_x := 1195; c_z := 0; c_w := 10; c_d := 10 |} in
  let '(x, z, _) :=
    clampToBounds World.bounds (resolvePass [c] None (1199, 0, false)) in
  x == 1198.44 /\ overlaps c x z = true.
Proof. vm_compute. split; reflexivity. Qed.

(** In exact arithmetic: when the colliders of the lists, static and dynamic,
    have inflated footprints that are pairwise apart and that lie inside the
    range of the world-bounds clamp, then after the collision loops and the
    clamp the vehicle's inflated box overlaps no collider of the lists,
    wherever the vehicle was. *)
Lemma disjoint_colliders_cleared_exact
    (b : Bounds) (cs : list Collider) (dyn : option (list Collider))
    (p : Q * Q * bool) :
  ForallOrdPairs apart (cs ++ default [] dyn) ->
  Forall (insideClamp b) (cs ++ default [] dyn) ->
  let '(x, z, _) := clampToBounds b (resolvePass cs dyn p) in
  Forall (fun c => overlaps c x z = false) (cs ++ default [] dyn).
Proof.
  intros Hap Hin. rewrite resolvePass_all.
  destruct p as [[x0 z0] f0].
  pose proof (resolveAll_clear _ Hap x0 z0 f0) as H.
  destruct (resolveAll (cs ++ default [] dyn) (x0, z0, f0)) as [[x1 z1] f1].
  destruct H as [Hclear _].
  assert (forall c, c ∈ cs ++ default [] dyn ->
            let '(x, z, _) := clampToBounds b (x1, z1, f1) in
            overlaps c x z = false) as Hall.
  { intros c Hc. rewrite Forall_forall in Hin, Hclear.
    apply clampToBounds_clear; [apply Hin|apply Hclear]; exact Hc. }
  destruct (clampToBounds b (x1, z1, f1)) as [[x z] f].
  apply Forall_forall. intros c Hc. by apply Hall.
Qed.

Lemma clampToBounds_range (b : Bounds) (p : Q * Q * bool) :
  minX b + carHalfW <= maxX b - carHalfW ->
  minZ b + carHalfD <= maxZ b - carHalfD ->
  let '(x, z, _) := clampToBounds b p in
  minX b + carHalfW <= x <= maxX b - carHalfW /\
  minZ b + carHalfD <= z <= maxZ b - carHalfD.
Proof.
  intros Hx Hz. destruct p as [[x z] collided]. unfold clampToBounds.
  pose proof (clampAxis_range _ _ x collided Hx) as Rx.
  destruct (clampAxis _ _ x collided) as [x' c1].
  pose proof (clampAxis_range _ _ z c1 Hz) as Rz.
  destruct (clampAxis _ _ z c1) as [z' c2].
  simpl in *. split; assumption.
Qed.

Lemma carHalfW_val : carHalfW == 1.56.
Proof. reflexivity. Qed.

Lemma carHalfD_val : carHalfD == 3.12.
Proof. reflexivity. Qed.

Variable Math_sin Math_cos : Q -> Q.
Variable colliders : list Collider.
Variable dynamicColliders : option (list Collider).

Lemma frameLocal_position (b : Bounds) active keys delta (s : Sim) :
  let '(x, z, _) :=
    movePosition Math_sin Math_cos colliders dynamicColliders b
      (integrateSpeed active keys delta s) delta s in
  let s' :=
    fst (frameLocal Math_sin Math_cos colliders dynamicColliders b
           active keys delta s) in
  pos_x s' = x /\ pos_z s' = z.
Proof.
  unfold frameLocal.
  destruct (movePosition _ _ _ _ _ _ _ _) as [[x z] collided].
  destruct (if collided then _ else _) as [d v]. simpl. split; reflexivity.
Qed.

(** The position a frame ends with, for bounds at least as wide as the car. *)
Lemma frameLocal_in_bounds (b : Bounds) active keys delta (s : Sim) :
  minX b + carHalfW <= maxX b - carHalfW ->
  minZ b + carHalfD <= maxZ b - carHalfD ->
  let s' :=
    fst (frameLocal Math_sin Math_cos colliders dynamicColliders b
           active keys delta s) in
  minX b + carHalfW <= pos_x s' <= maxX b - carHalfW /\
  minZ b + carHalfD <= pos_z s' <= maxZ b - carHalfD.
Proof.
  intros Hx Hz. cbv zeta.
  pose proof (frameLocal_position b active keys delta s) as Hpos.
  unfold movePosition in Hpos. cbv zeta in Hpos.
  pose proof (clampToBounds_range b
    (resolvePass colliders dynamicColliders
       (pos_x s + Math_sin (yaw s)
                  * (integrateSpeed active keys delta s * delta),
        pos_z s + Math_cos (yaw s)
                  * (integrateSpeed active keys delta s * delta),
        false)) Hx Hz) as Hr.
  destruct (clampToBounds b _) as [[x z] collided].
  destruct Hpos as [-> ->]. exact Hr.
Qed.

(** In exact arithmetic, where no speed overflows and every coordinate is a
    number: whatever happened before (frames, key presses, respawns at any
    place), the position at the end of a frame of the local simulation lies
    in the clamp range [[minX + carHalfW, maxX - carHalfW]] by
    [[minZ + carHalfD, maxZ - carHalfD]] of the world's bounds, hence in
    [[minX, maxX]] by [[minZ, maxZ]]. *)
Lemma position_within_world_bounds_exact
    (es : list Event) active keys delta (s : Sim) :
  let b := World.bounds in
  let s' :=
    run Math_sin Math_cos colliders dynamicColliders b
      (es ++ [Frame active keys delta]) s in
  (minX b + carHalfW <= pos_x s' <= maxX b - carHalfW /\
   minZ b + carHalfD <= pos_z s' <= maxZ b - carHalfD) /\
  (minX b <= pos_x s' <= maxX b /\ minZ b <= pos_z s' <= maxZ b).
Proof.
  intros b s'. subst s'. unfold run. rewrite fold_left_app. simpl.
  set (s0 := fold_left _ es s).
  assert (minX b + carHalfW <= maxX b - carHalfW) as Hx by (vm_compute; discriminate).
  assert (minZ b + carHalfD <= maxZ b - carHalfD) as Hz by (vm_compute; discriminate).
  pose proof (frameLocal_in_bounds b active keys delta s0 Hx Hz) as [Rx Rz].
  split; [split; assumption|].
  pose proof carHalfW_val. pose proof carHalfD_val.
  subst b. unfold World.bounds in *. cbn [minX maxX minZ maxZ] in *.
  split; lra.
Qed.

End PassFacts.

(** ** Damage, bounce and traction *)

Section ResponseFacts.

Local Open Scope Q_scope.
Import JS Car.

Lemma collisionResponse_damage (dmg spd : Q) :
  let dmg' := fst (collisionResponse dmg spd) in
  dmg' == Qmin 1 (dmg + Qmin 1 (Qabs spd / 18) * 0.22) /\
  dmg' <= 1 /\
  (dmg <= 1 -> dmg <= dmg' <= dmg + 0.22).
Proof.
  cbv zeta. unfold collisionResponse. cbn [fst].
  pose proof (Qabs_nonneg spd) as Habs.
  set (impact := Qmin 1 (Qabs spd / 18)).
  assert (0 <= impact <= 1) as [Hi0 Hi1].
  { subst impact. split.
    - apply Q.min_glb; [lra|]. apply Qle_shift_div_l; lra.
    - apply Q.le_min_l. }
  split; [reflexivity|]. split; [apply Q.le_min_l|].
  intros Hd. split.
  - apply Q.min_glb; lra.
  - eapply Qle_trans; [apply Q.le_min_r|]. lra.
Qed.

Lemma collisionResponse_speed (dmg spd : Q) :
  let spd' := snd (collisionResponse dmg spd) in
  (Qabs spd < 3.2 -> spd' == 0) /\
  (3.2 <= Qabs spd -> spd' == spd * -0.25) /\
  Qabs spd' <= Qabs spd * 0.25 /\
  (0 < spd -> spd' <= 0) /\ (spd < 0 -> 0 <= spd').
Proof.
  cbv zeta. unfold collisionResponse. cbn [snd].
  assert (Qabs (spd * -0.25) == Qabs spd * 0.25) as Habs.
  { rewrite Qabs_Qmult. reflexivity. }
  pose proof (Qabs_nonneg spd) as Hnn.
  destruct (Qltb (Qabs (spd * -0.25)) 0.8) eqn:E.
  - apply Qltb_lt in E. rewrite Habs in E.
    repeat split; intros; try lra. rewrite Qabs_pos; lra.
  - apply Qltb_ge in E. rewrite Habs in E.
    repeat split; intros; try lra.
Qed.

(** From a finite damage and a finite speed the block yields finite values,
    those of the rational block: no NaN, no infinity. *)
Lemma collisionResponseNum_finite (dmg spd : Q) :
  collisionResponseNum (Fin dmg) (Fin spd)
  = (Fin (fst (collisionResponse dmg spd)),
     Fin (snd (collisionResponse dmg spd))).
Proof.
  unfold collisionResponseNum, collisionResponse. cbn [nabs ndiv nmin nmul nadd nlt fst snd].
  assert (Qeq_bool 18 0 = false) as -> by reflexivity.
  cbn [nmin nmul nadd].
  by destruct (Qltb (Qabs (spd * -0.25)) 0.8).
Qed.

(** Not so from a speed that is not a number. *)
Example collisionResponseNum_nan :
  collisionResponseNum (Fin 0) NaN = (NaN, NaN).
Proof. reflexivity. Qed.

(** The scenario of the specification: a head-on impact at speed 20. *)
Example collision_at_speed_20 (dmg : Q) :
  dmg <= 0.78 ->
  fst (collisionResponse dmg 20) == dmg + 0.22 /\
  snd (collisionResponse dmg 20) == -5.
Proof.
  intros Hd. unfold collisionResponse. cbn [fst snd]. split.
  - assert (Qmin 1 (Qabs 20 / 18) == 1) as -> by reflexivity.
    rewrite Q.min_r; lra.
  - reflexivity.
Qed.

Lemma steerInputOf_cases (active : bool) (keys : KeyMap) :
  steerInputOf active keys = 0 + 0 \/ steerInputOf active keys = 1 + 0 \/
  steerInputOf active keys = 0 + -1 \/ steerInputOf active keys = 1 + -1.
Proof.
  unfold steerInputOf, flag.
  destruct (active && (pressed keys "a" || pressed keys "arrowleft"))%bool,
           (active && (pressed keys "d" || pressed keys "arrowright"))%bool;
    auto.
Qed.

Lemma steerInputOf_abs (active : bool) (keys : KeyMap) :
  let st := steerInputOf active keys in
  (st == -1 \/ st == 0 \/ st == 1) /\ 0 <= Qabs st <= 1.
Proof.
  cbv zeta.
  destruct (steerInputOf_cases active keys) as [E|[E|[E|E]]]; rewrite E;
    (split; [|split; vm_compute; discriminate]).
  - right; left; reflexivity.
  - right; right; reflexivity.
  - left; reflexivity.
  - right; left; reflexivity.
Qed.

Lemma tractionOf_range (speedAbs st : Q) :
  0 <= speedAbs -> 0 <= Qabs st <= 1 ->
  tractionOf speedAbs st == 1 - Qmin 1 (speedAbs / 45) * Qabs st * 0.6 /\
  0.4 <= tractionOf speedAbs st <= 1.
Proof.
  intros Hs [Ha0 Ha1]. unfold tractionOf.
  set (frac := Qmin 1 (speedAbs / 45)).
  assert (0 <= frac <= 1) as [Hf0 Hf1].
  { subst frac. split.
    - apply Q.min_glb; [lra|]. apply Qle_shift_div_l; lra.
    - apply Q.le_min_l. }
  assert (0 <= frac * Qabs st) as Hp0 by (apply Qmult_le_0_compat; assumption).
  assert (frac * Qabs st <= 1 * 1) as Hp1
    by (apply Qmult_le_compat_nonneg; split; assumption).
  assert (0 <= 1 - frac * Qabs st * 0.6) as Hpos by lra.
  rewrite (Q.max_r _ _ Hpos). split; [reflexivity|lra].
Qed.

Variable Math_sin Math_cos : Q -> Q.
Variable colliders : list Collider.
Variable dynamicColliders : option (list Collider).
Variable bounds : Bounds.

Lemma frameLocal_response active keys delta (s : Sim) :
  let spd := integrateSpeed active keys delta s in
  let collided :=
    snd (movePosition Math_sin Math_cos colliders dynamicColliders bounds
           spd delta s) in
  let s' :=
    fst (frameLocal Math_sin Math_cos colliders dynamicColliders bounds
           active keys delta s) in
  (damage s', speed s') =
  if collided then collisionResponse (damage s) spd else (damage s, spd).
Proof.
  cbv zeta. unfold frameLocal.
  destruct (movePosition _ _ _ _ _ _ _ _) as [[x z] collided]. cbn [snd].
  destruct (if collided then _ else _) as [d v]. reflexivity.
Qed.

Lemma frameLocal_traction active keys delta (s : Sim) :
  s_traction
    (snd (frameLocal Math_sin Math_cos colliders dynamicColliders bounds
            active keys delta s))
  = tractionOf (Qabs (integrateSpeed active keys delta s))
      (steerInputOf active keys).
Proof.
  unfold frameLocal.
  destruct (movePosition _ _ _ _ _ _ _ _) as [[x z] collided].
  destruct (if collided then _ else _) as [d v]. reflexivity.
Qed.

(** C7: in a frame that resolved a collision (a collider pushed the car out
    or the world bounds clamped it), the damage becomes
    [min(1, damage + min(1, |speed| / 18) * 0.22)], so it is at most 1 and,
    from a damage of at most 1, grows by at most 0.22; the speed is multiplied
    by -0.25 and set to 0 when the product is below 0.8 in magnitude (that
    is, for an impact speed below 3.2).  [speed] is the speed after this
    frame's forces.  Run on numbers that may be NaN or infinite, the block
    gives these same finite results from the finite damage and speed. *)
Theorem C7_collision_damage_and_bounce active keys delta (s : Sim) :
  let spd := integrateSpeed active keys delta s in
  let s' :=
    fst (frameLocal Math_sin Math_cos colliders dynamicColliders bounds
           active keys delta s) in
  snd (movePosition Math_sin Math_cos colliders dynamicColliders bounds
         spd delta s) = true ->
  (damage s' == Qmin 1 (damage s + Qmin 1 (Qabs spd / 18) * 0.22) /\
   damage s' <= 1 /\
   (damage s <= 1 -> damage s <= damage s' <= damage s + 0.22)) /\
  ((Qabs (spd * -0.25) < 0.8 -> speed s' == 0) /\
   (0.8 <= Qabs (spd * -0.25) -> speed s' == spd * -0.25) /\
   Qabs (speed s') <= Qabs spd * 0.25 /\
   (0 < spd -> speed s' <= 0) /\ (spd < 0 -> 0 <= speed s')) /\
  collisionResponseNum (Fin (damage s)) (Fin spd)
  = (Fin (damage s'), Fin (speed s')).
Proof.
  intros spd s' Hc.
  pose proof (frameLocal_response active keys delta s) as H.
  cbv zeta in H. fold spd s' in H. rewrite Hc in H.
  pose proof (collisionResponse_damage (damage s) spd) as Hd.
  pose proof (collisionResponse_speed (damage s) spd) as Hs.
  cbv zeta in Hd, Hs. rewrite <- H in Hd, Hs. cbn [fst snd] in Hd, Hs.
  split; [exact Hd|].
  split; [|by rewrite collisionResponseNum_finite, <- H].
  destruct Hs as (H1 & H2 & H3 & H4 & H5).
  assert (Qabs (spd * -0.25) == Qabs spd * 0.25) as Habs
    by (rewrite Qabs_Qmult; reflexivity).
  repeat split; try assumption.
  - intros Hlt. apply H1. rewrite Habs in Hlt. lra.
  - intros Hge. apply H2. rewrite Habs in Hge. lra.
Qed.

(** In exact arithmetic, where the speed is always a number: the traction a
    frame reports is [max(0, 1 - min(1, speedAbs / 45) * |steerInput| * 0.6)],
    where [speedAbs] is the magnitude of the speed after this frame's forces
    and [steerInput] is -1, 0 or 1; it lies in [[0.4, 1]], so the [max] with
    0 never applies. *)
Lemma traction_range_exact active keys delta (s : Sim) :
  let speedAbs := Qabs (integrateSpeed active keys delta s) in
  let steerInput := steerInputOf active keys in
  let traction :=
    s_traction
      (snd (frameLocal Math_sin Math_cos colliders dynamicColliders bounds
              active keys delta s)) in
  (steerInput == -1 \/ steerInput == 0 \/ steerInput == 1) /\
  traction = Qmax 0 (1 - Qmin 1 (speedAbs / 45) * Qabs steerInput * 0.6) /\
  traction == 1 - Qmin 1 (speedAbs / 45) * Qabs steerInput * 0.6 /\
  0.4 <= traction <= 1.
Proof.
  intros speedAbs steerInput traction.
  pose proof (steerInputOf_abs active keys) as [Hst Habs].
  assert (traction = tractionOf speedAbs steerInput) as ->
    by apply frameLocal_traction.
  pose proof (tractionOf_range speedAbs steerInput
                (Qabs_nonneg _) Habs) as [Heq Hr].
  repeat split; try assumption; try reflexivity; apply Hr.
Qed.

End ResponseFacts.

(** ** The driver's seat *)

Section SeatFacts.

Import JS Net.

Lemma setMerge_same (id : string) (data : fields) (srv : Z) (st : store) :
  setMerge id data srv st !! id
  = Some (<["updatedAt" := VTime srv]> data ∪ default ∅ (st !! id)).
Proof. unfold setMerge. apply lookup_insert_eq. Qed.

Lemma setMerge_other (id id' : string) (data : fields) (srv : Z)
    (st : store) :
  id <> id' -> setMerge id data srv st !! id' = st !! id'.
Proof. intros H. unfold setMerge. by apply lookup_insert_ne. Qed.

(** What [occupiedByOther] tests, in words: a driver is recorded, it is not
    the caller, and the last update is unknown (no timestamp, or one that
    reads 0) or younger than [STALE_MS]. *)
Lemma occupiedByOther_spec (me : string) (raw : option fields) (now : Z) :
  occupiedByOther me raw now = true <->
  exists d drv,
    raw = Some d /\ d !! "driverId" = Some drv /\
    truthy (Some drv) = true /\ drv <> VStr me /\
    (updatedAtMs raw = 0 \/ now - updatedAtMs raw < STALE_MS)%Z.
Proof.
  unfold occupiedByOther. rewrite !andb_true_iff, orb_true_iff.
  rewrite Z.eqb_eq, Z.ltb_lt. split.
  - intros [[Ht Hd] Hf]. destruct raw as [d|]; [|discriminate].
    simpl in Ht, Hd. destruct (d !! "driverId") as [drv|] eqn:E;
      [|discriminate].
    exists d, drv. repeat split; try assumption.
    intros ->. simpl in Hd. rewrite String.eqb_refl in Hd. discriminate.
  - intros (d & drv & -> & E & Ht & Hne & Hf). simpl. rewrite E.
    repeat split; try assumption.
    destruct drv; try reflexivity. simpl.
    destruct (String.eqb s me) eqn:Es; [|reflexivity].
    apply String.eqb_eq in Es. congruence.
Qed.

(** C2 as stated fails: while the writes are suspended the call answers
    [true] at once, whoever drives the car. *)
Lemma C2_counterexample :
  let ls := {| name := "Ann"; x := 0; z := 0; yaw := 0; health := 100;
               wanted := 0; ammo := 30; inCar := false |} in
  let c := setWriteErr "Player write"
             {| code := Some "resource-exhausted"; message := None |}
             (enterRoom "p-ann" ls) in
  let st : store :=
    {[ "car-1" := {[ "driverId" := VStr "p-bob";
                     "driverName" := VStr "Bob";
                     "updatedAt" := VTime 1000000 ]} ]} in
  occupiedByOther "p-ann" (st !! "car-1") 1000500 = true /\
  tryEnterCar "car-1" (TxCommits 1000500 1000600) c st
  = (Resolved true, c, st).
Proof. split; reflexivity. Qed.

(** C2, amended: as long as the client's writes are not suspended and the
    transaction commits, [tryEnterCar] answers [false] exactly when the car's
    document records a driver that is truthy, is not the caller's
    [clientId], and whose last update is unknown (no timestamp, or one that
    reads 0) or less than 15000 ms old on the caller's clock; it then writes
    nothing.  In every other case it answers [true] and the one write of the
    transaction sets [driverId] to the caller's [clientId], [driverName] to
    its safe name and [updatedAt] to the server's time, keeps every other
    field of the document and leaves the other documents alone. *)
Theorem C2_tryEnterCar_decision
    (carId : string) (now srv : Z) (c : Client) (st : store) :
  quotaBlocked c = false ->
  let '(r, c', st') := tryEnterCar carId (TxCommits now srv) c st in
  c' = c /\
  (r = Resolved false \/ r = Resolved true) /\
  (r = Resolved false <->
   exists d drv,
     st !! carId = Some d /\ d !! "driverId" = Some drv /\
     truthy (Some drv) = true /\ drv <> VStr (clientId c) /\
     (updatedAtMs (Some d) = 0 \/ now - updatedAtMs (Some d) < 15000)%Z) /\
  (r = Resolved false -> st' = st) /\
  (r = Resolved true ->
   (exists d',
      st' !! carId = Some d' /\
      d' !! "driverId" = Some (VStr (clientId c)) /\
      d' !! "driverName" = Some (VStr (safeName c)) /\
      d' !! "updatedAt" = Some (VTime srv) /\
      forall k, k <> "driverId" -> k <> "driverName" -> k <> "updatedAt" ->
                d' !! k = default ∅ (st !! carId) !! k) /\
   forall other, other <> carId -> st' !! other = st !! other).
Proof.
  intros Hq. unfold tryEnterCar. rewrite Hq.
  destruct (occupiedByOther (clientId c) (st !! carId) now) eqn:E.
  - apply occupiedByOther_spec in E.
    destruct E as (d & drv & Hd & Hdrv & Ht & Hne & Hf).
    split; [reflexivity|]. split; [by left|]. split.
    + split; [intros _|reflexivity].
      exists d, drv. rewrite Hd in Hf. by repeat split.
    + split; [reflexivity|]. intros [=].
  - split; [reflexivity|]. split; [by right|]. split.
    + split; [intros [=]|].
      intros (d & drv & Hd & Hdrv & Ht & Hne & Hf).
      assert (occupiedByOther (clientId c) (st !! carId) now = true) as E'.
      { apply occupiedByOther_spec. exists d, drv. rewrite Hd.
        by repeat split. }
      congruence.
    + split; [intros [=]|]. intros _. split.
      * eexists. split; [apply setMerge_same|].
        repeat split.
        -- apply lookup_union_Some_l. by simplify_map_eq.
        -- apply lookup_union_Some_l. by simplify_map_eq.
        -- apply lookup_union_Some_l. by simplify_map_eq.
        -- intros k H1 H2 H3. apply lookup_union_r. by simplify_map_eq.
      * intros other Ho. by apply setMerge_other.
Qed.

(** C3 as stated fails: a client in quota backoff is told [true], not
    [false], by [tryEnterCar] and by [leaveCar], here on a car that another
    client drives. *)
Lemma C3_counterexample :
  let ls := {| name := "Ann"; x := 0; z := 0; yaw := 0; health := 100;
               wanted := 0; ammo := 30; inCar := false |} in
  let c := setWriteErr "Car write"
             {| code := None; message := Some "Quota exceeded." |}
             (enterRoom "p-ann" ls) in
  let st : store :=
    {[ "car-1" := {[ "driverId" := VStr "p-bob";
                     "updatedAt" := VTime 1000000 ]} ]} in
  let unreachable := TxRejects {| code := Some "unavailable";
                                  message := Some "offline" |} in
  quotaBlocked c = true /\
  tryEnterCar "car-1" unreachable c st = (Resolved true, c, st) /\
  leaveCar "car-1" None unreachable c st = (Resolved true, c, st).
Proof. repeat split; reflexivity. Qed.

(** With the writes open and the store out of reach, the promise that is
    returned is the rejected one of the transaction. *)
Lemma unreachable_store_rejects
    (carId : string) (patch : option fields) (e : Err) (c : Client)
    (st : store) :
  quotaBlocked c = false ->
  tryEnterCar carId (TxRejects e) c st = (Rejected e, c, st) /\
  leaveCar carId patch (TxRejects e) c st = (Rejected e, c, st).
Proof. intros Hq. unfold tryEnterCar, leaveCar. rewrite Hq. by split. Qed.

(** C3, amended: while the client's writes are suspended (quota backoff),
    [tryEnterCar] and [leaveCar] throw nothing, leave the store and the
    client as they are and answer [true], whatever the state of the store:
    the caller goes on locally.  Otherwise, what is thrown while the call is
    set up is caught: it is reported through [setWriteErr] and the answer is
    [false], the store being left as it is. *)
Theorem C3_suspended_or_failed_calls
    (carId : string) (patch : option fields) (c : Client) (st : store) :
  (quotaBlocked c = true ->
   forall env,
     tryEnterCar carId env c st = (Resolved true, c, st) /\
     leaveCar carId patch env c st = (Resolved true, c, st)) /\
  (quotaBlocked c = false ->
   forall e,
     tryEnterCar carId (SetupThrows e) c st
     = (Resolved false, setWriteErr "Try enter car" e c, st) /\
     leaveCar carId patch (SetupThrows e) c st
     = (Resolved false, setWriteErr "Leave car" e c, st)).
Proof.
  split; intros Hq ?; unfold tryEnterCar, leaveCar; rewrite Hq; by split.
Qed.

(** C4 as stated fails: in quota backoff [leaveCar] answers [true] on a car
    that another client drives, and writes nothing when the caller is the
    driver. *)
Lemma C4_counterexample :
  let ls := {| name := "Ann"; x := 0; z := 0; yaw := 0; health := 100;
               wanted := 0; ammo := 30; inCar := true |} in
  let c := setWriteErr "Car write"
             {| code := Some "resource-exhausted"; message := None |}
             (enterRoom "p-ann" ls) in
  let taken : store := {[ "car-1" := {[ "driverId" := VStr "p-bob" ]} ]} in
  let mine : store := {[ "car-1" := {[ "driverId" := VStr "p-ann" ]} ]} in
  let patch : fields := {[ "x" := VNum 12 ]} in
  leaveCar "car-1" (Some patch) (TxCommits 2000 2000) c taken
  = (Resolved true, c, taken) /\
  leaveCar "car-1" (Some patch) (TxCommits 2000 2000) c mine
  = (Resolved true, c, mine).
Proof. split; reflexivity. Qed.

(** C4, amended: as long as the client's writes are not suspended and the
    transaction commits, [leaveCar] answers [false] and writes nothing,
    leaving the whole store as it is, when the car's document records a
    truthy driver other than the caller; otherwise it answers [true] and the
    one write of the transaction sets [driverId] and [driverName] to [null]
    and [updatedAt] to the server's time, gives every other field of the
    patch its value from the patch, keeps the fields the patch does not name
    and leaves the other documents alone. *)
Theorem C4_leaveCar_decision
    (carId : string) (patch : option fields) (now srv : Z) (c : Client)
    (st : store) :
  quotaBlocked c = false ->
  let '(r, c', st') := leaveCar carId patch (TxCommits now srv) c st in
  c' = c /\
  ((exists d drv,
      st !! carId = Some d /\ d !! "driverId" = Some drv /\
      truthy (Some drv) = true /\ drv <> VStr (clientId c)) ->
   r = Resolved false /\ st' = st) /\
  (~ (exists d drv,
      st !! carId = Some d /\ d !! "driverId" = Some drv /\
      truthy (Some drv) = true /\ drv <> VStr (clientId c)) ->
   r = Resolved true /\
   (exists d',
      st' !! carId = Some d' /\
      d' !! "driverId" = Some VNull /\
      d' !! "driverName" = Some VNull /\
      d' !! "updatedAt" = Some (VTime srv) /\
      forall k, k <> "driverId" -> k <> "driverName" -> k <> "updatedAt" ->
        d' !! k = match default ∅ patch !! k with
                  | Some v => Some v
                  | None => default ∅ (st !! carId) !! k
                  end) /\
   forall other, other <> carId -> st' !! other = st !! other).
Proof.
  intros Hq. unfold leaveCar. rewrite Hq.
  destruct (truthy (driverOf (st !! carId))
            && differsFrom (driverOf (st !! carId)) (clientId c)) eqn:E.
  - split; [reflexivity|]. split; [by intros _|].
    intros Hno. exfalso. apply Hno.
    apply andb_true_iff in E. destruct E as [Ht Hd].
    destruct (st !! carId) as [d|]; [|discriminate]. simpl in Ht, Hd.
    destruct (d !! "driverId") as [drv|] eqn:Ed; [|discriminate].
    exists d, drv. repeat split; try assumption.
    intros ->. simpl in Hd. rewrite String.eqb_refl in Hd. discriminate.
  - split; [reflexivity|]. split.
    + intros (d & drv & Hd & Hdrv & Ht & Hne). exfalso.
      rewrite Hd in E. simpl in E. rewrite Hdrv in E.
      rewrite Ht in E. simpl in E.
      destruct drv; try discriminate.
      destruct (String.eqb s (clientId c)) eqn:Es; [|discriminate].
      apply String.eqb_eq in Es. congruence.
    + intros _. split; [reflexivity|]. split.
      * eexists. split; [apply setMerge_same|].
        repeat split.
        -- apply lookup_union_Some_l. by simplify_map_eq.
        -- apply lookup_union_Some_l. by simplify_map_eq.
        -- apply lookup_union_Some_l. by simplify_map_eq.
        -- intros k H1 H2 H3.
           destruct (default ∅ patch !! k) as [v|] eqn:Ek.
           ++ apply lookup_union_Some_l. by simplify_map_eq.
           ++ apply lookup_union_r. by simplify_map_eq.
      * intros other Ho. by apply setMerge_other.
Qed.


(** C1 as stated fails: of two clients that ask for the free car at the same
    time, the one in quota backoff is told [true] without asking the store,
    and the other one wins the transaction. *)
Lemma C1_counterexample :
  let ls := {| name := "Ann"; x := 0; z := 0; yaw := 0; health := 100;
               wanted := 0; ammo := 30; inCar := false |} in
  let ann := enterRoom "p-ann" ls in
  let bob := setWriteErr "Player write"
               {| code := Some "resource-exhausted"; message := None |}
               (enterRoom "p-bob" ls) in
  fst (acquireAll "car-1"
         [(ann, TxCommits 1000 1000); (bob, TxCommits 1001 1001)] ∅)
  = [Resolved true; Resolved true].
Proof. reflexivity. Qed.

(** A driver whose last update is 15000 ms old on the caller's clock is
    replaced: the staleness rule, not the quota, lets the second call in. *)
Lemma stale_driver_is_replaced :
  let ls := {| name := "Ann"; x := 0; z := 0; yaw := 0; health := 100;
               wanted := 0; ammo := 30; inCar := false |} in
  fst (acquireAll "car-1"
         [(enterRoom "p-ann" ls, TxCommits 1000 1000);
          (enterRoom "p-bob" ls, TxCommits 16000 16000)] ∅)
  = [Resolved true; Resolved true].
Proof. reflexivity. Qed.

(** The scenario of the specification: Ann takes car-1, Bob is refused, Ann
    leaves the car at its resting place, Bob takes it. *)
Example acquire_release_scenario :
  let ls := {| name := "Ann"; x := 0; z := 0; yaw := 0; health := 100;
               wanted := 0; ammo := 30; inCar := false |} in
  let ann := enterRoom "p-ann" ls in
  let bob := render {| name := "Bob"; x := 1; z := 1; yaw := 0; health := 80;
                       wanted := 2; ammo := 12; inCar := false |}
               (enterRoom "p-bob" ls) in
  let rest : fields := {[ "x" := VNum 12; "z" := VNum (-3) ]} in
  let '(r1, _, st1) := tryEnterCar "car-1" (TxCommits 1000 1001) ann ∅ in
  let '(r2, _, st2) := tryEnterCar "car-1" (TxCommits 1002 1003) bob st1 in
  let '(r3, _, st3) :=
    leaveCar "car-1" (Some rest) (TxCommits 5000 5001) ann st2 in
  let '(r4, _, st4) := tryEnterCar "car-1" (TxCommits 5002 5003) bob st3 in
  (r1, r2, r3, r4)
  = (Resolved true, Resolved false, Resolved true, Resolved true) /\
  st4 !! "car-1"
  = Some {[ "driverId" := VStr "p-bob"; "driverName" := VStr "Bob";
            "updatedAt" := VTime 5003; "x" := VNum 12; "z" := VNum (-3) ]}.
Proof. split; reflexivity. Qed.

Lemma truthy_nonempty (s : string) : s <> "" -> truthy (Some (VStr s)) = true.
Proof. intros H. destruct s; [congruence|reflexivity]. Qed.

(** Once [winner] sits in the car, the calls of other clients that read
    their clock less than [STALE_MS] after the winner's write are refused and
    change nothing. *)
Lemma acquireAll_refused
    (carId wid : string) (t : Z) (d : fields)
    (rest : list (Client * Z * Z)) (st : store) :
  st !! carId = Some d ->
  d !! "driverId" = Some (VStr wid) -> wid <> "" ->
  d !! "updatedAt" = Some (VTime t) ->
  Forall (fun k : Client * Z * Z =>
            quotaBlocked k.1.1 = false /\ clientId k.1.1 <> wid /\
            (k.1.2 - t < STALE_MS)%Z) rest ->
  acquireAll carId
    (map (fun k : Client * Z * Z => (k.1.1, TxCommits k.1.2 k.2)) rest) st
  = (map (fun _ => Resolved false) rest, st).
Proof.
  intros Hd Hdrv Hw Ht. induction 1 as [|[[c now] srv] rest Hk _ IH];
    [reflexivity|].
  simpl in Hk. destruct Hk as (Hq & Hne & Hfresh). simpl.
  unfold tryEnterCar. rewrite Hq.
  assert (occupiedByOther (clientId c) (st !! carId) now = true) as ->.
  { apply occupiedByOther_spec. exists d, (VStr wid).
    rewrite Hd. simpl. rewrite Ht.
    repeat split; try assumption.
    - by apply truthy_nonempty.
    - congruence.
    - by right. }
  rewrite IH. reflexivity.
Qed.

(** C1, amended: let N >= 1 clients, none of them in quota backoff, with
    non-empty and pairwise distinct [clientId]s, call [tryEnterCar] on a car
    without a driver, let all the transactions commit, whatever the order the
    store gives them, and let every client read its clock less than 15000 ms
    after the server time of any of the commits.  Then the call the store
    takes first answers [true], all the others answer [false], and the car's
    driver is the first caller. *)
Theorem C1_one_winner
    (carId : string) (first : Client * Z * Z)
    (rest : list (Client * Z * Z)) (st : store) :
  let calls := first :: rest in
  truthy (driverOf (st !! carId)) = false ->
  Forall (fun k : Client * Z * Z =>
            quotaBlocked k.1.1 = false /\ clientId k.1.1 <> "") calls ->
  NoDup (map (fun k : Client * Z * Z => clientId k.1.1) calls) ->
  (forall k k' : Client * Z * Z,
      k ∈ calls -> k' ∈ calls -> (k.1.2 - k'.2 < 15000)%Z) ->
  let '(rs, st') :=
    acquireAll carId
      (map (fun k : Client * Z * Z => (k.1.1, TxCommits k.1.2 k.2)) calls)
      st in
  rs = Resolved true :: map (fun _ => Resolved false) rest /\
  driverOf (st' !! carId) = Some (VStr (clientId first.1.1)).
Proof.
  intros calls Hfree Hall Hnd Hclock. subst calls.
  destruct first as [[c now] srv]. simpl in *.
  apply Forall_cons in Hall. destruct Hall as [[Hq Hid] Hrest].
  simpl in Hq, Hid.
  apply NoDup_cons in Hnd. destruct Hnd as [Hnotin _].
  unfold tryEnterCar. rewrite Hq.
  assert (occupiedByOther (clientId c) (st !! carId) now = false) as ->.
  { unfold occupiedByOther. by rewrite Hfree. }
  set (st1 := setMerge carId _ srv st).
  assert (st1 !! carId
          = Some (<["updatedAt" := VTime srv]>
                    (<["driverName" := VStr (safeName c)]>
                       (<["driverId" := VStr (clientId c)]> ∅))
                  ∪ default ∅ (st !! carId))) as Hst1
    by apply setMerge_same.
  rewrite (acquireAll_refused carId (clientId c) srv _ rest st1 Hst1).
  - split; [reflexivity|]. rewrite Hst1. simpl.
    apply lookup_union_Some_l. by simplify_map_eq.
  - apply lookup_union_Some_l. by simplify_map_eq.
  - assumption.
  - apply lookup_union_Some_l. by simplify_map_eq.
  - apply Forall_forall. intros k Hk.
    rewrite Forall_forall in Hrest. destruct (Hrest k Hk) as [Hkq _].
    repeat split; [assumption| |].
    + intros Heq. apply Hnotin. rewrite <- Heq.
      apply list_elem_of_fmap. by exists k.
    + apply (Hclock k (c, now, srv)); [by right|by left].
Qed.


End SeatFacts.

(** ** Publishing *)

Section PublishFacts.

Import JS Net.
Local Open Scope Q_scope.

Lemma trunc_comp (a b : Q) : a == b -> trunc a = trunc b.
Proof.
  intros H. unfold trunc.
  assert (Qltb a 0 = Qltb b 0) as ->.
  { destruct (Qltb b 0) eqn:E.
    - apply Qltb_lt. apply Qltb_lt in E. lra.
    - apply Qltb_ge. apply Qltb_ge in E. lra. }
  rewrite (Qceiling_comp _ _ H), (Qfloor_comp _ _ H). reflexivity.
Qed.

(** A heading compared with itself: [yawDiff] is 0. *)
Lemma yawDelta_same (a : Q) : yawDelta a a == 0.
Proof.
  unfold yawDelta, fmod.
  assert (trunc ((a - a + PI * 3) / (PI * 2)) = 1%Z) as ->.
  { rewrite (trunc_comp _ (3 # 2)); [reflexivity|].
    assert (a - a + PI * 3 == PI * 3) as -> by ring.
    reflexivity. }
  assert (a - a + PI * 3 - PI * 2 * inject_Z 1 - PI == 0) as -> by ring.
  reflexivity.
Qed.

Lemma hypotGt_same (a b t : Q) : hypotGt (a - a) (b - b) t = false.
Proof.
  unfold hypotGt. apply Qltb_ge.
  assert ((a - a) * (a - a) + (b - b) * (b - b) == 0) as -> by ring.
  nra.
Qed.

Lemma Qeq_bool_same (a : Q) : Qeq_bool a a = true.
Proof. apply Qeq_bool_iff. reflexivity. Qed.

(** The three tiers. *)
Lemma playerGap_tiers (c : Client) :
  playerGap c = PLAYER_HEARTBEAT_MS \/ playerGap c = PLAYER_SYNC_FAST_MS \/
  playerGap c = PLAYER_SYNC_NORMAL_MS.
Proof.
  unfold playerGap.
  destruct (negb _); [by left|]. destruct (_ || _)%bool; auto.
Qed.

Lemma carGap_tiers (patch : fields) (prev : option fields) :
  carGap patch prev = CAR_HEARTBEAT_MS \/ carGap patch prev = CAR_SYNC_FAST_MS \/
  carGap patch prev = CAR_SYNC_NORMAL_MS.
Proof.
  unfold carGap.
  destruct (negb _); [by left|]. destruct (_ || _)%bool; auto.
Qed.

(** Nothing changed since the acknowledged payload: the heartbeat gap. *)
Lemma playerGap_unchanged (c : Client) :
  lastPlayerPayload c = Some (playerPayload c) ->
  playerGap c = PLAYER_HEARTBEAT_MS.
Proof.
  intros H. unfold playerGap. rewrite H. unfold playerPayload. cbn [x z yaw health wanted ammo inCar name].
  rewrite hypotGt_same.
  assert (Qltb 0.06 (yawDelta (yaw (localState c)) (yaw (localState c)))
          = false) as ->.
  { apply Qltb_ge. rewrite yawDelta_same. discriminate. }
  rewrite !Qeq_bool_same, Bool.eqb_reflx, String.eqb_refl. reflexivity.
Qed.

Lemma pushCarState_issue (carId : string) (patch : fields) (now : Z)
    (c c' : Client) (w : CarWrite) :
  pushCarState carId patch now c = (c', Some w) ->
  cw_id w = carId /\ cw_now w = now /\ cw_patch w = patch /\
  (carGap patch (lastCarPayload c !! carId)
   <= now - default 0 (lastCarSent c !! carId))%Z /\
  lastCarSent c' = <[carId := now]> (lastCarSent c) /\
  lastCarPayload c' = <[carId := patch]> (lastCarPayload c).
Proof.
  unfold pushCarState. destruct (quotaBlocked c); [discriminate|].
  destruct (_ <? _)%Z eqn:E; [discriminate|].
  intros [= <- <-]. apply Z.ltb_ge in E. by repeat split.
Qed.

Lemma pushCarState_skip (carId : string) (patch : fields) (now : Z)
    (c c' : Client) :
  pushCarState carId patch now c = (c', None) -> c' = c.
Proof.
  unfold pushCarState. destruct (quotaBlocked c); [congruence|].
  destruct (_ <? _)%Z; [congruence|discriminate].
Qed.

Lemma setWriteErr_refs (label : string) (err : Err) (c : Client) :
  lastSent (setWriteErr label err c) = lastSent c /\
  lastCarSent (setWriteErr label err c) = lastCarSent c /\
  lastCarPayload (setWriteErr label err c) = lastCarPayload c.
Proof. unfold setWriteErr. by destruct (isQuotaError err). Qed.

(** Car writes are spaced along any trace, from any state of the hook. *)
Lemma run_carSpaced (carId : string) (es : list Event) :
  forall c : Client,
    carSpaced carId (default 0%Z (lastCarSent c !! carId))
      (lastCarPayload c !! carId) (snd (run es c)).
Proof.
  induction es as [|e es IH]; intros c; [exact I|].
  simpl. destruct e as [ls now|w|label err|cid patch now|]; simpl.
  - specialize (IH (render ls c)).
    destruct (run es (render ls c)) as [c2 out2].
    destruct (playerPublish now (render ls c)); exact IH.
  - specialize (IH (playerWritten w c)).
    destruct (run es (playerWritten w c)) as [c2 out2]. exact IH.
  - specialize (IH (setWriteErr label err c)).
    destruct (setWriteErr_refs label err c) as (_ & E1 & E2).
    rewrite E1, E2 in IH.
    destruct (run es (setWriteErr label err c)) as [c2 out2]. exact IH.
  - destruct (pushCarState cid patch now c) as [c1 [w|]] eqn:E.
    + apply pushCarState_issue in E.
      destruct E as (Hid & Hnow & Hpatch & Hgap & Hs & Hp).
      specialize (IH c1). rewrite Hs, Hp in IH.
      destruct (run es c1) as [c2 out2]. simpl.
      rewrite Hid, Hnow, Hpatch.
      destruct (String.eqb cid carId) eqn:Eid.
      * apply String.eqb_eq in Eid. rewrite Eid in IH, Hgap.
        rewrite !lookup_insert_eq in IH. by split.
      * apply String.eqb_neq in Eid.
        by rewrite !lookup_insert_ne in IH.
    + apply pushCarState_skip in E. subst c1. specialize (IH c).
      destruct (run es c) as [c2 out2]. exact IH.
  - specialize (IH (quotaTimerFires c)).
    destruct (run es (quotaTimerFires c)) as [c2 out2]. exact IH.
Qed.

(** [lastSentRef] holds the issue time of the last acknowledged write. *)
Lemma run_lastSent (es : list Event) :
  forall c : Client, lastSent (fst (run es c)) = lastAcked es (lastSent c).
Proof.
  induction es as [|e es IH]; intros c; [reflexivity|].
  simpl. destruct e as [ls now|w|label err|cid patch now|]; simpl.
  - specialize (IH (render ls c)).
    destruct (run es (render ls c)) as [c2 out2]. exact IH.
  - specialize (IH (playerWritten w c)).
    destruct (run es (playerWritten w c)) as [c2 out2]. exact IH.
  - specialize (IH (setWriteErr label err c)).
    destruct (setWriteErr_refs label err c) as (E0 & _ & _).
    rewrite E0 in IH.
    destruct (run es (setWriteErr label err c)) as [c2 out2]. exact IH.
  - destruct (pushCarState cid patch now c) as [c1 [w|]] eqn:E.
    + specialize (IH c1).
      assert (lastSent c1 = lastSent c) as Hs.
      { unfold pushCarState in E. destruct (quotaBlocked c); [congruence|].
        destruct (_ <? _)%Z; [congruence|]. by injection E as <- _. }
      rewrite Hs in IH. destruct (run es c1) as [c2 out2]. exact IH.
    + apply pushCarState_skip in E. subst c1. specialize (IH c).
      destruct (run es c) as [c2 out2]. exact IH.
  - specialize (IH (quotaTimerFires c)).
    destruct (run es (quotaTimerFires c)) as [c2 out2]. exact IH.
Qed.

Lemma render_same (c : Client) : render (localState c) c = c.
Proof. by destruct c. Qed.

(** Unchanged state, less than a heartbeat after the acknowledged write:
    nothing is sent, however often the effect runs. *)
Lemma run_heartbeat_window (nows : list Z) (c : Client) :
  lastPlayerPayload c = Some (playerPayload c) ->
  Forall (fun now => (now - lastSent c < PLAYER_HEARTBEAT_MS)%Z) nows ->
  run (map (PlayerEffect (localState c)) nows) c = (c, []).
Proof.
  intros Hp. induction 1 as [|now nows Hnow _ IH]; [reflexivity|].
  simpl. rewrite render_same. unfold playerPublish.
  rewrite (playerGap_unchanged c Hp).
  apply Z.ltb_lt in Hnow. rewrite Hnow.
  destruct (quotaBlocked c); by rewrite IH.
Qed.

(** The gap of the player effect, case by case: 140 ms before anything was
    acknowledged; then 2500 ms when nothing changed against the acknowledged
    payload, 140 ms when something changed and the player sits in a car or
    moved by more than 0.7 or turned by more than 0.3, and 260 ms when
    something changed otherwise. *)
Lemma playerGap_decision (c : Client) :
  match lastPlayerPayload c with
  | None => playerGap c = 140%Z
  | Some p =>
      let ls := localState c in
      let d2 :=
        (x ls - x p) * (x ls - x p) + (z ls - z p) * (z ls - z p) in
      let yd := yawDelta (yaw ls) (yaw p) in
      let same :=
        d2 <= 0.08 * 0.08 /\ yd <= 0.06 /\ health ls == health p /\
        wanted ls == wanted p /\ ammo ls == ammo p /\
        inCar ls = inCar p /\ safeName c = name p in
      let fast := inCar ls = true \/ 0.7 * 0.7 < d2 \/ 0.3 < yd in
      (same -> playerGap c = 2500%Z) /\
      (~ same -> fast -> playerGap c = 140%Z) /\
      (~ same -> ~ fast -> playerGap c = 260%Z)
  end.
Proof.
  destruct (lastPlayerPayload c) as [p|] eqn:Ep.
  2:{ unfold playerGap. rewrite Ep.
      change (Qltb 0.08 999) with true. change (Qltb 0.7 999) with true.
      cbn [orb negb]. by rewrite orb_true_r. }
  intros ls d2 yd same fast. unfold playerGap. rewrite Ep. cbv zeta. fold ls.
  set (changed := (_ || _ || _ || _ || _ || _ || _)%bool).
  set (quick := (inCar ls || _ || _)%bool).
  assert (changed = false <-> same) as Hsame.
  { subst changed same. unfold hypotGt.
    rewrite !orb_false_iff, !negb_false_iff, !Qltb_ge, !Qeq_bool_iff,
      Bool.eqb_true_iff, String.eqb_eq. fold d2 yd. tauto. }
  assert (quick = true <-> fast) as Hfast.
  { subst quick fast. unfold hypotGt.
    rewrite !orb_true_iff, !Qltb_lt. fold d2 yd. tauto. }
  destruct changed, quick; cbn [negb];
    repeat split; intros; try reflexivity; exfalso;
    intuition discriminate.
Qed.

(** The gap of [pushCarState], case by case: 90 ms for the first patch of a
    car; then 1000 ms when the patch does not differ from the one sent
    before, 90 ms when it differs and the car is faster than 6 or moved by
    more than 0.8 or turned by more than 0.35, and 180 ms when it differs
    otherwise. *)
Lemma carGap_decision (patch : fields) (prev : option fields) :
  match prev with
  | None => carGap patch prev = 90%Z
  | Some p =>
      let d2 :=
        (numOr0 patch "x" - numOr0 p "x") * (numOr0 patch "x" - numOr0 p "x")
        + (numOr0 patch "z" - numOr0 p "z")
          * (numOr0 patch "z" - numOr0 p "z") in
      let yd := yawDelta (numOr0 patch "yaw") (numOr0 p "yaw") in
      let same :=
        d2 <= 0.1 * 0.1 /\ yd <= 0.08 /\
        Qabs (numOr0 patch "speed" - numOr0 p "speed") <= 0.5 /\
        numOr0 patch "gear" == numOr0 p "gear" /\
        truthy (patch !! "headlightsOn") = truthy (p !! "headlightsOn") in
      let fast :=
        6 < Qabs (numOr0 patch "speed") \/ 0.8 * 0.8 < d2 \/ 0.35 < yd in
      (same -> carGap patch prev = 1000%Z) /\
      (~ same -> fast -> carGap patch prev = 90%Z) /\
      (~ same -> ~ fast -> carGap patch prev = 180%Z)
  end.
Proof.
  destruct prev as [p|].
  2:{ unfold carGap.
      change (Qltb 0.1 999) with true. change (Qltb 0.8 999) with true.
      cbn [orb negb]. by rewrite orb_true_r. }
  intros d2 yd same fast. unfold carGap. cbv zeta.
  set (changed := (_ || _ || _ || _ || _)%bool).
  set (quick := (Qltb 6 _ || _ || _)%bool).
  assert (changed = false <-> same) as Hsame.
  { subst changed same. unfold hypotGt.
    rewrite !orb_false_iff, !negb_false_iff, !Qltb_ge, !Qeq_bool_iff,
      Bool.eqb_true_iff. fold d2 yd. tauto. }
  assert (quick = true <-> fast) as Hfast.
  { subst quick fast. unfold hypotGt.
    rewrite !orb_true_iff, !Qltb_lt. fold d2 yd. tauto. }
  destruct changed, quick; cbn [negb];
    repeat split; intros; try reflexivity; exfalso;
    intuition discriminate.
Qed.

(** A player write is issued only when the selected gap has passed since the
    issue time of the last write the server acknowledged. *)
Lemma playerPublish_since_ack (es : list Event) (ls : NetPlayerState)
    (now : Z) (c : Client) (w : PlayerWrite) :
  let c1 := render ls (fst (run es c)) in
  playerPublish now c1 = Some w ->
  pw_now w = now /\ (playerGap c1 <= now - lastAcked es (lastSent c))%Z.
Proof.
  intros c1 H. unfold playerPublish in H.
  destruct (quotaBlocked c1); [discriminate|].
  destruct (_ <? _)%Z eqn:E; [discriminate|].
  injection H as <-. apply Z.ltb_ge in E.
  split; [reflexivity|].
  subst c1. simpl in E. by rewrite run_lastSent in E.
Qed.

(** C9: the player effect does not keep the gap it selects.  [pushCarState]
    records the time of a write when it issues it, and so keeps every two
    writes for a car at least the selected gap apart.  The player effect
    records the time only in the [then] of the write, so it measures the gap
    from the last write the server has acknowledged: run again before the
    acknowledgement arrives, it sends again.  Here Ann's state is the one the
    server acknowledged at time 1000; the selected gap is the heartbeat's,
    2500 ms; the effect runs at 3500 and, a frame later, at 3516, and issues
    the same write twice, 16 ms apart.  The gaps are selected as the claim
    says, for the player and for a car. *)
Theorem C9_player_effect_resends_before_ack :
  (let ls := {| name := "Ann"; x := 3; z := 4; yaw := 1; health := 100;
                wanted := 0; ammo := 30; inCar := false |} in
   let c0 := enterRoom "p-ann" ls in
   let c := playerWritten {| pw_now := 1000; pw_payload := playerPayload c0 |}
              c0 in
   lastPlayerPayload c = Some (playerPayload c) /\ lastSent c = 1000%Z /\
   playerGap c = 2500%Z /\
   snd (run [PlayerEffect ls 3500; PlayerEffect ls 3516] c)
   = [IssuedPlayer {| pw_now := 3500; pw_payload := playerPayload c |};
      IssuedPlayer {| pw_now := 3516; pw_payload := playerPayload c |}] /\
   (3516 - 3500 < playerGap c)%Z) /\
  (forall (carId : string) (es : list Event) (c : Client),
      carSpaced carId (default 0%Z (lastCarSent c !! carId))
        (lastCarPayload c !! carId) (snd (run es c))) /\
  (forall (es : list Event) (ls : NetPlayerState) (now : Z) (c : Client)
          (w : PlayerWrite),
      let c1 := render ls (fst (run es c)) in
      playerPublish now c1 = Some w ->
      pw_now w = now /\
      (playerGap c1 <= now - lastAcked es (lastSent c))%Z) /\
  (forall c : Client,
      match lastPlayerPayload c with
      | None => playerGap c = 140%Z
      | Some p =>
          let ls := localState c in
          let d2 :=
            (x ls - x p) * (x ls - x p) + (z ls - z p) * (z ls - z p) in
          let yd := yawDelta (yaw ls) (yaw p) in
          let same :=
            d2 <= 0.08 * 0.08 /\ yd <= 0.06 /\ health ls == health p /\
            wanted ls == wanted p /\ ammo ls == ammo p /\
            inCar ls = inCar p /\ safeName c = name p in
          let fast := inCar ls = true \/ 0.7 * 0.7 < d2 \/ 0.3 < yd in
          (same -> playerGap c = 2500%Z) /\
          (~ same -> fast -> playerGap c = 140%Z) /\
          (~ same -> ~ fast -> playerGap c = 260%Z)
      end) /\
  (forall (patch : fields) (prev : option fields),
      match prev with
      | None => carGap patch prev = 90%Z
      | Some p =>
          let d2 :=
            (numOr0 patch "x" - numOr0 p "x")
            * (numOr0 patch "x" - numOr0 p "x")
            + (numOr0 patch "z" - numOr0 p "z")
              * (numOr0 patch "z" - numOr0 p "z") in
          let yd := yawDelta (numOr0 patch "yaw") (numOr0 p "yaw") in
          let same :=
            d2 <= 0.1 * 0.1 /\ yd <= 0.08 /\
            Qabs (numOr0 patch "speed" - numOr0 p "speed") <= 0.5 /\
            numOr0 patch "gear" == numOr0 p "gear" /\
            truthy (patch !! "headlightsOn") = truthy (p !! "headlightsOn") in
          let fast :=
            6 < Qabs (numOr0 patch "speed") \/ 0.8 * 0.8 < d2 \/ 0.35 < yd in
          (same -> carGap patch prev = 1000%Z) /\
          (~ same -> fast -> carGap patch prev = 90%Z) /\
          (~ same -> ~ fast -> carGap patch prev = 180%Z)
      end).
Proof.
  split; [vm_compute; by repeat split|].
  split; [exact run_carSpaced|].
  split; [exact playerPublish_since_ack|].
  split; [exact playerGap_decision|exact carGap_decision].
Qed.

End PublishFacts.

(** ** The chat feed *)

Section ChatFacts.

Import JS Net.
Local Open Scope Q_scope.

Lemma sliceLast_length {A : Type} (n : nat) (l : list A) :
  (length (sliceLast n l) <= n)%nat.
Proof. unfold sliceLast. rewrite length_skipn. lia. Qed.

Lemma sliceLast_suffix {A : Type} (n : nat) (l : list A) :
  l = firstn (length l - n) l ++ sliceLast n l.
Proof. unfold sliceLast. symmetry. apply firstn_skipn. Qed.

Lemma sliceLast_last {A : Type} (n : nat) (l : list A) (m : A) :
  (0 < n)%nat -> last (sliceLast n (l ++ [m])) = Some m.
Proof.
  intros Hn. unfold sliceLast. rewrite length_app. simpl.
  rewrite skipn_app.
  replace (length l + 1 - n - length l)%nat with 0%nat by lia.
  simpl. apply last_snoc.
Qed.

Lemma sliceLast_Forall {A : Type} (P : A -> Prop) (n : nat) (l : list A) :
  Forall P l -> Forall P (sliceLast n l).
Proof.
  intros H. rewrite (sliceLast_suffix n l) in H.
  by apply Forall_app in H as [_ H].
Qed.

Lemma appendAndTrim_objects (stored : list value) (o : list (string * value)) :
  Forall (fun m => isObject m = true) (appendAndTrim stored (VObj o)).
Proof.
  unfold appendAndTrim. apply sliceLast_Forall.
  apply Forall_app. split.
  - apply Forall_forall. intros m Hm.
    apply list_elem_of_filter in Hm as [Hm _].
    by destruct (isObject m).
  - by repeat constructor.
Qed.

Lemma messagesOf_stored (d : fields) (l : list value) :
  d !! "messages" = Some (VArr l) -> messagesOf (Some d) = l.
Proof. intros H. unfold messagesOf. by rewrite H. Qed.

(** What a committed [sendChatMessage] leaves in the feed document. *)
Lemma sendChatMessage_commit
    (text msgId : string) (now srv : Z) (c : Client) (st : store) :
  quotaBlocked c = false ->
  isEmpty (slice0 180 (trim text)) = false ->
  messagesOf
    (snd (sendChatMessage text msgId (TxCommits now srv) c st) !! "chat-feed")
  = appendAndTrim (messagesOf (st !! "chat-feed"))
      (newMessage msgId c (slice0 180 (trim text)) now).
Proof.
  intros Hq Hc. unfold sendChatMessage. rewrite Hq, Hc. cbn [snd].
  rewrite setMerge_same. apply messagesOf_stored.
  apply lookup_union_Some_l. by simplify_map_eq.
Qed.

Lemma sendChatMessage_bounded
    (text msgId : string) (env : TxEnv) (c : Client) (st : store) :
  let st' := snd (sendChatMessage text msgId env c st) in
  st' = st \/
  (length (messagesOf (st' !! "chat-feed")) <= CHAT_MAX_MESSAGES)%nat.
Proof.
  cbv zeta. destruct (quotaBlocked c) eqn:Hq.
  { left. unfold sendChatMessage. by rewrite Hq. }
  destruct (isEmpty (slice0 180 (trim text))) eqn:Hc.
  { left. unfold sendChatMessage. by rewrite Hq, Hc. }
  destruct env as [e|e|now srv].
  - left. unfold sendChatMessage. by rewrite Hq, Hc.
  - left. unfold sendChatMessage. by rewrite Hq, Hc.
  - right. rewrite sendChatMessage_commit by assumption.
    apply sliceLast_length.
Qed.

Lemma sendAll_bounded (calls : list (Client * string * string * TxEnv)) :
  forall st : store,
    (length (messagesOf (st !! "chat-feed")) <= CHAT_MAX_MESSAGES)%nat ->
    (length (messagesOf (sendAll calls st !! "chat-feed"))
     <= CHAT_MAX_MESSAGES)%nat.
Proof.
  induction calls as [|[[[c text] msgId] env] calls IH]; intros st H;
    [exact H|].
  simpl. apply IH.
  destruct (sendChatMessage_bounded text msgId env c st) as [E|E];
    [by rewrite E|exact E].
Qed.

Lemma insertByTime_perm (m : ChatMessage) (l : list ChatMessage) :
  Permutation (m :: l) (insertByTime m l).
Proof.
  induction l as [|y l IH]; simpl; [reflexivity|].
  destruct (Qle_bool _ _); [reflexivity|].
  rewrite perm_swap. by constructor.
Qed.

Lemma insertByTime_sorted (m : ChatMessage) (l : list ChatMessage) :
  StronglySorted olderOrSame l -> StronglySorted olderOrSame (insertByTime m l).
Proof.
  induction 1 as [|y l Hs IH Hy]; simpl.
  - by repeat constructor.
  - destruct (Qle_bool (createdAtMs m) (createdAtMs y)) eqn:E.
    + apply Qle_bool_iff in E. constructor; [by constructor|].
      constructor; [exact E|].
      eapply Forall_impl; [exact Hy|].
      intros z Hz. unfold olderOrSame in *. lra.
    + assert (createdAtMs y <= createdAtMs m) as Hle.
      { destruct (Qlt_le_dec (createdAtMs m) (createdAtMs y)) as [Hlt|Hge];
          [|exact Hge].
        exfalso. assert (Qle_bool (createdAtMs m) (createdAtMs y) = true)
          by (apply Qle_bool_iff; lra). congruence. }
      constructor; [exact IH|].
      eapply Permutation_Forall; [apply insertByTime_perm|].
      by constructor.
Qed.

Lemma sortByTime_sorted (l : list ChatMessage) :
  StronglySorted olderOrSame (sortByTime l).
Proof.
  induction l as [|m l IH]; simpl; [constructor|].
  by apply insertByTime_sorted.
Qed.

Lemma sortByTime_perm (l : list ChatMessage) : Permutation l (sortByTime l).
Proof.
  induction l as [|m l IH]; simpl; [reflexivity|].
  rewrite <- insertByTime_perm. by constructor.
Qed.

(** The listener does not throw on a feed that holds objects only. *)
Lemma chatRows_total (rnd : nat -> string) (source : list value) :
  Forall (fun m => isObject m = true) source ->
  forall i, is_Some (chatRows rnd i source).
Proof.
  induction 1 as [|item rest Hitem _ IH]; intros i; [by eexists|].
  simpl. destruct (IH (S i)) as [rows ->].
  destruct item; try discriminate; simpl; try by eexists.
  destruct (prop o "text") as [[| | |t| | |]|]; try by eexists.
  destruct (isEmpty (trim t)); by eexists.
Qed.

(** Forty-two messages in the feed and one more: the forty last are kept. *)
Example trim_to_forty :
  let old := map (fun i => VObj [("text", VStr "hi");
                                 ("createdAtMs", VNum (inject_Z (Z.of_nat i)))])
                 (seq 0 42) in
  let m := VObj [("text", VStr "new")] in
  length (appendAndTrim old m) = 40%nat /\
  appendAndTrim old m = skipn 3 old ++ [m].
Proof. split; reflexivity. Qed.

(** C8: a committed append of [sendChatMessage] stores the last 40 entries
    of the feed's objects followed by the new message: at most 40 messages,
    the new one last, whatever the length of the list it found; a call that
    appends nothing leaves the store as it is, so a feed of at most 40
    messages stays so through any sequence of calls.  The list the chat
    listener displays holds the rows it kept, in non-decreasing order of
    [createdAtMs], in whatever order the feed has them; and the listener does
    not throw on a feed written by [sendChatMessage]. *)
Theorem C8_chat_feed_bounded_and_sorted :
  (forall (text msgId : string) (now srv : Z) (c : Client) (st : store),
      quotaBlocked c = false ->
      isEmpty (slice0 180 (trim text)) = false ->
      let all :=
        filter isObject (messagesOf (st !! "chat-feed"))
        ++ [newMessage msgId c (slice0 180 (trim text)) now] in
      let next :=
        messagesOf
          (snd (sendChatMessage text msgId (TxCommits now srv) c st)
           !! "chat-feed") in
      (length next <= 40)%nat /\
      next = sliceLast 40 all /\
      all = firstn (length all - 40) all ++ next /\
      last next = Some (newMessage msgId c (slice0 180 (trim text)) now) /\
      forall rnd,
        is_Some
          (chatSnapshot rnd
             (snd (sendChatMessage text msgId (TxCommits now srv) c st)
              !! "chat-feed"))) /\
  (forall (text msgId : string) (env : TxEnv) (c : Client) (st : store),
      let st' := snd (sendChatMessage text msgId env c st) in
      st' = st \/ (length (messagesOf (st' !! "chat-feed")) <= 40)%nat) /\
  (forall (calls : list (Client * string * string * TxEnv)) (st : store),
      (length (messagesOf (st !! "chat-feed")) <= 40)%nat ->
      (length (messagesOf (sendAll calls st !! "chat-feed")) <= 40)%nat) /\
  (forall (rnd : nat -> string) (data : option fields)
          (rows : list ChatMessage),
      chatSnapshot rnd data = Some rows ->
      StronglySorted olderOrSame rows /\
      exists kept, chatRows rnd 0 (messagesOf data) = Some kept /\
                   Permutation kept rows).
Proof.
  split; [|split; [exact sendChatMessage_bounded|split; [exact sendAll_bounded|]]].
  - intros text msgId now srv c st Hq Hc all next. subst next.
    rewrite (sendChatMessage_commit _ _ _ _ _ _ Hq Hc).
    unfold appendAndTrim. fold all.
    split; [apply sliceLast_length|]. split; [reflexivity|].
    split; [apply sliceLast_suffix|].
    split; [subst all; apply sliceLast_last; unfold CHAT_MAX_MESSAGES; lia|].
    intros rnd. unfold chatSnapshot.
    rewrite (sendChatMessage_commit _ _ _ _ _ _ Hq Hc).
    destruct (chatRows_total rnd
                (appendAndTrim (messagesOf (st !! "chat-feed"))
                   (newMessage msgId c (slice0 180 (trim text)) now)))
      with (i := 0%nat) as [rows ->]; [|by eexists].
    apply appendAndTrim_objects.
  - intros rnd data rows H. unfold chatSnapshot in H.
    destruct (chatRows rnd 0 (messagesOf data)) as [kept|]; [|discriminate].
    injection H as <-. split; [apply sortByTime_sorted|].
    exists kept. split; [reflexivity|apply sortByTime_perm].
Qed.


End ChatFacts.

(** ** The theorems at work on concrete inputs *)

Section Instances.

Import JS Net.

(** Ann, Bob and Cat ask for the free car at the same time; the store takes
    Ann's transaction first. *)
Lemma C1_one_winner_witness :
  let ls := {| name := "Ann"; x := 0; z := 0; yaw := 0; health := 100;
               wanted := 0; ammo := 30; inCar := false |} in
  let ann := (enterRoom "p-ann" ls, 1000%Z, 1010%Z) in
  let bob := (enterRoom "p-bob" ls, 1005%Z, 1020%Z) in
  let cat := (enterRoom "p-cat" ls, 1002%Z, 1030%Z) in
  let '(rs, st') :=
    acquireAll "car-1"
      (map (fun k : Client * Z * Z => (k.1.1, TxCommits k.1.2 k.2))
           [ann; bob; cat]) ∅ in
  rs = [Resolved true; Resolved false; Resolved false] /\
  driverOf (st' !! "car-1") = Some (VStr "p-ann").
Proof.
  intros ls ann bob cat.
  apply (C1_one_winner "car-1" ann [bob; cat] ∅).
  - reflexivity.
  - repeat constructor; discriminate.
  - simpl. repeat (apply NoDup_cons_2; [set_unfold; intuition discriminate|]).
    apply NoDup_nil_2.
  - intros k k' Hk Hk'.
    repeat (apply elem_of_cons in Hk as [->|Hk]);
      repeat (apply elem_of_cons in Hk' as [->|Hk']);
      try (by apply elem_of_nil in Hk); try (by apply elem_of_nil in Hk');
      reflexivity.
Defined.

(** Bob drives, his last update is 500 ms old: Ann is refused. *)
Lemma C2_tryEnterCar_decision_witness :
  let ls := {| name := "Ann"; x := 0; z := 0; yaw := 0; health := 100;
               wanted := 0; ammo := 30; inCar := false |} in
  let c := enterRoom "p-ann" ls in
  let st : store :=
    {[ "car-1" := {[ "driverId" := VStr "p-bob";
                     "updatedAt" := VTime 1000000 ]} ]} in
  quotaBlocked c = false /\
  tryEnterCar "car-1" (TxCommits 1000500 1000600) c st
  = (Resolved false, c, st).
Proof.
  intros ls c st. split; [reflexivity|].
  pose proof (C2_tryEnterCar_decision "car-1" 1000500 1000600 c st eq_refl)
    as H.
  destruct (tryEnterCar "car-1" (TxCommits 1000500 1000600) c st)
    as [[r c'] st'].
  destruct H as (Hc & _ & Hiff & Hst & _).
  assert (r = Resolved false) as Hr.
  { apply Hiff. exists {[ "driverId" := VStr "p-bob";
                          "updatedAt" := VTime 1000000 ]}, (VStr "p-bob").
    repeat split; try reflexivity; try discriminate. by right. }
  by rewrite Hr, Hc, (Hst Hr).
Defined.

(** Ann, in quota backoff, asks for a car and leaves one. *)
Lemma C3_suspended_or_failed_calls_witness :
  let ls := {| name := "Ann"; x := 0; z := 0; yaw := 0; health := 100;
               wanted := 0; ammo := 30; inCar := false |} in
  let c := setWriteErr "Car write"
             {| code := Some "resource-exhausted"; message := None |}
             (enterRoom "p-ann" ls) in
  let e := {| code := Some "unavailable"; message := Some "offline" |} in
  quotaBlocked c = true /\
  tryEnterCar "car-1" (TxRejects e) c ∅ = (Resolved true, c, ∅) /\
  leaveCar "car-1" None (TxRejects e) c ∅ = (Resolved true, c, ∅).
Proof.
  intros ls c e. split; [reflexivity|].
  exact (proj1 (C3_suspended_or_failed_calls "car-1" None c ∅) eq_refl
           (TxRejects e)).
Defined.

(** Ann leaves the car that Bob has taken meanwhile. *)
Lemma C4_leaveCar_decision_witness :
  let ls := {| name := "Ann"; x := 0; z := 0; yaw := 0; health := 100;
               wanted := 0; ammo := 30; inCar := true |} in
  let c := enterRoom "p-ann" ls in
  let st : store := {[ "car-1" := {[ "driverId" := VStr "p-bob" ]} ]} in
  let patch : fields := {[ "x" := VNum 12 ]} in
  quotaBlocked c = false /\
  leaveCar "car-1" (Some patch) (TxCommits 2000 2000) c st
  = (Resolved false, c, st).
Proof.
  intros ls c st patch. split; [reflexivity|].
  pose proof (C4_leaveCar_decision "car-1" (Some patch) 2000 2000 c st eq_refl)
    as H.
  destruct (leaveCar "car-1" (Some patch) (TxCommits 2000 2000) c st)
    as [[r c'] st'].
  destruct H as (Hc & Hno & _).
  destruct Hno as [Hr Hst].
  { exists {[ "driverId" := VStr "p-bob" ]}, (VStr "p-bob").
    repeat split; try reflexivity. discriminate. }
  by rewrite Hr, Hc, Hst.
Defined.

(** A car left rolling at speed 20 towards a wall, heading 0 ([sin 0 = 0],
    [cos 0 = 1]): the frame pushes it out of the wall, the damage grows by
    0.22 and the speed is turned round and quartered. *)
Lemma C7_collision_damage_and_bounce_witness :
  let wall := {| Car.c_x := 0; Car.c_z := 10; Car.c_w := 10; Car.c_d := 4 |} in
  let s := {| Car.pos_x := 0; Car.pos_y := 0.75; Car.pos_z := 5;
              Car.yaw := 0; Car.speed := 20; Car.damage := 0;
              Car.gear := 3; Car.headlightsOn := true |} in
  let sin0 := fun _ : Q => 0%Q in
  let cos0 := fun _ : Q => 1%Q in
  let spd := Car.integrateSpeed false ∅ 0.016 s in
  let s' := fst (Car.frameLocal sin0 cos0 [wall] None World.bounds
                   false ∅ 0.016 s) in
  snd (Car.movePosition sin0 cos0 [wall] None World.bounds spd 0.016 s)
  = true /\
  (Car.damage s' == 0.22 /\ Car.speed s' == spd * -0.25 /\
   spd == 19.5845760)%Q.
Proof.
  intros wall s sin0 cos0 spd s'.
  assert (snd (Car.movePosition sin0 cos0 [wall] None World.bounds spd
                 0.016 s) = true) as Hc by reflexivity.
  split; [exact Hc|].
  pose proof (C7_collision_damage_and_bounce sin0 cos0 [wall] None World.bounds
                false ∅ 0.016%Q s Hc) as [(Hd & _ & _) [(_ & Hs & _) _]].
  fold s' spd in Hd, Hs.
  split; [|split].
  - rewrite Hd. reflexivity.
  - apply Hs. vm_compute. discriminate.
  - reflexivity.
Defined.

(** A message sent to a feed of forty-two. *)
Lemma C8_chat_feed_bounded_and_sorted_witness :
  let ls := {| name := " Ann "; x := 0; z := 0; yaw := 0; health := 100;
               wanted := 0; ammo := 30; inCar := false |} in
  let c := enterRoom "p-ann" ls in
  let old := map (fun i => VObj [("text", VStr "hi");
                                 ("createdAtMs", VNum (inject_Z (Z.of_nat i)))])
                 (seq 0 42) in
  let st : store := {[ "chat-feed" := {[ "messages" := VArr old ]} ]} in
  let next :=
    messagesOf
      (snd (sendChatMessage "  hello " "m-1" (TxCommits 5000 5001) c st)
       !! "chat-feed") in
  quotaBlocked c = false /\
  isEmpty (slice0 180 (trim "  hello ")) = false /\
  (length next <= 40)%nat /\
  last next = Some (newMessage "m-1" c "hello" 5000).
Proof.
  intros ls c old st next.
  split; [reflexivity|]. split; [reflexivity|].
  pose proof (proj1 C8_chat_feed_bounded_and_sorted "  hello " "m-1"
                5000%Z 5001%Z c st eq_refl eq_refl) as H.
  cbv zeta in H. destruct H as (Hlen & _ & _ & Hlast & _).
  split; [exact Hlen|exact Hlast].
Defined.

End Instances.

(** * The collision pass with rounded arithmetic *)

Section RoundedFacts.
Import JS Car Rounded.
Local Open Scope Q_scope.

Variable A : Arith.
Variables u R : Q.
Hypothesis A_accurate : accurate A u.

Lemma u_range : 0 <= u <= 1 # 16.
Proof. apply A_accurate. Qed.

Lemma fadd_err (a b : Q) : Qabs (fadd A a b - (a + b)) <= u * Qabs (a + b).
Proof. apply A_accurate. Qed.

Lemma fsub_err (a b : Q) : Qabs (fsub A a b - (a - b)) <= u * Qabs (a - b).
Proof. apply A_accurate. Qed.

Lemma fmul_sign (q : Q) : fmul A 1 q == q /\ fmul A (-1) q == - q.
Proof. apply A_accurate. Qed.

Lemma Qabs_either (e : Q) :
  (0 <= e /\ Qabs e == e) \/ (e < 0 /\ Qabs e == - e).
Proof.
  destruct (Qlt_le_dec e 0) as [H|H].
  - right. split; [exact H|]. apply Qabs_neg. lra.
  - left. split; [exact H|]. by apply Qabs_pos.
Qed.

Ltac cases_abs e :=
  let Hs := fresh "Hs" in
  let He := fresh "He" in
  destruct (Qabs_either e) as [[Hs He]|[Hs He]].

(** A value [r] computed with relative error [u] for the exact [e]. *)
Lemma approx_bounds (r e : Q) :
  Qabs (r - e) <= u * Qabs e ->
  (0 < e -> e - u * e <= r <= e + u * e /\ 0 < r) /\
  (e < 0 -> e + u * e <= r <= e - u * e /\ r < 0) /\
  (e == 0 -> r == 0).
Proof.
  pose proof u_range as Hu.
  intros H. apply Qabs_Qle_condition in H.
  cases_abs e; rewrite He in H; repeat split; intros; try lra; nra.
Qed.


Lemma push_sign_pos (a : Q) :
  0 < a -> Qeq_bool a 0 = false /\ sign a = 1.
Proof.
  intros H. split.
  - apply not_true_is_false. intros E. apply Qeq_bool_iff in E. lra.
  - unfold sign. assert (Qltb 0 a = true) as -> by (by apply Qltb_lt).
    reflexivity.
Qed.

Lemma push_sign_neg (a : Q) :
  a < 0 -> Qeq_bool a 0 = false /\ sign a = -1.
Proof.
  intros H. split.
  - apply not_true_is_false. intros E. apply Qeq_bool_iff in E. lra.
  - unfold sign. assert (Qltb 0 a = false) as -> by (apply Qltb_ge; lra).
    assert (Qltb a 0 = true) as -> by (by apply Qltb_lt). reflexivity.
Qed.

(** One push along an axis: the coordinate [x], inside the half width [hw]
    around [cx] by the rounded difference, lands within
    [u * (|cx| + 7 * hw)] of the edge. *)
Lemma push_axis (x cx hw : Q) :
  let dx := fsub A x cx in
  Qabs dx < hw ->
  let x' :=
    fadd A x (fmul A (if Qeq_bool dx 0 then 1 else sign dx)
                 (fsub A hw (Qabs dx))) in
  hw - u * (Qabs cx + 7 * hw) <= Qabs (x' - cx)
  <= hw + u * (Qabs cx + 7 * hw).
Proof.
  pose proof u_range as Hu.
  intros dx Hov x'.
  pose proof (approx_bounds dx (x - cx) (fsub_err x cx))
    as (Hpos & Hneg & Hzero).
  pose proof (approx_bounds (fsub A hw (Qabs dx)) (hw - Qabs dx)
                (fsub_err hw (Qabs dx))) as (Hpen & _ & _).
  assert (0 < hw - Qabs dx) as Hgap by lra.
  destruct (Hpen Hgap) as [Hp Hp0]. clear Hpen.
  set (P := fsub A hw (Qabs dx)) in *.
  set (a := x - cx) in *.
  assert (0 <= Qabs cx /\ - Qabs cx <= cx <= Qabs cx) as [HC0 HC].
  { split; [apply Qabs_nonneg|]. apply Qabs_Qle_condition. lra. }
  set (C := Qabs cx) in *.
  assert (0 < hw) as Hhw by (pose proof (Qabs_nonneg dx); lra).
  assert (forall s : Q, (s == 1 \/ s == -1) ->
            (if Qeq_bool dx 0 then 1 else sign dx) = s ->
            fmul A s P == s * P ->
            s * a == Qabs a -> s * dx == Qabs dx ->
            hw - u * (C + 7 * hw) <= Qabs (x' - cx)
            <= hw + u * (C + 7 * hw)) as Hmain.
  { intros s Hs Hsel Hmul Ha Hd. subst x'. rewrite Hsel.
    pose proof (fadd_err x (fmul A s P)) as H3.
    set (x' := fadd A x (fmul A s P)) in *.
    set (E := x + fmul A s P) in *.
    assert (E == x + s * P) as HE by (subst E; rewrite Hmul; reflexivity).
    assert (0 <= Qabs a) as HA0 by apply Qabs_nonneg.
    assert (0 <= Qabs dx) as HD0 by apply Qabs_nonneg.
    set (Na := Qabs a) in *. set (Nd := Qabs dx) in *.
    (* |dx - a| <= u |a| *)
    pose proof (fsub_err x cx) as H1. fold dx a Na in H1.
    apply Qabs_Qle_condition in H1.
    assert (Na - u * Na <= Nd <= Na + u * Na) as HDA.
    { destruct Hs as [Hs|Hs]; rewrite Hs in Ha, Hd; nra. }
    assert (Na <= 2 * hw) as HA by nra.
    assert (u * Na <= 2 * u * hw) as HuA by nra.
    assert (P <= 2 * hw) as HP by nra.
    assert (u * (hw - Nd) <= u * hw) as HuP by nra.
    assert (Qabs E <= C + 4 * hw) as HabsE.
    { apply Qabs_Qle_condition. fold a in HE.
      assert (x == cx + a) as Hx by (subst a; ring).
      destruct Hs as [Hs|Hs]; rewrite Hs in *; split; nra. }
    assert (u * Qabs E <= u * (C + 4 * hw)) as HuE by nra.
    apply Qabs_Qle_condition in H3.
    assert (- (u * (C + 7 * hw)) <= s * (x' - cx) - hw <= u * (C + 7 * hw))
      as Herr.
    { assert (x == cx + a) as Hx by (subst a; ring).
      assert (s * s == 1) as Hss by (destruct Hs as [Hs|Hs]; rewrite Hs; ring).
      assert (s * (x' - cx) - hw
              == s * (x' - E) + (s * a - Nd) + (P - (hw - Nd))) as ->.
      { rewrite HE, Hx.
        assert (s * (x' - (cx + a + s * P)) + (s * a - Nd) + (P - (hw - Nd))
                == s * (x' - cx) - hw + (1 - s * s) * P) as -> by ring.
        rewrite Hss. ring. }
      assert (- (u * Na) <= s * a - Nd <= u * Na) as H1'.
      { destruct Hs as [Hs|Hs]; rewrite Hs in *; nra. }
      assert (- (u * Qabs E) <= s * (x' - E) <= u * Qabs E) as H3'.
      { destruct Hs as [Hs|Hs]; rewrite Hs; split; nra. }
      split; nra. }
    assert (Qabs (x' - cx) == Qabs (s * (x' - cx))) as ->.
    { rewrite Qabs_Qmult.
      destruct Hs as [Hs|Hs]; rewrite Hs; [change (Qabs 1) with 1|
        change (Qabs (-1)) with 1]; ring. }
    cases_abs (s * (x' - cx)); rewrite He; split; nra. }
  destruct (Qlt_le_dec 0 a) as [Ha|Ha];
    [|destruct (Qlt_le_dec a 0) as [Ha'|Ha']].
  - destruct (Hpos Ha) as [_ Hd]. destruct (push_sign_pos dx Hd) as [E1 E2].
    apply (Hmain 1); [by left|by rewrite E1, E2| | |].
    + rewrite (proj1 (fmul_sign P)). ring.
    + rewrite Qabs_pos by lra. ring.
    + rewrite Qabs_pos by lra. ring.
  - destruct (Hneg Ha') as [_ Hd]. destruct (push_sign_neg dx Hd) as [E1 E2].
    apply (Hmain (-1)); [by right|by rewrite E1, E2| | |].
    + rewrite (proj2 (fmul_sign P)). ring.
    + rewrite Qabs_neg by lra. ring.
    + rewrite Qabs_neg by lra. ring.
  - assert (a == 0) as Ha0 by lra. pose proof (Hzero Ha0) as Hd.
    assert (Qeq_bool dx 0 = true) as E1 by (by apply Qeq_bool_iff).
    apply (Hmain 1); [by left|by rewrite E1| | |].
    + rewrite (proj1 (fmul_sign P)). ring.
    + rewrite Qabs_pos by lra. ring.
    + rewrite Qabs_pos by lra. ring.
Qed.


(** A coordinate the rounded test finds inside is inside by at most the
    rounding of the difference. *)
Lemma held_axis (z cz hd : Q) :
  Qabs (fsub A z cz) < hd -> Qabs (z - cz) < hd + 2 * u * hd.
Proof.
  pose proof u_range as Hu.
  intros H. pose proof (fsub_err z cz) as H1.
  apply Qabs_Qle_condition in H1.
  pose proof (Qabs_nonneg (fsub A z cz)).
  cases_abs (z - cz); rewrite He in *; cases_abs (fsub A z cz);
    rewrite He0 in *; nra.
Qed.

(** A coordinate the rounded test finds outside is outside, or inside by at
    most the rounding of the difference. *)
Lemma miss_axis (x cx hw : Q) :
  0 <= hw -> hw <= Qabs (fsub A x cx) -> hw - u * hw <= Qabs (x - cx).
Proof.
  pose proof u_range as Hu.
  intros H0 H. pose proof (fsub_err x cx) as H1.
  apply Qabs_Qle_condition in H1.
  cases_abs (x - cx); rewrite He in *; cases_abs (fsub A x cx);
    rewrite He0 in *; nra.
Qed.

Lemma overlapsR_true (c : Collider) (x z : Q) :
  overlaps A c x z = true <->
  Qabs (fsub A x (c_x c)) < halfW A c /\ Qabs (fsub A z (c_z c)) < halfD A c.
Proof.
  unfold Rounded.overlaps. rewrite andb_true_iff, !Qltb_lt. reflexivity.
Qed.

Lemma overlapsR_false (c : Collider) (x z : Q) :
  overlaps A c x z = false <->
  halfW A c <= Qabs (fsub A x (c_x c)) \/ halfD A c <= Qabs (fsub A z (c_z c)).
Proof.
  unfold Rounded.overlaps. rewrite andb_false_iff, !Qltb_ge. reflexivity.
Qed.

Lemma within_R (c : Collider) : within A R c -> 0 <= R /\ 0 <= (tol u R).
Proof.
  pose proof u_range as Hu.
  intros (H & _). pose proof (Qabs_nonneg (c_x c)).
  assert (0 <= R) by lra. split; [assumption|]. unfold tol. nra.
Qed.

(** What the rounded test finds outside a footprint is not deep in it. *)
Lemma miss_not_deep (c : Collider) (x z : Q) :
  within A R c -> overlaps A c x z = false -> ~ deepIn A (tol u R) c x z.
Proof.
  pose proof u_range as Hu.
  intros Hw Hm [Dx Dz]. destruct (within_R c Hw) as [HR Ht].
  destruct Hw as (_ & _ & Hw & Hd). unfold tol in *.
  apply overlapsR_false in Hm as [Hm|Hm].
  - destruct (Qlt_le_dec (halfW A c) 0) as [Hn|Hp].
    + pose proof (Qabs_nonneg (x - c_x c)). lra.
    + pose proof (miss_axis x (c_x c) (halfW A c) Hp Hm). nra.
  - destruct (Qlt_le_dec (halfD A c) 0) as [Hn|Hp].
    + pose proof (Qabs_nonneg (z - c_z c)). lra.
    + pose proof (miss_axis z (c_z c) (halfD A c) Hp Hm). nra.
Qed.

(** A push leaves the position within [(tol u R)] of the edge it was pushed to,
    and within [(tol u R)] of the footprint on the other axis. *)
Lemma resolveCollision_near (c : Collider) (x z : Q) (collided : bool) :
  within A R c -> overlaps A c x z = true ->
  let '(x', z', _) := resolveCollision A c (x, z, collided) in
  near A (tol u R) c x' z' /\ ~ deepIn A (tol u R) c x' z'.
Proof.
  pose proof u_range as Hu.
  intros Hw E. destruct (within_R c Hw) as [HR Ht].
  destruct Hw as (Hcx & Hcz & Hw & Hd).
  unfold Rounded.resolveCollision. rewrite E.
  apply overlapsR_true in E as [Ex Ez].
  pose proof (held_axis x (c_x c) (halfW A c) Ex) as Hx.
  pose proof (held_axis z (c_z c) (halfD A c) Ez) as Hz.
  pose proof (Qabs_nonneg (fsub A x (c_x c))).
  pose proof (Qabs_nonneg (fsub A z (c_z c))).
  pose proof (Qabs_nonneg (c_x c)). pose proof (Qabs_nonneg (c_z c)).
  unfold tol in *.
  destruct (Qltb _ _) eqn:Epen; unfold Rounded.near, Rounded.deepIn.
  - pose proof (push_axis x (c_x c) (halfW A c) Ex) as Hp. cbv zeta in Hp.
    split; [split|intros [Dx _]]; nra.
  - pose proof (push_axis z (c_z c) (halfD A c) Ez) as Hp. cbv zeta in Hp.
    split; [split|intros [_ Dz]]; nra.
Qed.

Lemma apartBy_sym (m : Q) (c c' : Collider) :
  apartBy A m c c' -> apartBy A m c' c.
Proof.
  unfold Rounded.apartBy. intros [H|H]; [left|right].
  - cases_abs (c_x c - c_x c'); cases_abs (c_x c' - c_x c); lra.
  - cases_abs (c_z c - c_z c'); cases_abs (c_z c' - c_z c); lra.
Qed.

(** Near one footprint, the vehicle is outside every footprint that is
    [2 * (tol u R)] apart from it, for the rounded test. *)
Lemma near_apart (c c' : Collider) (x z : Q) :
  within A R c' -> near A (tol u R) c x z -> apartBy A (2 * (tol u R)) c c' ->
  overlaps A c' x z = false.
Proof.
  pose proof u_range as Hu.
  intros Hw [Nx Nz] Hap. destruct (within_R c' Hw) as [HR Ht].
  destruct Hw as (_ & _ & Hw & Hd). unfold tol in *.
  destruct (overlaps A c' x z) eqn:E; [exfalso|reflexivity].
  apply overlapsR_true in E as [Ex Ez].
  pose proof (held_axis x (c_x c') (halfW A c') Ex) as Hx.
  pose proof (held_axis z (c_z c') (halfD A c') Ez) as Hz.
  pose proof (Qabs_nonneg (fsub A x (c_x c'))).
  pose proof (Qabs_nonneg (fsub A z (c_z c'))).
  assert (2 * u * halfW A c' <= 8 * u * R) by nra.
  assert (2 * u * halfD A c' <= 8 * u * R) by nra.
  destruct Hap as [Hap|Hap].
  - cases_abs (c_x c - c_x c'); cases_abs (x - c_x c);
      cases_abs (x - c_x c'); lra.
  - cases_abs (c_z c - c_z c'); cases_abs (z - c_z c);
      cases_abs (z - c_z c'); lra.
Qed.


Lemma resolveCollisionR_miss (c : Collider) (x z : Q) (collided : bool) :
  overlaps A c x z = false ->
  resolveCollision A c (x, z, collided) = (x, z, collided).
Proof. intros H. unfold Rounded.resolveCollision. by rewrite H. Qed.

Lemma resolveAllR_cons (c : Collider) (cs : list Collider)
    (p : Q * Q * bool) :
  resolveAll A (c :: cs) p = resolveAll A cs (resolveCollision A c p).
Proof. reflexivity. Qed.

Lemma resolveAllR_miss (cs : list Collider) (x z : Q) (collided : bool) :
  Forall (fun c => overlaps A c x z = false) cs ->
  resolveAll A cs (x, z, collided) = (x, z, collided).
Proof.
  induction 1 as [|c cs Hc _ IH]; [reflexivity|].
  rewrite resolveAllR_cons, (resolveCollisionR_miss _ _ _ _ Hc). exact IH.
Qed.



(** The loop over colliders that are pairwise [2 * tol] apart: at its end
    the vehicle is in the depth of no footprint, and it has not moved or it
    is near one of them. *)
Lemma resolveAllR_clear (cs : list Collider) :
  Forall (within A R) cs ->
  ForallOrdPairs (apartBy A (2 * tol u R)) cs ->
  forall (x z : Q) (collided : bool),
    let '(x', z', _) := resolveAll A cs (x, z, collided) in
    Forall (fun c => ~ deepIn A (tol u R) c x' z') cs /\
    ((x', z') = (x, z) \/ Exists (fun c => near A (tol u R) c x' z') cs).
Proof.
  intros Hw Hap. revert Hw.
  induction Hap as [|c cs Hc Hcs IH]; intros Hw x z collided.
  - simpl. split; [constructor|by left].
  - apply Forall_cons_1 in Hw as [Hwc Hws].
    rewrite resolveAllR_cons.
    destruct (overlaps A c x z) eqn:E.
    + pose proof (resolveCollision_near c x z collided Hwc E) as Hr.
      destruct (resolveCollision A c (x, z, collided)) as [[x1 z1] f1].
      destruct Hr as [Hnear Hshallow].
      assert (Forall (fun c' => overlaps A c' x1 z1 = false) cs) as Hrest.
      { rewrite Forall_forall in Hc, Hws. apply Forall_forall.
        intros c' Hin.
        apply (near_apart c c'); [by apply Hws|exact Hnear|by apply Hc]. }
      rewrite (resolveAllR_miss cs x1 z1 f1 Hrest).
      split; [|right; by constructor].
      constructor; [exact Hshallow|].
      rewrite Forall_forall in Hrest, Hws. apply Forall_forall.
      intros c' Hin. apply miss_not_deep; [by apply Hws|by apply Hrest].
    + rewrite (resolveCollisionR_miss c x z collided E).
      specialize (IH Hws x z collided).
      destruct (resolveAll A cs (x, z, collided)) as [[x' z'] f'].
      destruct IH as [Hrest Hwhere]. split.
      * constructor; [|exact Hrest].
        apply miss_not_deep; [exact Hwc|].
        destruct Hwhere as [[= -> ->]|Hex]; [exact E|].
        apply Exists_exists in Hex. destruct Hex as (c' & Hin & Hr).
        rewrite Forall_forall in Hc.
        apply (near_apart c' c); [exact Hwc|exact Hr|].
        apply apartBy_sym, Hc, Hin.
      * destruct Hwhere as [Heq|Hex]; [by left|right; by constructor].
Qed.











End RoundedFacts.

Section RoundedPass.
Import JS Car Rounded.
Local Open Scope Q_scope.

(** With exact arithmetic the pass is the one of [Car]. *)
Lemma exact_pass (b : Bounds) (cs : list Collider)
    (dyn : option (list Collider)) (p : Q * Q * bool) :
  Rounded.clampToBounds exact b (Rounded.resolvePass exact cs dyn p)
  = Car.clampToBounds b (Car.resolvePass cs dyn p).
Proof. reflexivity. Qed.

Lemma exact_accurate : accurate exact 0.
Proof.
  unfold accurate. cbn [fadd fsub fmul exact]. split; [lra|].
  split; [|split].
  - intros a b. assert (a + b - (a + b) == 0) as -> by ring.
    change (Qabs 0) with 0. lra.
  - intros a b. assert (a - b - (a - b) == 0) as -> by ring.
    change (Qabs 0) with 0. lra.
  - intros q. split; ring.
Qed.




End RoundedPass.

(** * The vehicle in doubles *)

Section DoubleFacts.

Import PrimFloat Car64 World64.
Local Open Scope float_scope.

(** A frame reads [Math.sin] and [Math.cos] at the heading it starts with and
    nowhere else. *)
Lemma frameLocal_trig (sin cos sin' cos' : float -> float)
    (cs : list Collider) (dyn : option (list Collider)) (b : Bounds)
    active keys delta (s : Sim) :
  sin (yaw s) = sin' (yaw s) -> cos (yaw s) = cos' (yaw s) ->
  frameLocal sin cos cs dyn b active keys delta s
  = frameLocal sin' cos' cs dyn b active keys delta s.
Proof.
  intros Hs Hc. unfold frameLocal, movePosition. rewrite Hs, Hc. reflexivity.
Qed.

Lemma frames_trig (sin cos sin' cos' : float -> float)
    (cs : list Collider) (dyn : option (list Collider)) (b : Bounds)
    active keys (deltas : list float) (s : Sim) :
  Forall (fun y => sin y = sin' y /\ cos y = cos' y)
         (headings sin' cos' cs dyn b active keys deltas s) ->
  frames sin cos cs dyn b active keys deltas s
  = frames sin' cos' cs dyn b active keys deltas s.
Proof.
  unfold frames. revert s. induction deltas as [|d ds IH]; intros s H;
    [reflexivity|].
  simpl in H. apply Forall_cons_1 in H as [[Hs Hc] H]. simpl.
  rewrite (frameLocal_trig sin cos sin' cos' cs dyn b active keys d s Hs Hc).
  by apply IH.
Qed.

(** The car of the run below keeps heading 0 for thirteen frames, so that
    only [Math.sin(0)] and [Math.cos(0)] matter. *)
Lemma resumed_trig (Math_sin Math_cos : float -> float) (n : nat) :
  Math_sin 0 = 0 -> Math_cos 0 = 1 -> (n <= 12)%nat ->
  frames Math_sin Math_cos colliders None bounds true throttle (resumed n) car1
  = frames sin0 cos0 colliders None bounds true throttle (resumed n) car1.
Proof.
  intros Hs Hc Hn. apply frames_trig.
  assert (forall l, Forall (fun y => y = 0) l ->
            Forall (fun y => Math_sin y = sin0 y /\ Math_cos y = cos0 y) l)
    as H.
  { intros l Hl. eapply Forall_impl; [exact Hl|].
    intros y ->. by rewrite Hs, Hc. }
  apply H. clear H.
  do 13 (destruct n as [|n]; [vm_compute; repeat constructor|]). lia.
Qed.


(** C6 fails on a frame that comes late.  The driver of [car-1] holds [w];
    one frame comes 900 s after the one before, the next at 60 per second;
    [Math.sin] and [Math.cos] are any functions with the values 0 and 1 at
    heading 0, the only one the run has.  The long frame leaves the car at the
    northern edge with speed -24300; from there the drag term overshoots at
    every step, the speed grows out of range and is [-Infinity] after the
    twelfth frame, which sets [x] to [6 + 0 * Infinity], not a number; the
    thirteenth does the same to [z].  A coordinate that is not a number
    passes both comparisons of the clamp and is in no range. *)
Theorem C6_long_frame_leaves_the_bounds (Math_sin Math_cos : float -> float) :
  Math_sin 0 = 0 -> Math_cos 0 = 1 ->
  let run n :=
    frames Math_sin Math_cos colliders None bounds true throttle (resumed n)
      car1 in
  (pos_x (run 0%nat) = 6 /\ pos_z (run 0%nat) = 1196.8800000000001 /\
   speed (run 0%nat) = -24300) /\
  (speed (run 10%nat) = -3.3573371125926557e+279 /\
   pos_x (run 10%nat) = 6 /\ pos_z (run 10%nat) = 1196.8800000000001) /\
  (speed (run 11%nat) = neg_infinity /\
   is_nan (pos_x (run 11%nat)) = true /\
   (minX bounds <=? pos_x (run 11%nat)) = false /\
   (pos_x (run 11%nat) <=? maxX bounds) = false) /\
  (is_nan (pos_z (run 12%nat)) = true /\
   (minZ bounds <=? pos_z (run 12%nat)) = false /\
   (pos_z (run 12%nat) <=? maxZ bounds) = false) /\
  (forall collided,
     clampToBounds bounds (nan, nan, collided) = (nan, nan, collided)).
Proof.
  intros Hs Hc run. subst run. cbv beta.
  rewrite !(resumed_trig Math_sin Math_cos _ Hs Hc) by lia.
  split; [vm_compute; by repeat split|].
  split; [vm_compute; by repeat split|].
  split; [vm_compute; by repeat split|].
  split; [vm_compute; by repeat split|].
  intros collided. reflexivity.
Qed.

Lemma C6_long_frame_leaves_the_bounds_witness :
  sin0 0 = 0 /\ cos0 0 = 1 /\
  let run n :=
    frames sin0 cos0 colliders None bounds true throttle (resumed n) car1 in
  is_nan (pos_x (run 11%nat)) = true /\ is_nan (pos_z (run 12%nat)) = true.
Proof.
  split; [reflexivity|]. split; [reflexivity|].
  destruct (C6_long_frame_leaves_the_bounds sin0 cos0 eq_refl eq_refl)
    as (_ & _ & (_ & Hx & _) & (Hz & _) & _).
  exact (conj Hx Hz).
Defined.

(** C10 fails in the same run: the thirteenth frame starts with speed
    [-Infinity], the drag term makes the speed [Infinity - Infinity], and the
    traction it reports, [max(0, 1 - min(1, NaN / 45) * 0 * 0.6)], is not a
    number, so it is not in [[0.4, 1]].  The frame before reports traction
    1. *)
Theorem C10_long_frame_traction (Math_sin Math_cos : float -> float) :
  Math_sin 0 = 0 -> Math_cos 0 = 1 ->
  let run n :=
    frames Math_sin Math_cos colliders None bounds true throttle (resumed n)
      car1 in
  let report n :=
    snd (frameLocal Math_sin Math_cos colliders None bounds true throttle
           (1 / 60) (run n)) in
  s_traction (report 10%nat) = 1 /\
  speed (run 11%nat) = neg_infinity /\
  is_nan (s_speed (report 11%nat)) = true /\
  is_nan (s_traction (report 11%nat)) = true /\
  (0.4 <=? s_traction (report 11%nat)) = false /\
  (s_traction (report 11%nat) <=? 1) = false /\
  is_nan (tractionOf nan 0) = true.
Proof.
  intros Hs Hc run report. subst run report. cbv beta.
  rewrite !(resumed_trig Math_sin Math_cos _ Hs Hc) by lia.
  rewrite !(frameLocal_trig Math_sin Math_cos sin0 cos0)
    by (vm_compute; assumption).
  vm_compute. by repeat split.
Qed.

(** The rpm of the same run: 9000 in the twelfth frame, whose speed is
    infinite, and not a number in the thirteenth, which leaves the gear
    alone. *)
Lemma long_frame_rpm :
  let run n :=
    frames sin0 cos0 colliders None bounds true throttle (resumed n) car1 in
  let frame n :=
    frameLocal sin0 cos0 colliders None bounds true throttle (1 / 60)
      (run n) in
  s_rpm (snd (frame 10%nat)) = 9000 /\
  is_nan (s_rpm (snd (frame 11%nat))) = true /\
  gear (run 11%nat) = 6%Z /\ gear (fst (frame 11%nat)) = 6%Z.
Proof. vm_compute. by repeat split. Qed.

Lemma C10_long_frame_traction_witness :
  sin0 0 = 0 /\ cos0 0 = 1 /\
  is_nan
    (s_traction
       (snd (frameLocal sin0 cos0 colliders None bounds true throttle (1 / 60)
               (frames sin0 cos0 colliders None bounds true throttle
                  (resumed 11) car1)))) = true.
Proof.
  split; [reflexivity|]. split; [reflexivity|].
  exact (proj1 (proj2 (proj2 (proj2
           (C10_long_frame_traction sin0 cos0 eq_refl eq_refl))))).
Defined.

End DoubleFacts.

(** * More of the code *)

(** ** The vehicle between collisions *)

Section VehicleMore.

Local Open Scope Q_scope.
Import JS Car.

Variable Math_sin Math_cos : Q -> Q.
Variable colliders : list Collider.
Variable dynamicColliders : option (list Collider).
Variable bounds : Bounds.

Lemma frameLocal_kept active keys delta (s : Sim) :
  let s' :=
    fst (frameLocal Math_sin Math_cos colliders dynamicColliders bounds
           active keys delta s) in
  pos_y s' = pos_y s /\ headlightsOn s' = headlightsOn s /\
  gear s' =
  autoShift active
    (Qmin maxRpm
       (Qmax idleRpm
          (Qabs (integrateSpeed active keys delta s)
           / (2 * PI * wheelRadius) * 60 * gearRatio (gear s) * finalDrive)))
    (gear s).
Proof.
  cbv zeta. unfold frameLocal.
  destruct (movePosition _ _ _ _ _ _ _ _) as [[x z] collided].
  destruct (if collided then _ else _) as [d v]. by repeat split.
Qed.

Lemma frameLocal_damage active keys delta (s : Sim) :
  0 <= damage s <= 1 ->
  0 <= damage
         (fst (frameLocal Math_sin Math_cos colliders dynamicColliders bounds
                 active keys delta s)) <= 1.
Proof.
  intros [H0 H1].
  pose proof (frameLocal_response Math_sin Math_cos colliders
                dynamicColliders bounds active keys delta s) as H.
  cbv zeta in H.
  destruct (snd (movePosition _ _ _ _ _ _ _ _)).
  - pose proof (collisionResponse_damage (damage s)
                  (integrateSpeed active keys delta s)) as (_ & Hle & Hgrow).
    cbv zeta in Hle, Hgrow. rewrite <- H in Hle, Hgrow.
    cbn [fst] in Hle, Hgrow. specialize (Hgrow H1). lra.
  - injection H as -> _. by split.
Qed.

(** X1: whatever is done to a local vehicle (frames, key presses, respawns),
    its damage stays between 0 and 1. *)
Theorem damage_stays_in_unit_interval (es : list Event) (s : Sim) :
  0 <= damage s <= 1 ->
  0 <= damage
         (run Math_sin Math_cos colliders dynamicColliders bounds es s) <= 1.
Proof.
  unfold run. revert s. induction es as [|e es IH]; intros s H; [exact H|].
  simpl. apply IH. destruct e as [active keys delta|active k|x y z w]; simpl.
  - by apply frameLocal_damage.
  - unfold keyDown. destruct (negb active); [exact H|].
    repeat (destruct (String.eqb k _); [exact H|]). exact H.
  - destruct H as [H0 H1]. split.
    + apply Q.le_max_l.
    + apply Q.max_lub; lra.
Qed.

Lemma autoShift_range (active : bool) (rpm : Q) (g : Z) :
  (g = 0 -> autoShift active rpm g = 0)%Z /\
  (1 <= g <= 6 -> 1 <= autoShift active rpm g <= 6)%Z /\
  (g - 1 <= autoShift active rpm g <= g + 1)%Z /\
  ((g < autoShift active rpm g)%Z -> 7800 < rpm) /\
  ((autoShift active rpm g < g)%Z -> rpm < 2200) /\
  (active = false -> autoShift active rpm g = g).
Proof.
  unfold autoShift.
  destruct active; simpl; [|repeat split; intros; lia].
  destruct (0 <? g)%Z eqn:Eg; [apply Z.ltb_lt in Eg|apply Z.ltb_ge in Eg];
    [|repeat split; intros; try lia; discriminate].
  destruct (Qltb 7800 rpm) eqn:Eup, (Qltb rpm 2200) eqn:Edown;
    try (apply Qltb_lt in Eup); try (apply Qltb_lt in Edown);
    try (exfalso; lra);
    simpl;
    destruct (g <? 6)%Z eqn:E6; destruct (1 <? g)%Z eqn:E1;
    try (apply Z.ltb_lt in E6); try (apply Z.ltb_ge in E6);
    try (apply Z.ltb_lt in E1); try (apply Z.ltb_ge in E1);
    repeat split; intros; try lia; try assumption; try discriminate.
Qed.

(** X2: the gear of a local vehicle stays one of 0 (reverse) to 6 through
    frames, key presses and respawns. *)
Theorem gear_stays_in_range (es : list Event) (s : Sim) :
  (0 <= gear s <= 6)%Z ->
  (0 <= gear (run Math_sin Math_cos colliders dynamicColliders bounds es s)
   <= 6)%Z.
Proof.
  unfold run. revert s. induction es as [|e es IH]; intros s H; [exact H|].
  simpl. apply IH. destruct e as [active keys delta|active k|x y z w]; simpl.
  - destruct (frameLocal_kept active keys delta s) as (_ & _ & ->).
    match goal with |- context [autoShift ?a ?r ?g] =>
      destruct (autoShift_range a r g) as (H0 & H16 & _) end.
    destruct (Z.eq_dec (gear s) 0%Z) as [E|E]; [rewrite (H0 E); lia|].
    assert (1 <= gear s <= 6)%Z as Hg by lia. specialize (H16 Hg). lia.
  - unfold keyDown. destruct (negb active); [exact H|].
    destruct (String.eqb k "r"); [simpl; lia|].
    destruct (String.eqb k "f"); [simpl; lia|].
    destruct (String.eqb k "h"); exact H.
  - exact H.
Qed.

Lemma gearRatio_pos (g : Z) : 0 < gearRatio g.
Proof.
  unfold gearRatio. simpl length.
  assert (Z.to_nat (Z.max 0 (Z.min g (Z.of_nat 7 - 1))) <= 6)%nat as H by lia.
  destruct (Z.to_nat _) as [|[|[|[|[|[|[|n]]]]]]]; simpl; try reflexivity.
  lia.
Qed.

Lemma rpmNum_finite (x ratio : Q) :
  rpmNum (Fin x) ratio
  = Fin (Qmin maxRpm
           (Qmax idleRpm
              (x / (2 * PI * wheelRadius) * 60 * ratio * finalDrive))).
Proof. reflexivity. Qed.

(** The rpm is not a number exactly when the speed is not; any other speed,
    the infinite ones included, gives an rpm from 900 to 9000. *)
Lemma rpmNum_range (v : num) (ratio : Q) :
  0 < ratio ->
  (rpmNum (nabs v) ratio = NaN <-> v = NaN) /\
  (v <> NaN ->
   exists q : Q, rpmNum (nabs v) ratio = Fin q /\ 900 <= q <= 9000).
Proof.
  intros Hr.
  assert (scaleInf PInf ratio = PInf) as Hs.
  { unfold scaleInf.
    assert (Qeq_bool ratio 0 = false) as ->
      by (apply not_true_is_false; intros E; apply Qeq_bool_iff in E; lra).
    assert (Qltb ratio 0 = false) as -> by (apply Qltb_ge; lra).
    reflexivity. }
  assert (forall x, exists q : Q,
            rpmNum (Fin x) ratio = Fin q /\ 900 <= q <= 9000) as Hfin.
  { intros x. eexists. split; [apply rpmNum_finite|].
    unfold maxRpm, idleRpm. split.
    - apply Q.min_glb; [lra|apply Q.le_max_l].
    - apply Q.le_min_l. }
  assert (rpmNum PInf ratio = Fin maxRpm) as Hinf.
  { unfold rpmNum. cbn [ndiv nmul nneg]. 
    change (Qltb (2 * PI * wheelRadius) 0) with false. cbv iota.
    change (nmul PInf (Fin 60)) with PInf.
    change (nmul PInf (Fin ratio)) with (scaleInf PInf ratio). rewrite Hs.
    reflexivity. }
  destruct v as [x| | |]; cbn [nabs].
  - destruct (Hfin (Qabs x)) as (q & Hq & Hrange). split.
    + rewrite Hq. split; discriminate.
    + intros _. by exists q.
  - rewrite Hinf. split; [split; discriminate|].
    intros _. exists maxRpm. split; [reflexivity|]. unfold maxRpm. lra.
  - rewrite Hinf. split; [split; discriminate|].
    intros _. exists maxRpm. split; [reflexivity|]. unfold maxRpm. lra.
  - split; [split; reflexivity|]. intros H. by destruct H.
Qed.

Lemma autoShiftNum_range (active : bool) (rpm : num) (g : Z) :
  (g = 0 -> autoShiftNum active rpm g = 0)%Z /\
  (1 <= g <= 6 -> 1 <= autoShiftNum active rpm g <= 6)%Z /\
  (g - 1 <= autoShiftNum active rpm g <= g + 1)%Z /\
  ((g < autoShiftNum active rpm g)%Z -> nlt (Fin 7800) rpm = true) /\
  ((autoShiftNum active rpm g < g)%Z -> nlt rpm (Fin 2200) = true) /\
  (active = false \/ rpm = NaN -> autoShiftNum active rpm g = g).
Proof.
  unfold autoShiftNum.
  destruct active; cbn [andb];
    [|repeat split; intros; try lia; try reflexivity].
  destruct (0 <? g)%Z eqn:Eg; [apply Z.ltb_lt in Eg|apply Z.ltb_ge in Eg];
    [|repeat split; intros; try lia; reflexivity].
  assert (nlt (Fin 7800) rpm = true -> nlt rpm (Fin 2200) = true -> False)
    as Hboth.
  { destruct rpm as [x| | |]; simpl; try discriminate.
    rewrite !Qltb_lt. lra. }
  destruct (nlt (Fin 7800) rpm) eqn:Eup, (nlt rpm (Fin 2200)) eqn:Edown;
    try (exfalso; by apply Hboth);
    cbn [andb];
    destruct (g <? 6)%Z eqn:E6; destruct (1 <? g)%Z eqn:E1;
    try (apply Z.ltb_lt in E6); try (apply Z.ltb_ge in E6);
    try (apply Z.ltb_lt in E1); try (apply Z.ltb_ge in E1);
    repeat split; intros; try lia; try reflexivity;
    try (match goal with H : _ \/ _ |- _ =>
           destruct H as [H|H]; [discriminate|subst rpm; discriminate] end).
Qed.

Lemma autoShiftNum_shifts (rpm : num) (g : Z) :
  ((0 < g < 6)%Z -> nlt (Fin 7800) rpm = true ->
   autoShiftNum true rpm g = (g + 1)%Z) /\
  ((1 < g)%Z -> nlt rpm (Fin 2200) = true ->
   autoShiftNum true rpm g = (g - 1)%Z).
Proof.
  assert (nlt (Fin 7800) rpm = true -> nlt rpm (Fin 2200) = true -> False)
    as Hboth.
  { destruct rpm as [x| | |]; simpl; try discriminate.
    rewrite !Qltb_lt. lra. }
  unfold autoShiftNum. split.
  - intros Hg Hup. rewrite Hup.
    destruct (nlt rpm (Fin 2200)) eqn:Edown; [exfalso; by apply Hboth|].
    cbn [andb].
    assert ((0 <? g)%Z = true) as -> by (apply Z.ltb_lt; lia).
    assert ((g <? 6)%Z = true) as -> by (apply Z.ltb_lt; lia). lia.
  - intros Hg Hdown. rewrite Hdown.
    destruct (nlt (Fin 7800) rpm) eqn:Eup; [exfalso; by apply Hboth|].
    cbn [andb].
    assert ((0 <? g)%Z = true) as -> by (apply Z.ltb_lt; lia).
    assert ((1 <? g)%Z = true) as -> by (apply Z.ltb_lt; lia). lia.
Qed.

(** X3: what a frame does to the gear and what it reports as rpm.  The frame
    reports the gear it started with and the rpm [rpmNum] gives for its
    speed, and changes gear as [autoShiftNum] says.  Whatever the speed [v],
    the infinite ones and NaN included: the rpm is NaN exactly when the speed
    is, and lies between 900 and 9000 otherwise; the automatic shift leaves
    reverse alone, keeps a forward gear forward, moves by one gear at most, up
    only above 7800 rpm and down only below 2200 rpm, and does nothing to a
    car that is not driven or whose rpm is NaN; in a driven car it goes one
    gear up from a forward gear below the sixth when the rpm is above 7800,
    and one gear down from a gear above the first when the rpm is below
    2200. *)
Theorem frame_rpm_and_shift active keys delta (s : Sim) (v : num) (g : Z) :
  let r :=
    frameLocal Math_sin Math_cos colliders dynamicColliders bounds
      active keys delta s in
  let rpm := rpmNum (nabs v) (gearRatio g) in
  (Fin (s_rpm (snd r))
   = rpmNum (nabs (Fin (integrateSpeed active keys delta s)))
       (gearRatio (gear s)) /\
   s_gear (snd r) = gear s /\
   gear (fst r) = autoShiftNum active (Fin (s_rpm (snd r))) (gear s)) /\
  (rpm = NaN <-> v = NaN) /\
  (v <> NaN -> exists q : Q, rpm = Fin q /\ 900 <= q <= 9000) /\
  (g = 0 -> autoShiftNum active rpm g = 0)%Z /\
  (1 <= g <= 6 -> 1 <= autoShiftNum active rpm g <= 6)%Z /\
  (g - 1 <= autoShiftNum active rpm g <= g + 1)%Z /\
  ((g < autoShiftNum active rpm g)%Z -> nlt (Fin 7800) rpm = true) /\
  ((autoShiftNum active rpm g < g)%Z -> nlt rpm (Fin 2200) = true) /\
  (active = false \/ v = NaN -> autoShiftNum active rpm g = g) /\
  ((0 < g < 6)%Z -> nlt (Fin 7800) rpm = true ->
   autoShiftNum true rpm g = (g + 1)%Z) /\
  ((1 < g)%Z -> nlt rpm (Fin 2200) = true ->
   autoShiftNum true rpm g = (g - 1)%Z).
Proof.
  intros r rpm.
  destruct (rpmNum_range v (gearRatio g) (gearRatio_pos g)) as [Hnan Hrange].
  fold rpm in Hnan, Hrange.
  destruct (autoShiftNum_range active rpm g)
    as (H0 & H16 & H1 & Hup & Hdown & Hoff).
  split;
    [|split; [exact Hnan|]; split; [exact Hrange|]; split; [exact H0|];
      split; [exact H16|]; split; [exact H1|]; split; [exact Hup|];
      split; [exact Hdown|];
      split; [|exact (autoShiftNum_shifts rpm g)];
      intros [H|H]; apply Hoff; [by left|right; by apply Hnan]].
  subst r. cbn [nabs]. rewrite rpmNum_finite.
  destruct (frameLocal_kept active keys delta s) as (_ & _ & Hg).
  cbv zeta in Hg. rewrite Hg. clear Hg.
  unfold frameLocal.
  destruct (movePosition _ _ _ _ _ _ _ _) as [[x z] collided].
  destruct (if collided then _ else _) as [d w]. cbn [snd s_rpm s_gear].
  by repeat split.
Qed.

End VehicleMore.

Section VehicleMotion.

Local Open Scope Q_scope.
Import JS Car.

Variable Math_sin Math_cos : Q -> Q.
Variable colliders : list Collider.
Variable dynamicColliders : option (list Collider).
Variable bounds : Bounds.

Lemma Qabs_comp (a b : Q) : a == b -> Qabs a == Qabs b.
Proof.
  intros H.
  destruct (Qabs_cases a) as [[? ->]|[? ->]],
           (Qabs_cases b) as [[? ->]|[? ->]]; lra.
Qed.

Lemma Qltb_comp (a a' b b' : Q) :
  a == a' -> b == b' -> Qltb a b = Qltb a' b'.
Proof.
  intros Ha Hb. destruct (Qltb a' b') eqn:E.
  - apply Qltb_lt. apply Qltb_lt in E. lra.
  - apply Qltb_ge. apply Qltb_ge in E. lra.
Qed.

Lemma overlaps_comp (c : Collider) (x x' z z' : Q) :
  x == x' -> z == z' -> overlaps c x z = overlaps c x' z'.
Proof.
  intros Hx Hz. unfold overlaps. f_equal; apply Qltb_comp; try reflexivity;
    apply Qabs_comp; lra.
Qed.

(** The speed after the forces, as a formula, when the handbrake does not
    bite. *)
Lemma integrateSpeed_formula active keys delta (s : Sim) :
  exists k : Q,
    (k == 1 \/ k == 0.985 \/ k == 0.99 \/ k == 0.985 * 0.99) /\
    (active && pressed keys " " = false -> active = true -> k == 1) /\
    (active = false -> k == 0.99) /\
    integrateSpeed active keys delta s ==
    (speed s
     + (flag (active && (pressed keys "w" || pressed keys "arrowup"))
        * enginePower * gearRatio (gear s)
        * (if (gear s =? 0)%Z then -1 else 1)
        - brakePower
          * flag (active && (pressed keys "s" || pressed keys "arrowdown"))
          * (if Qeq_bool (speed s) 0 then 1 else sign (speed s))
        - drag * speed s * Qabs (speed s) - rolling * speed s) * delta) * k.
Proof.
  unfold integrateSpeed. cbv zeta.
  destruct active; cbn [negb andb].
  - set (speed1 := speed s + _ * delta).
    destruct (pressed keys " ") eqn:Eh; cbn [andb].
    + destruct (Qltb 0.5 (Qabs speed1)).
      * exists 0.985. repeat split; try lra; try discriminate.
      * exists 1. repeat split; try lra; try discriminate.
    + exists 1. repeat split; try lra; try discriminate.
  - set (speed1 := speed s + _ * delta). exists 0.99.
    repeat split; try lra; try discriminate.
Qed.

(** X4: held at standstill, the brake drives the car backwards: with the brake
    applied, no throttle and the car at rest, the speed after a frame of
    positive length is negative, at most 34 times the frame time in
    magnitude, and exactly that when the handbrake is not applied. *)
Theorem brake_at_rest_reverses keys delta (s : Sim) :
  speed s == 0 ->
  0 < delta ->
  pressed keys "s" || pressed keys "arrowdown" = true ->
  pressed keys "w" || pressed keys "arrowup" = false ->
  let v := integrateSpeed true keys delta s in
  - (34 * delta) <= v /\ v < 0 /\
  (pressed keys " " = false -> v == - (34 * delta)).
Proof.
  intros Hs Hd Hb Ht v.
  destruct (integrateSpeed_formula true keys delta s)
    as (k & Hk & Hk1 & _ & Hv).
  fold v in Hv. cbn [andb] in Hv, Hk1. rewrite Hb, Ht in Hv.
  assert (Qeq_bool (speed s) 0 = true) as E by (by apply Qeq_bool_iff).
  rewrite E in Hv. unfold flag, brakePower, drag, rolling in Hv.
  pose proof (Qabs_comp _ _ Hs) as Ha. change (Qabs 0) with 0 in Ha.
  set (A := Qabs (speed s)) in *. set (u := speed s) in *.
  set (e := 0 * enginePower * _ * _) in Hv.
  assert (e == 0) as He by (subst e; ring).
  assert (v == - (34 * delta) * k) as Hv'.
  { rewrite Hv. rewrite He, Hs, Ha. ring. }
  repeat split.
  - destruct Hk as [Hk|[Hk|[Hk|Hk]]]; rewrite Hv', Hk; lra.
  - destruct Hk as [Hk|[Hk|[Hk|Hk]]]; rewrite Hv', Hk; lra.
  - intros Hh. rewrite Hv', (Hk1 Hh eq_refl). ring.
Qed.

(** X5: a car nobody drives slows down: when the frame time is not negative and
    small enough that [delta * (drag * |speed| + rolling) <= 1], the speed
    after the frame keeps its sign and is at most 0.99 times the speed before
    in magnitude. *)
Theorem coasting_slows_down keys delta (s : Sim) :
  0 <= delta ->
  delta * (drag * Qabs (speed s) + rolling) <= 1 ->
  let v := integrateSpeed false keys delta s in
  Qabs v <= 0.99 * Qabs (speed s) /\ 0 <= v * speed s.
Proof.
  intros Hd Hsmall v.
  destruct (integrateSpeed_formula false keys delta s)
    as (k & _ & _ & Hk & Hv).
  fold v in Hv. cbn [andb] in Hv. unfold flag in Hv.
  specialize (Hk eq_refl).
  set (A := Qabs (speed s)) in *. set (u := speed s) in *.
  assert (0 <= A) as HA by apply Qabs_nonneg.
  set (f := 1 - delta * (drag * A + rolling)).
  assert (0 <= f <= 1) as Hf.
  { subst f. unfold drag, rolling in *. split; [lra|]. nra. }
  assert (v == u * f * 0.99) as Hv'.
  { rewrite Hv, Hk. subst f. unfold enginePower, brakePower. ring. }
  split.
  - rewrite (Qabs_comp _ _ Hv'). rewrite !Qabs_Qmult. fold A.
    rewrite (Qabs_pos f) by lra. change (Qabs 0.99) with 0.99. nra.
  - rewrite Hv'. assert (0 <= u * u) by nra.
    assert (u * f * 0.99 * u == 0.99 * f * (u * u)) as -> by ring. nra.
Qed.

Lemma standsClear_comp (cs : list Collider) (b : Bounds) (s s' : Sim) :
  pos_x s' == pos_x s -> pos_z s' == pos_z s ->
  standsClear cs b s -> standsClear cs b s'.
Proof.
  intros Hx Hz (Hc & Hbx & Hbz). split; [|split; lra].
  eapply Forall_impl; [exact Hc|]. intros c Hco. simpl in Hco |- *.
  by rewrite (overlaps_comp c _ _ _ _ Hx Hz).
Qed.

Lemma frameLocal_at_rest active keys delta (s : Sim) :
  noDrive (Frame active keys delta) ->
  speed s == 0 ->
  standsClear (colliders ++ default [] dynamicColliders) bounds s ->
  let s' :=
    fst (frameLocal Math_sin Math_cos colliders dynamicColliders bounds
           active keys delta s) in
  pos_x s' == pos_x s /\ pos_z s' == pos_z s /\ speed s' == 0 /\
  damage s' = damage s /\
  yaw s' == yaw s + steerInputOf active keys * delta * 1.7.
Proof.
  intros [Ht Hb] Hs Hclear.
  destruct (integrateSpeed_formula active keys delta s)
    as (k & _ & _ & _ & Hv).
  rewrite Ht, Hb in Hv. unfold flag in Hv.
  pose proof (Qabs_comp _ _ Hs) as Ha. change (Qabs 0) with 0 in Ha.
  assert (integrateSpeed active keys delta s == 0) as Hv0.
  { set (bs := if Qeq_bool (speed s) 0 then _ else _) in Hv.
    rewrite Hv, Hs. change (Qabs 0) with 0. ring. }
  clear Hv k.
  pose proof (Qabs_comp _ _ Hv0) as Hav. change (Qabs 0) with 0 in Hav.
  cbv zeta. unfold frameLocal.
  set (v := integrateSpeed active keys delta s) in *.
  unfold movePosition. rewrite resolvePass_all.
  set (x1 := pos_x s + _). set (z1 := pos_z s + _).
  assert (x1 == pos_x s) as Hx by (subst x1; rewrite Hv0; ring).
  assert (z1 == pos_z s) as Hz by (subst z1; rewrite Hv0; ring).
  destruct Hclear as (Hc & Hbx & Hbz).
  rewrite resolveAll_miss.
  2:{ eapply Forall_impl; [exact Hc|]. intros c Hco. simpl in Hco |- *.
      by rewrite (overlaps_comp c _ _ _ _ Hx Hz). }
  unfold clampToBounds, clampAxis.
  assert (Qltb x1 (minX bounds + carHalfW) = false) as ->
    by (apply Qltb_ge; lra).
  assert (Qltb (maxX bounds - carHalfW) x1 = false) as ->
    by (apply Qltb_ge; lra).
  assert (Qltb z1 (minZ bounds + carHalfD) = false) as ->
    by (apply Qltb_ge; lra).
  assert (Qltb (maxZ bounds - carHalfD) z1 = false) as ->
    by (apply Qltb_ge; lra).
  cbn -[Qabs Qmult Qplus Qdiv Qltb sign steerInputOf].
  repeat split; try assumption.
  assert (Qltb 0.2 (Qabs v) = false) as -> by (apply Qltb_ge; lra).
  rewrite Hav. field.
Qed.

(** X6: a car at rest that stands clear of the colliders and inside the world
    stays where it is, at rest and with the damage it has, through any frames
    and key presses in which neither throttle nor brake is applied, whoever
    holds the wheel. *)
Theorem car_at_rest_stays (es : list Event) (s : Sim) :
  Forall noDrive es ->
  speed s == 0 ->
  standsClear (colliders ++ default [] dynamicColliders) bounds s ->
  let s' := run Math_sin Math_cos colliders dynamicColliders bounds es s in
  pos_x s' == pos_x s /\ pos_z s' == pos_z s /\ pos_y s' = pos_y s /\
  speed s' == 0 /\ damage s' = damage s.
Proof.
  cbv zeta. unfold run. revert s.
  induction es as [|e es IH]; intros s Hes Hs Hclear;
    [by repeat split|].
  apply Forall_cons_1 in Hes as [He Hes]. simpl.
  set (s1 := handle _ _ _ _ _ e s).
  assert (pos_x s1 == pos_x s /\ pos_z s1 == pos_z s /\ pos_y s1 = pos_y s /\
          speed s1 == 0 /\ damage s1 = damage s) as (Hx & Hz & Hy & Hv & Hd).
  { subst s1. destruct e as [active keys delta|active k|x y z w]; simpl.
    - destruct (frameLocal_at_rest active keys delta s He Hs Hclear)
        as (? & ? & ? & ? & _).
      destruct (frameLocal_kept Math_sin Math_cos colliders dynamicColliders
                  bounds active keys delta s) as (? & _).
      by repeat split.
    - unfold keyDown. destruct (negb active); [by repeat split|].
      repeat (destruct (String.eqb k _); [by repeat split|]).
      by repeat split.
    - destruct He. }
  destruct (IH s1 Hes Hv (standsClear_comp _ _ _ _ Hx Hz Hclear))
    as (Hx' & Hz' & Hy' & Hv' & Hd').
  repeat split; [lra|lra|congruence|exact Hv'|congruence].
Qed.

(** X7: steering turns a car that stands still: at rest, clear of the colliders
    and with neither throttle nor brake applied, a frame of the driven car
    with [a] or the left arrow held, and neither [d] nor the right arrow,
    adds [delta * 1.7] to the heading; with [d] or the right arrow held and
    neither [a] nor the left arrow it takes [delta * 1.7] off; with both
    sides or neither held, or without a driver, the heading stays.  The
    position stays in every case. *)
Theorem steering_turns_on_the_spot active keys delta (s : Sim) :
  noDrive (Frame active keys delta) ->
  speed s == 0 ->
  standsClear (colliders ++ default [] dynamicColliders) bounds s ->
  let s' :=
    fst (frameLocal Math_sin Math_cos colliders dynamicColliders bounds
           active keys delta s) in
  let left := pressed keys "a" || pressed keys "arrowleft" in
  let right := pressed keys "d" || pressed keys "arrowright" in
  (active = true -> left = true -> right = false ->
   yaw s' == yaw s + delta * 1.7) /\
  (active = true -> left = false -> right = true ->
   yaw s' == yaw s - delta * 1.7) /\
  (active = false \/ left = right -> yaw s' == yaw s) /\
  pos_x s' == pos_x s /\ pos_z s' == pos_z s.
Proof.
  intros He Hs Hclear s' left right.
  destruct (frameLocal_at_rest active keys delta s He Hs Hclear)
    as (Hx & Hz & _ & _ & Hyaw).
  fold s' in Hx, Hz, Hyaw. unfold steerInputOf in Hyaw.
  fold left right in Hyaw.
  repeat split; try assumption.
  - intros -> Hl Hr. rewrite Hyaw, Hl, Hr. unfold flag. simpl. ring.
  - intros -> Hl Hr. rewrite Hyaw, Hl, Hr. unfold flag. simpl. ring.
  - intros [-> |Hlr]; rewrite Hyaw.
    + unfold flag. simpl. ring.
    + rewrite Hlr. unfold flag.
      destruct active, right; simpl; ring.
Qed.

End VehicleMotion.

(** ** The vehicle another client drives *)

Section RemoteFacts.

Local Open Scope Q_scope.
Import JS Car.

Lemma PI_pos : 0 < PI.
Proof. reflexivity. Qed.

Lemma Qdiv_mult_back (a b : Q) : 0 < b -> a / b * b == a.
Proof. intros H. field. lra. Qed.

Lemma Qdiv_nonneg (a b : Q) : 0 <= a -> 0 < b -> 0 <= a / b.
Proof.
  intros Ha Hb. unfold Qdiv. apply Qmult_le_0_compat; [exact Ha|].
  apply Qinv_le_0_compat. lra.
Qed.

(** [a % b] for a dividend that is not negative and a positive divisor. *)
Lemma fmod_range (a b : Q) :
  0 <= a -> 0 < b ->
  0 <= fmod a b < b /\ exists k : Z, fmod a b == a - b * inject_Z k.
Proof.
  intros Ha Hb. unfold fmod, trunc.
  pose proof (Qdiv_nonneg a b Ha Hb) as Hq.
  assert (Qltb (a / b) 0 = false) as -> by (by apply Qltb_ge).
  pose proof (Qfloor_le (a / b)) as Hlo.
  pose proof (Qlt_floor (a / b)) as Hhi.
  rewrite inject_Z_plus in Hhi. change (inject_Z 1) with 1 in Hhi.
  pose proof (Qdiv_mult_back a b Hb) as Hab.
  set (q := a / b) in *. set (n := inject_Z (Qfloor q)) in *.
  split; [|by exists (Qfloor q)].
  split; nra.
Qed.

Lemma fmod_second_turn (a b : Q) :
  0 < b -> b <= a < 2 * b -> fmod a b == a - b.
Proof.
  intros Hb [Hlo Hhi]. unfold fmod, trunc.
  assert (0 <= a) as Ha by lra.
  pose proof (Qdiv_nonneg a b Ha Hb) as Hq.
  assert (Qltb (a / b) 0 = false) as -> by (by apply Qltb_ge).
  pose proof (Qfloor_le (a / b)) as Hfl.
  pose proof (Qlt_floor (a / b)) as Hfh.
  pose proof (Qdiv_mult_back a b Hb) as Hab.
  set (q := a / b) in *.
  assert (1 <= q < 2) as [Hq1 Hq2] by (split; nra).
  assert (Qfloor q = 1%Z) as ->.
  { assert (inject_Z (Qfloor q) < inject_Z 2) as H2
      by (change (inject_Z 2) with 2; lra).
    assert (inject_Z 1 < inject_Z (Qfloor q + 1)) as H0
      by (change (inject_Z 1) with 1; lra).
    rewrite <- Zlt_Qlt in H2, H0. lia. }
  change (inject_Z 1) with 1. ring.
Qed.

Lemma Qpower_succ (q : Q) (n : nat) :
  ~ q == 0 -> q ^ Z.of_nat (S n) == q * q ^ Z.of_nat n.
Proof.
  intros Hq. rewrite Nat2Z.inj_succ. unfold Z.succ.
  rewrite Qpower_plus by exact Hq. change (q ^ 1) with (Qpower_positive q 1).
  simpl. ring.
Qed.

(** X8: a remote vehicle closes in on the sample it is shown: after [n]
    frames with the same sample, 0.6 to the power [n] of the distance is left
    on each axis (the height aimed at is 0.75 when the sample has none);
    speed, damage, gear and headlights are untouched; and without a sample a
    frame does nothing. *)
Theorem remote_position_converges (n : nat) (r : RemoteState) (s : Sim) :
  let s' := Nat.iter n (frameRemote (Some r)) s in
  pos_x s' - r_x r == 0.6 ^ Z.of_nat n * (pos_x s - r_x r) /\
  pos_y s' - default 0.75 (r_y r)
  == 0.6 ^ Z.of_nat n * (pos_y s - default 0.75 (r_y r)) /\
  pos_z s' - r_z r == 0.6 ^ Z.of_nat n * (pos_z s - r_z r) /\
  speed s' = speed s /\ damage s' = damage s /\ gear s' = gear s /\
  headlightsOn s' = headlightsOn s /\
  frameRemote None s = s.
Proof.
  cbv zeta. induction n as [|n IH].
  - simpl. repeat split; try reflexivity; change (0.6 ^ 0) with 1; ring.
  - destruct IH as (Hx & Hy & Hz & Hv & Hd & Hg & Hh & _).
    rewrite !Qpower_succ by (intros H; discriminate H).
    change (Nat.iter (S n) (frameRemote (Some r)) s)
      with (frameRemote (Some r) (Nat.iter n (frameRemote (Some r)) s)).
    set (s1 := Nat.iter n (frameRemote (Some r)) s) in *.
    unfold frameRemote at 1 2 3 4 5 6 7.
    cbn [pos_x pos_y pos_z speed damage gear headlightsOn].
    change (match r_y r with Some y => y | None => 0.75 end)
      with (default 0.75 (r_y r)).
    repeat split; try assumption; try reflexivity.
    + rewrite <- Qmult_assoc, <- Hx. ring.
    + rewrite <- Qmult_assoc, <- Hy. ring.
    + rewrite <- Qmult_assoc, <- Hz. ring.
Qed.

Lemma frameRemote_heading (r : RemoteState) (s : Sim) :
  - PI <= r_yaw r - yaw s < PI ->
  r_yaw r - yaw (frameRemote (Some r) s) == 0.64 * (r_yaw r - yaw s).
Proof.
  intros [Hlo Hhi]. pose proof PI_pos as HPI.
  unfold frameRemote. cbn [yaw].
  rewrite fmod_second_turn by lra. ring.
Qed.

(** X9: when the sample's heading is less than half a turn away ([-PI <= target
    - yaw < PI]), every frame leaves 0.64 of the heading error, so the remote
    vehicle turns towards the sample's heading without overshooting. *)
Theorem remote_heading_converges (n : nat) (r : RemoteState) (s : Sim) :
  - PI <= r_yaw r - yaw s < PI ->
  let s' := Nat.iter n (frameRemote (Some r)) s in
  r_yaw r - yaw s' == 0.64 ^ Z.of_nat n * (r_yaw r - yaw s) /\
  - PI <= r_yaw r - yaw s' < PI.
Proof.
  intros Hwin. cbv zeta. pose proof PI_pos as HPI. induction n as [|n IH].
  - simpl. split; [change (0.64 ^ 0) with 1; ring|exact Hwin].
  - destruct IH as [He Hw].
    rewrite Qpower_succ by (intros H; discriminate H).
    change (Nat.iter (S n) (frameRemote (Some r)) s)
      with (frameRemote (Some r) (Nat.iter n (frameRemote (Some r)) s)).
    set (s1 := Nat.iter n (frameRemote (Some r)) s) in *.
    pose proof (frameRemote_heading r s1 Hw) as Hstep.
    split; [|lra].
    rewrite Hstep, He. ring.
Qed.

(** X10: as long as the sample's heading is not more than a turn and a half
    behind ([-3 PI <= target - yaw]), a frame turns the remote vehicle by
    0.36 of an angle that lies in [-PI, PI) and differs from the heading
    error by whole turns: it takes the short way round. *)
Theorem remote_turn_short_way (r : RemoteState) (s : Sim) :
  - (3 * PI) <= r_yaw r - yaw s ->
  exists (d : Q) (k : Z),
    yaw (frameRemote (Some r) s) == yaw s + d * 0.36 /\
    - PI <= d < PI /\
    d == r_yaw r - yaw s - 2 * PI * inject_Z k.
Proof.
  intros Hlo. pose proof PI_pos as HPI.
  destruct (fmod_range (r_yaw r - yaw s + PI * 3) (PI * 2)) as [Hr [k Hk]];
    [lra|lra|].
  exists (fmod (r_yaw r - yaw s + PI * 3) (PI * 2) - PI), (k - 1)%Z.
  split; [reflexivity|]. split; [lra|].
  rewrite Hk. unfold Z.sub. rewrite inject_Z_plus, inject_Z_opp.
  change (inject_Z 1) with 1. ring.
Qed.

End RemoteFacts.

(** ** Names and players *)

Section PlayersFacts.

Import JS Net.
Local Open Scope Q_scope.

Lemma slice0_length (n : nat) (s : string) :
  String.length (slice0 n s) = Nat.min n (String.length s).
Proof.
  unfold slice0. revert s. induction n as [|n IH]; intros [|a s]; simpl;
    try reflexivity.
  by rewrite IH.
Qed.

Lemma slice0_short (n : nat) (s : string) :
  (String.length s <= n)%nat -> slice0 n s = s.
Proof.
  unfold slice0. revert s. induction n as [|n IH]; intros [|a s] H; simpl in *;
    try reflexivity; try lia.
  rewrite IH; [reflexivity|lia].
Qed.

Lemma slice0_idem (n : nat) (s : string) : slice0 n (slice0 n s) = slice0 n s.
Proof. apply slice0_short. rewrite slice0_length. lia. Qed.

Lemma trimStart_head (s : string) :
  match trimStart s with
  | String a _ => isSpace a = false
  | EmptyString => True
  end.
Proof.
  induction s as [|a s IH]; simpl; [exact I|].
  destruct (isSpace a) eqn:E; [exact IH|exact E].
Qed.

Lemma trimEnd_head (a : ascii) (s : string) :
  isSpace a = false -> exists t, trimEnd (String a s) = String a t.
Proof.
  intros E. simpl. destruct (trimEnd s); rewrite ?E; eauto.
Qed.

Lemma trimEnd_keeps_head (s : string) :
  match trimEnd s with
  | String b _ => exists t, s = String b t
  | EmptyString => True
  end.
Proof.
  destruct s as [|a s]; simpl; [exact I|].
  destruct (trimEnd s); [destruct (isSpace a)|]; eauto.
Qed.

(** A trimmed string does not start with white space. *)
Lemma trim_head (s : string) :
  match trim s with
  | String a _ => isSpace a = false
  | EmptyString => True
  end.
Proof.
  unfold trim. pose proof (trimStart_head s) as H.
  pose proof (trimEnd_keeps_head (trimStart s)) as H'.
  destruct (trimEnd (trimStart s)) as [|b t]; [exact I|].
  destruct H' as [t' Ht']. by rewrite Ht' in H.
Qed.

(** The first characters of a string that starts with something else than
    white space do not trim to nothing. *)
Lemma trim_slice_head (n : nat) (a : ascii) (t : string) :
  isSpace a = false ->
  exists u, slice0 (S n) (String a t) = String a u /\
            exists v, trim (String a u) = String a v.
Proof.
  intros E. exists (String.substring 0 n t). split; [reflexivity|].
  unfold trim. simpl trimStart. rewrite E. by apply trimEnd_head.
Qed.

Lemma safeName_cases (c : Client) :
  safeName c = "Guest" \/
  exists a t, isSpace a = false /\ trim (name (localState c)) = String a t /\
              safeName c = slice0 16 (String a t).
Proof.
  unfold safeName. pose proof (trim_head (name (localState c))) as H.
  destruct (trim (name (localState c))) as [|a t]; simpl isEmpty; cbv iota.
  - by left.
  - right. by exists a, t.
Qed.

(** The listeners show a [safeName] as it is. *)
Lemma safeName_shown (c : Client) :
  shownName (Some (VStr (safeName c))) = safeName c.
Proof.
  destruct (safeName_cases c) as [->|(a & t & E & _ & ->)]; [reflexivity|].
  destruct (trim_slice_head 15 a t E) as (u & Hu & v & Hv).
  unfold shownName. rewrite slice0_idem, Hu, Hv. reflexivity.
Qed.

(** X11: the name a client goes by is never empty, has at most 16 characters
    and does not start with white space; the players and the chat listeners
    of the other clients show it as it is. *)
Theorem safeName_shape (c : Client) :
  (1 <= String.length (safeName c) <= 16)%nat /\
  (exists a t, safeName c = String a t /\ isSpace a = false) /\
  shownName (Some (VStr (safeName c))) = safeName c.
Proof.
  split; [|split; [|apply safeName_shown]].
  - destruct (safeName_cases c) as [->|(a & t & E & _ & ->)]; [simpl; lia|].
    rewrite slice0_length. simpl String.length. lia.
  - destruct (safeName_cases c) as [->|(a & t & E & _ & ->)].
    + by exists "G"%char, "uest"%string.
    + destruct (trim_slice_head 15 a t E) as (u & Hu & _). by exists a, u.
Qed.

Lemma shownName_length (v : option value) :
  (1 <= String.length (shownName v) <= 16)%nat.
Proof.
  unfold shownName.
  destruct v as [[| | |n| | |]|]; try (simpl; lia).
  destruct (isEmpty (trim n)) eqn:E; [simpl; lia|].
  rewrite slice0_length. split; [|lia].
  destruct n as [|a n]; [discriminate E|]. simpl String.length. lia.
Qed.

Lemma playerDoc_read (p : NetPlayerState) (srv : Z) (old : fields) :
  let d := <["updatedAt" := VTime srv]> (playerDoc p) ∪ old in
  d !! "updatedAt" = Some (VTime srv) /\
  d !! "name" = Some (VStr (name p)) /\
  d !! "x" = Some (VNum (x p)) /\ d !! "z" = Some (VNum (z p)) /\
  d !! "yaw" = Some (VNum (yaw p)) /\
  d !! "health" = Some (VNum (health p)) /\
  d !! "wanted" = Some (VNum (wanted p)) /\
  d !! "ammo" = Some (VNum (ammo p)) /\
  d !! "inCar" = Some (VBool (inCar p)).
Proof.
  cbv zeta. repeat split; apply lookup_union_Some_l; reflexivity.
Qed.

(** X12: what a client publishes about itself is what the others show: once a
    write of the player effect has reached the server, the players listener
    of any other client whose clock is not more than 15000 ms ahead of the
    server's write time lists the sender under its id, with exactly the
    state sent, the name being the sender's [safeName]. *)
Theorem published_player_is_shown (c : Client) (now srv t : Z) (me : string)
    (players : store) (w : PlayerWrite) (d : fields)
    (snap : list (string * fields)) :
  playerPublish now c = Some w ->
  landPlayerWrite (clientId c) w srv players !! clientId c = Some d ->
  (clientId c, d) ∈ snap ->
  me <> clientId c ->
  (t - srv <= STALE_MS)%Z ->
  {| rp_id := clientId c; rp_state := playerPayload c |}
    ∈ playersSnapshot me t snap /\
  name (playerPayload c) = safeName c /\
  x (playerPayload c) = x (localState c) /\
  z (playerPayload c) = z (localState c).
Proof.
  intros Hw Hd Hin Hme Ht. split; [|by repeat split].
  assert (pw_payload w = playerPayload c) as Hp.
  { unfold playerPublish in Hw. destruct (quotaBlocked c); [discriminate|].
    destruct (_ <? _)%Z; [discriminate|]. by injection Hw as <-. }
  unfold landPlayerWrite in Hd. rewrite setMerge_same in Hd.
  injection Hd as <-. rewrite Hp in Hin.
  apply list_elem_of_omap. eexists. split; [exact Hin|].
  destruct (playerDoc_read (playerPayload c) srv
              (default ∅ (players !! clientId c)))
    as (Hu & Hn & Hx & Hz & Hy & Hh & Hwa & Ha & Hc).
  unfold remotePlayerOf. cbn [fst snd].
  assert (String.eqb (clientId c) me = false) as ->
    by (apply String.eqb_neq; congruence).
  unfold updatedAtMs. rewrite Hu, Hx, Hz, Hy, Hn, Hh, Hwa, Ha, Hc.
  assert ((0 <? srv)%Z && (STALE_MS <? t - srv)%Z = false) as ->.
  { apply andb_false_iff. right. apply Z.ltb_ge. exact Ht. }
  pose proof (safeName_shown c) as Hshow.
  cbn [numOr truthy]. unfold playerPayload at 1. cbn [name].
  rewrite Hshow. reflexivity.
Qed.

(** X13: the players listener never lists the client itself, and each
    player it lists comes from a document of the snapshot under another id
    whose [x], [z] and [yaw] are numbers and whose last update is unknown or
    not older than 15000 ms; the name shown has 1 to 16 characters; and it
    lists no more players than the snapshot has documents. *)
Theorem players_listener_sound (me : string) (now : Z)
    (snap : list (string * fields)) :
  Forall
    (fun rp =>
       rp_id rp <> me /\
       (1 <= String.length (name (rp_state rp)) <= 16)%nat /\
       exists raw,
         (rp_id rp, raw) ∈ snap /\
         (updatedAtMs (Some raw) <= 0 \/
          now - updatedAtMs (Some raw) <= STALE_MS)%Z /\
         raw !! "x" = Some (VNum (x (rp_state rp))) /\
         raw !! "z" = Some (VNum (z (rp_state rp))) /\
         raw !! "yaw" = Some (VNum (yaw (rp_state rp))))
    (playersSnapshot me now snap) /\
  (List.length (playersSnapshot me now snap) <= List.length snap)%nat.
Proof.
  split.
  - apply Forall_forall. intros rp Hrp.
    apply list_elem_of_omap in Hrp as ([pid raw] & Hin & Hrp).
    unfold remotePlayerOf in Hrp. cbn [fst snd] in Hrp.
    destruct (String.eqb pid me) eqn:Eme; [discriminate|].
    apply String.eqb_neq in Eme.
    destruct (_ && _) eqn:Estale; [discriminate|].
    destruct (raw !! "x") as [[| |px| | | |]|] eqn:Ex; try discriminate.
    destruct (raw !! "z") as [[| |pz| | | |]|] eqn:Ez; try discriminate.
    destruct (raw !! "yaw") as [[| |pyaw| | | |]|] eqn:Ey; try discriminate.
    injection Hrp as <-. cbn [rp_id rp_state name x z yaw].
    split; [exact Eme|]. split; [apply shownName_length|].
    exists raw. split; [exact Hin|]. split; [|by repeat split].
    apply andb_false_iff in Estale as [E|E]; apply Z.ltb_ge in E; [by left|by right].
  - unfold playersSnapshot. induction snap as [|item snap IH]; simpl; [lia|].
    change (omap (remotePlayerOf me now) snap)
      with (list_omap _ _ (remotePlayerOf me now) snap) in IH.
    destruct (remotePlayerOf me now item); simpl; lia.
Qed.

End PlayersFacts.

(** ** The cars as the clients see them *)

Section CarsFacts.

Import JS Net.
Local Open Scope Q_scope.

Lemma default_Some {A : Type} (d a : A) : default d (Some a) = a.
Proof. reflexivity. Qed.

Lemma byId_keys (prev : list fields) (m0 : gmap string fields) :
  (forall k c, m0 !! k = Some c -> idOf c = k) ->
  forall k c,
    fold_left (fun m c => <[idOf c := c]> m) prev m0 !! k = Some c ->
    idOf c = k.
Proof.
  revert m0. induction prev as [|a prev IH]; intros m0 H0 k c; simpl.
  - apply H0.
  - apply IH. intros k' c' H.
    destruct (decide (idOf a = k')) as [<-|Hne].
    + rewrite lookup_insert_eq in H. by injection H as <-.
    + rewrite lookup_insert_ne in H by exact Hne. by apply H0.
Qed.

Lemma byId_source (prev : list fields) (m0 : gmap string fields)
    (k : string) (c : fields) :
  fold_left (fun m c => <[idOf c := c]> m) prev m0 !! k = Some c ->
  c ∈ prev \/ m0 !! k = Some c.
Proof.
  revert m0. induction prev as [|a prev IH]; intros m0 H; simpl in H;
    [by right|].
  destruct (IH _ H) as [Hin|Hm].
  - left. apply elem_of_cons. by right.
  - destruct (decide (idOf a = k)) as [E|E].
    + rewrite E, lookup_insert_eq in Hm. injection Hm as <-.
      left. apply elem_of_cons. by left.
    + rewrite lookup_insert_ne in Hm by exact E. by right.
Qed.

Lemma shownCar_id (baseCar : fields) (raw : option fields) (oldCar : fields) :
  idOf (shownCar baseCar raw oldCar) = idOf baseCar.
Proof.
  unfold idOf at 1, shownCar.
  rewrite !lookup_insert_ne by done. by rewrite lookup_insert_eq.
Qed.

Lemma carsListener_map (baseCar : fields) (raw : option fields)
    (prev : list fields) :
  exists g : fields -> fields,
    carsListener baseCar raw prev = map g DEFAULT_CARS /\
    (forall c, idOf (g c) = idOf c) /\
    (exists oldCar, g baseCar = shownCar baseCar raw oldCar /\
       (oldCar = baseCar \/ oldCar ∈ prev)) /\
    (forall c, idOf c <> idOf baseCar ->
       g c = default c
               (fold_left (fun (m : gmap string fields) c => <[idOf c := c]> m)
                  prev ∅ !! idOf c)).
Proof.
  unfold carsListener. cbv zeta.
  set (byId := fold_left _ prev ∅).
  set (oldCar := default baseCar (byId !! idOf baseCar)).
  fold (shownCar baseCar raw oldCar).
  exists (fun c => default c
            (<[idOf baseCar := shownCar baseCar raw oldCar]> byId !! idOf c)).
  split; [reflexivity|]. split; [|split].
  - intros c. destruct (decide (idOf baseCar = idOf c)) as [E|E].
    + rewrite <- E, lookup_insert_eq. simpl. by rewrite shownCar_id.
    + rewrite lookup_insert_ne by exact E.
      destruct (byId !! idOf c) as [c'|] eqn:Ec; simpl; [|reflexivity].
      eapply byId_keys; [|exact Ec]. intros k c0 H.
      by rewrite lookup_empty in H.
  - exists oldCar. rewrite lookup_insert_eq. split; [reflexivity|].
    subst oldCar. destruct (byId !! idOf baseCar) as [c'|] eqn:Ec; simpl;
      [right|by left].
    subst byId. destruct (byId_source _ _ _ _ Ec) as [Hin|Hm]; [exact Hin|].
    by rewrite lookup_empty in Hm.
  - intros c Hne. by rewrite lookup_insert_ne by congruence.
Qed.

Lemma findCar_map (g : fields -> fields) (k : string) (cars : list fields) :
  (forall c, idOf (g c) = idOf c) ->
  findCar k (map g cars) = g <$> findCar k cars.
Proof.
  intros Hg. unfold findCar. induction cars as [|c cars IH]; simpl;
    [reflexivity|].
  rewrite Hg. destruct (String.eqb (idOf c) k); [reflexivity|exact IH].
Qed.

Lemma findCar_default (baseCar : fields) :
  baseCar ∈ DEFAULT_CARS -> findCar (idOf baseCar) DEFAULT_CARS = Some baseCar.
Proof.
  intros H. unfold DEFAULT_CARS in H.
  repeat (apply elem_of_cons in H as [->|H]); try reflexivity.
  by apply elem_of_nil in H.
Qed.

(** The entry of [baseCar] after a snapshot of its document. *)
Lemma carsListener_entry (baseCar : fields) (raw : option fields)
    (prev : list fields) :
  baseCar ∈ DEFAULT_CARS ->
  exists oldCar,
    findCar (idOf baseCar) (carsListener baseCar raw prev)
    = Some (shownCar baseCar raw oldCar).
Proof.
  intros Hb.
  destruct (carsListener_map baseCar raw prev)
    as (g & -> & Hg & (oldCar & Hold & _) & _).
  exists oldCar. rewrite (findCar_map g _ _ Hg), (findCar_default _ Hb).
  simpl. by rewrite Hold.
Qed.

(** X14: whatever snapshots arrive, the state [cars] holds the four default
    cars, in their order and under their ids; in the entry of the car whose
    document was read the driver is the document's [driverId] when that is a
    string and null otherwise, a property the document has is shown with the
    document's value, and one it lacks keeps the value shown before. *)
Theorem cars_listener_fleet (baseCar : fields) (raw : option fields)
    (prev : list fields) :
  map idOf (carsListener baseCar raw prev)
  = ["car-1"; "car-2"; "car-3"; "car-4"]%string /\
  (baseCar ∈ DEFAULT_CARS ->
   exists car oldCar,
     findCar (idOf baseCar) (carsListener baseCar raw prev) = Some car /\
     (oldCar = baseCar \/ oldCar ∈ prev) /\
     car !! "driverId" = Some (strOrNull (default ∅ raw !! "driverId")) /\
     car !! "driverName" = Some (strOrNull (default ∅ raw !! "driverName")) /\
     forall k,
       k <> "id"%string -> k <> "driverId"%string ->
       k <> "driverName"%string ->
       car !! k = match default ∅ raw !! k with
                  | Some v => Some v
                  | None => oldCar !! k
                  end).
Proof.
  destruct (carsListener_map baseCar raw prev)
    as (g & Hmap & Hg & (oldCar & Hold & Hwhere) & _).
  split.
  - rewrite Hmap, map_map.
    rewrite (map_ext _ idOf Hg). reflexivity.
  - intros Hb. exists (shownCar baseCar raw oldCar), oldCar.
    rewrite Hmap, (findCar_map g _ _ Hg), (findCar_default _ Hb).
    simpl. rewrite Hold. split; [reflexivity|]. split; [exact Hwhere|].
    unfold shownCar.
    split; [by rewrite lookup_insert_ne, lookup_insert_eq by done|].
    split; [by rewrite lookup_insert_eq|].
    intros k H1 H2 H3. rewrite !lookup_insert_ne by congruence.
    rewrite lookup_union. destruct (default ∅ raw !! k), (oldCar !! k);
      reflexivity.
Qed.

(** X15: a seat taken is shown taken: when [tryEnterCar] of a client whose
    writes are not suspended commits and answers true on one of the default
    cars, the cars listener of any client, on the document as it is then,
    shows that car with the caller as its driver, under the caller's
    [safeName]. *)
Theorem entered_car_is_shown_driven (baseCar : fields) (now srv : Z)
    (c c' : Client) (st st' : store) (prev : list fields) :
  baseCar ∈ DEFAULT_CARS ->
  quotaBlocked c = false ->
  tryEnterCar (idOf baseCar) (TxCommits now srv) c st
  = (Resolved true, c', st') ->
  exists car,
    findCar (idOf baseCar) (carsListener baseCar (st' !! idOf baseCar) prev)
    = Some car /\
    car !! "driverId" = Some (VStr (clientId c)) /\
    car !! "driverName" = Some (VStr (safeName c)).
Proof.
  intros Hb Hq H. unfold tryEnterCar in H. rewrite Hq in H.
  destruct (occupiedByOther _ _ _); [discriminate|].
  injection H as _ <-.
  destruct (carsListener_entry baseCar
              (setMerge (idOf baseCar)
                 (<["driverName" := VStr (safeName c)]>
                    (<["driverId" := VStr (clientId c)]> ∅)) srv st
               !! idOf baseCar) prev Hb) as [oldCar ->].
  eexists. split; [reflexivity|].
  rewrite setMerge_same. unfold shownCar. rewrite !default_Some.
  split.
  - rewrite lookup_insert_ne, lookup_insert_eq by done.
    f_equal. by erewrite lookup_union_Some_l by reflexivity.
  - rewrite lookup_insert_eq.
    f_equal. by erewrite lookup_union_Some_l by reflexivity.
Qed.

(** X16: a seat given up is shown free: when [leaveCar] of a client whose
    writes are not suspended commits and answers true on one of the default
    cars, the cars listener, on the document as it is then, shows that car
    without a driver and with the values of the final-state patch (other than
    an id or a driver the patch may name). *)
Theorem left_car_is_shown_free (baseCar : fields) (patch : option fields)
    (now srv : Z) (c c' : Client) (st st' : store) (prev : list fields) :
  baseCar ∈ DEFAULT_CARS ->
  quotaBlocked c = false ->
  leaveCar (idOf baseCar) patch (TxCommits now srv) c st
  = (Resolved true, c', st') ->
  exists car,
    findCar (idOf baseCar) (carsListener baseCar (st' !! idOf baseCar) prev)
    = Some car /\
    car !! "driverId" = Some VNull /\
    car !! "driverName" = Some VNull /\
    forall k v,
      default ∅ patch !! k = Some v ->
      k <> "id"%string -> k <> "driverId"%string ->
      k <> "driverName"%string -> k <> "updatedAt"%string ->
      car !! k = Some v.
Proof.
  intros Hb Hq H. unfold leaveCar in H. rewrite Hq in H.
  destruct (_ && _); [discriminate|].
  injection H as _ <-.
  destruct (carsListener_entry baseCar
              (setMerge (idOf baseCar)
                 (<["driverName" := VNull]>
                    (<["driverId" := VNull]> (default ∅ patch))) srv st
               !! idOf baseCar) prev Hb) as [oldCar ->].
  eexists. split; [reflexivity|].
  rewrite setMerge_same. unfold shownCar. rewrite !default_Some.
  set (d := <["updatedAt" := VTime srv]> _ ∪ default ∅ (st !! idOf baseCar)).
  assert (d !! "driverId" = Some VNull) as Hd1.
  { apply lookup_union_Some_l.
    by rewrite lookup_insert_ne, lookup_insert_ne, lookup_insert_eq by done. }
  assert (d !! "driverName" = Some VNull) as Hd2.
  { apply lookup_union_Some_l.
    by rewrite lookup_insert_ne, lookup_insert_eq by done. }
  split; [|split].
  - by rewrite lookup_insert_ne, lookup_insert_eq, Hd1 by done.
  - by rewrite lookup_insert_eq, Hd2.
  - intros k v Hk H1 H2 H3 H4. rewrite !lookup_insert_ne by congruence.
    apply lookup_union_Some_l. apply lookup_union_Some_l.
    by rewrite !lookup_insert_ne by congruence.
Qed.

End CarsFacts.

(** ** Cleaning up a room *)

Section RoomFacts.

Import JS Net.

Lemma scanPlayers_spec (me : string) (now : Z)
    (snap : list (string * fields)) :
  scanPlayers me now snap
  = (map fst (List.filter (fun it => negb (isLive now it.2)) snap),
     List.length (List.filter (fun it => isLive now it.2) snap),
     existsb (fun it => isLive now it.2 && String.eqb it.1 me) snap).
Proof.
  unfold scanPlayers.
  assert (forall (s0 : list string) (n0 : nat) (b0 : bool),
    fold_left
      (fun (acc : list string * nat * bool) (item : string * fields) =>
         let '(staleRefs, liveCount, selfLive) := acc in
         if isLive now item.2
         then (staleRefs, S liveCount, selfLive || String.eqb item.1 me)
         else (staleRefs ++ [item.1], liveCount, selfLive))
      snap (s0, n0, b0)
    = (s0 ++ map fst (List.filter (fun it => negb (isLive now it.2)) snap),
       (n0 + List.length (List.filter (fun it => isLive now it.2) snap))%nat,
       b0 || existsb (fun it => isLive now it.2 && String.eqb it.1 me) snap))
    as H.
  { induction snap as [|it snap IH]; intros s0 n0 b0; simpl.
    - by rewrite app_nil_r, Nat.add_0_r, orb_false_r.
    - destruct (isLive now it.2); simpl; rewrite IH.
      + by rewrite Nat.add_succ_r, orb_assoc.
      + by rewrite <- app_assoc. }
  apply H.
Qed.

Lemma deleteDocs_sub (ok : string -> bool) (ids : list string) (col : store)
    (k : string) (d : fields) :
  deleteDocs ok ids col !! k = Some d -> col !! k = Some d.
Proof.
  unfold deleteDocs. revert col.
  induction ids as [|i ids IH]; intros col H; simpl in H; [exact H|].
  apply IH in H. destruct (ok i); [|exact H].
  destruct (decide (i = k)) as [->|E].
  - by rewrite lookup_delete_eq in H.
  - by rewrite lookup_delete_ne in H.
Qed.

Lemma deleteDocs_keep (ok : string -> bool) (ids : list string) (col : store)
    (k : string) :
  (k ∉ ids \/ ok k = false) -> deleteDocs ok ids col !! k = col !! k.
Proof.
  unfold deleteDocs. revert col.
  induction ids as [|i ids IH]; intros col H; simpl; [reflexivity|].
  rewrite IH.
  - destruct (ok i) eqn:Ei; [|reflexivity].
    apply lookup_delete_ne. intros ->.
    destruct H as [H|H]; [|congruence]. apply H. apply elem_of_cons. by left.
  - destruct H as [H|H]; [left|by right].
    intros Hin. apply H. apply elem_of_cons. by right.
Qed.

Lemma deleteDocs_gone (ok : string -> bool) (ids : list string) (col : store)
    (k : string) :
  k ∈ ids -> ok k = true -> deleteDocs ok ids col !! k = None.
Proof.
  intros Hin Hok.
  destruct (deleteDocs ok ids col !! k) as [d|] eqn:E; [|reflexivity].
  exfalso. unfold deleteDocs in E. revert col E.
  induction ids as [|i ids IH]; intros col E; [by apply elem_of_nil in Hin|].
  simpl in E. destruct (decide (i = k)) as [->|Hne].
  - rewrite Hok in E. apply (deleteDocs_sub ok ids) in E.
    by rewrite lookup_delete_eq in E.
  - apply elem_of_cons in Hin as [->|Hin]; [done|]. by eapply IH.
Qed.

(** The keys of the live documents of a snapshot. *)
Lemma live_stays (me : string) (now : Z) (ok : string -> bool)
    (players : store) (pid : string) (raw : fields) :
  players !! pid = Some raw ->
  isLive now raw = true ->
  deleteDocs ok
    (map fst (List.filter (fun it => negb (isLive now it.2))
                (map_to_list players))) players !! pid
  = Some raw.
Proof.
  intros Hp Hl. rewrite deleteDocs_keep; [exact Hp|]. left.
  intros Hin. apply list_elem_of_fmap in Hin as ([pid' raw'] & E & Hin).
  simpl in E. subst pid'.
  apply list_elem_of_In, filter_In in Hin as [Hin Hdead].
  apply list_elem_of_In, elem_of_map_to_list in Hin. simpl in Hdead.
  rewrite Hp in Hin. injection Hin as <-. by rewrite Hl in Hdead.
Qed.

Lemma stale_goes (now : Z) (ok : string -> bool) (players : store)
    (pid : string) (raw : fields) :
  players !! pid = Some raw ->
  isLive now raw = false ->
  ok pid = true ->
  deleteDocs ok
    (map fst (List.filter (fun it => negb (isLive now it.2))
                (map_to_list players))) players !! pid
  = None.
Proof.
  intros Hp Hl Hok. apply deleteDocs_gone; [|exact Hok].
  apply list_elem_of_fmap. exists (pid, raw). split; [reflexivity|].
  apply list_elem_of_In, filter_In. split.
  - by apply list_elem_of_In, elem_of_map_to_list.
  - simpl. by rewrite Hl.
Qed.

(** When another player is live, the room is not taken for empty. *)
Lemma other_live_counts (me : string) (now : Z) (players : store)
    (pid : string) (raw : fields) :
  pid <> me ->
  players !! pid = Some raw ->
  isLive now raw = true ->
  let snap := map_to_list players in
  let liveCount :=
    List.length (List.filter (fun it => isLive now it.2) snap) in
  let selfLive :=
    existsb (fun it => isLive now it.2 && String.eqb it.1 me) snap in
  (liveCount =? 0)%nat = false /\
  (liveCount =? 1)%nat && selfLive = false.
Proof.
  intros Hne Hp Hl snap liveCount selfLive.
  assert (In (pid, raw) (List.filter (fun it => isLive now it.2) snap)) as Hin.
  { apply filter_In. split; [|exact Hl].
    by apply list_elem_of_In, elem_of_map_to_list. }
  split.
  - apply Nat.eqb_neq. subst liveCount. intros H0.
    destruct (List.filter _ snap); [destruct Hin|discriminate].
  - destruct (liveCount =? 1)%nat eqn:E1; [|reflexivity]. simpl.
    apply Nat.eqb_eq in E1. subst liveCount.
    destruct selfLive eqn:Es; [|reflexivity]. exfalso.
    subst selfLive. apply existsb_exists in Es as ([pid' raw'] & Hin' & Hb).
    simpl in Hb. apply andb_true_iff in Hb as [Hl' Hme].
    apply String.eqb_eq in Hme. subst pid'.
    assert (In (me, raw') (List.filter (fun it => isLive now it.2) snap))
      as Hin2 by (apply filter_In; by split).
    destruct (List.filter _ snap) as [|a [|b l]]; try discriminate.
    destruct Hin as [->|[]]. destruct Hin2 as [E|[]]. congruence.
Qed.

(** When no other player is live, the room is taken for empty by a client
    that counts itself out. *)
Lemma nobody_else_counts (me : string) (now : Z) (players : store) :
  (forall pid raw,
     players !! pid = Some raw -> isLive now raw = true -> pid = me) ->
  let snap := map_to_list players in
  let liveCount :=
    List.length (List.filter (fun it => isLive now it.2) snap) in
  let selfLive :=
    existsb (fun it => isLive now it.2 && String.eqb it.1 me) snap in
  (liveCount =? 0)%nat || (true && (liveCount =? 1)%nat && selfLive) = true.
Proof.
  intros Hall snap liveCount selfLive.
  assert (forall it, In it (List.filter (fun it => isLive now it.2) snap) ->
                     In it snap /\ isLive now it.2 = true /\ it.1 = me) as HL.
  { intros [pid raw] Hin. apply filter_In in Hin as [Hin Hl].
    split; [exact Hin|]. split; [exact Hl|].
    apply list_elem_of_In, elem_of_map_to_list in Hin. by eapply Hall. }
  assert (NoDup (List.filter (fun it => isLive now it.2) snap).*1) as Hnd.
  { eapply sublist_NoDup; [apply (NoDup_fst_map_to_list players)|].
    apply fmap_sublist. fold snap. clear.
    induction snap as [|a l IH]; simpl; [constructor|].
    destruct (isLive now a.2); by constructor. }
  subst liveCount selfLive.
  destruct (List.filter _ snap) as [|a [|b l]] eqn:EL; simpl.
  - reflexivity.
  - destruct (HL a (or_introl eq_refl)) as (Hin & Hl & Hme).
    apply existsb_exists. exists a. split; [exact Hin|].
    rewrite Hl. simpl. by apply String.eqb_eq.
  - exfalso.
    destruct (HL a (or_introl eq_refl)) as (_ & _ & Ha).
    destruct (HL b (or_intror (or_introl eq_refl))) as (_ & _ & Hb).
    simpl in Hnd. apply NoDup_cons in Hnd as [Hnot _].
    apply Hnot. rewrite Ha, <- Hb. apply elem_of_cons. by left.
Qed.

(** X17: the cleanup of a room spares the living.  It never deletes the
    document of a player who is live (last update known and less than 30000
    ms old), it creates nothing, and as long as some other player is live,
    or any player when the caller does not count itself out, it leaves the
    cars, the chat feed and the room's document alone, whichever of the
    deletes go through. *)
Theorem cleanup_spares_the_living (me : string) (assumeSelfRemoved : bool)
    (env : CleanEnv) (r : Room) :
  let r' := maybeDeleteRoomIfEmpty me assumeSelfRemoved env r in
  (forall pid raw,
     rm_players r !! pid = Some raw -> isLive (cl_now env) raw = true ->
     rm_players r' !! pid = Some raw) /\
  (forall pid raw,
     rm_players r' !! pid = Some raw -> rm_players r !! pid = Some raw) /\
  (forall k d, rm_cars r' !! k = Some d -> rm_cars r !! k = Some d) /\
  (rm_doc r' = true -> rm_doc r = true) /\
  (forall pid raw,
     rm_players r !! pid = Some raw -> isLive (cl_now env) raw = true ->
     pid <> me \/ assumeSelfRemoved = false ->
     rm_cars r' = rm_cars r /\ rm_doc r' = rm_doc r).
Proof.
  cbv zeta. unfold maybeDeleteRoomIfEmpty.
  destruct (getDocsFails env); [by repeat split|].
  rewrite scanPlayers_spec.
  set (snap := map_to_list (rm_players r)).
  set (wipe := _ || _).
  split; [|split; [|split; [|split]]].
  - intros pid raw Hp Hl.
    assert (rm_players
              (if wipe
               then {| rm_players :=
                         deleteDocs (fun i => deleteOk env (PlayerRef i))
                           (map fst (List.filter
                              (fun it => negb (isLive (cl_now env) it.2))
                              snap)) (rm_players r);
                       rm_cars :=
                         deleteDocs (fun i => deleteOk env (CarRef i))
                           (map idOf DEFAULT_CARS ++ ["chat-feed"%string])
                           (rm_cars r);
                       rm_doc := rm_doc r && negb (deleteOk env RoomRef) |}
               else {| rm_players :=
                         deleteDocs (fun i => deleteOk env (PlayerRef i))
                           (map fst (List.filter
                              (fun it => negb (isLive (cl_now env) it.2))
                              snap)) (rm_players r);
                       rm_cars := rm_cars r; rm_doc := rm_doc r |})
            = deleteDocs (fun i => deleteOk env (PlayerRef i))
                (map fst (List.filter
                   (fun it => negb (isLive (cl_now env) it.2)) snap))
                (rm_players r)) as -> by (by destruct wipe).
    by apply (live_stays me).
  - intros pid raw H. destruct wipe; cbn [rm_players rm_cars rm_doc] in H;
      by apply deleteDocs_sub in H.
  - intros k d H. destruct wipe; cbn [rm_players rm_cars rm_doc] in H; [|exact H].
    by apply deleteDocs_sub in H.
  - intros H. destruct wipe; cbn [rm_players rm_cars rm_doc] in H; [|exact H].
    by apply andb_true_iff in H as [H _].
  - intros pid raw Hp Hl Hwho.
    assert (wipe = false) as ->; [|by split].
    subst wipe snap. destruct Hwho as [Hne|Hasr].
    + destruct (other_live_counts me (cl_now env) (rm_players r) pid raw
                  Hne Hp Hl) as [H0 H1].
      cbv zeta in H0, H1. rewrite H0. simpl.
      rewrite <- andb_assoc, H1. apply andb_false_r.
    + rewrite Hasr. simpl. rewrite orb_false_r. apply Nat.eqb_neq.
      intros H0.
      assert (In (pid, raw)
                (List.filter (fun it => isLive (cl_now env) it.2)
                   (map_to_list (rm_players r)))) as Hin.
      { apply filter_In. split; [|exact Hl].
        by apply list_elem_of_In, elem_of_map_to_list. }
      destruct (List.filter _ _); [destruct Hin|discriminate].
Qed.

(** X18: the last one out clears the room.  When a client leaves, no other
    player is live and the store answers every call, the documents of the
    four default cars, the chat feed and the room's document are gone
    afterwards, and so is every player's document, the leaver's own excepted
    when its delete failed and it still counts as live. *)
Theorem last_one_out_clears_the_room (me : string) (selfDeleteOk : bool)
    (env : CleanEnv) (r : Room) :
  getDocsFails env = false ->
  (forall ref, deleteOk env ref = true) ->
  (forall pid raw,
     rm_players r !! pid = Some raw -> isLive (cl_now env) raw = true ->
     pid = me) ->
  let r' := clean me selfDeleteOk env r in
  (forall k,
     k ∈ ["car-1"; "car-2"; "car-3"; "car-4"; "chat-feed"]%string ->
     rm_cars r' !! k = None) /\
  rm_doc r' = false /\
  (forall pid, pid <> me -> rm_players r' !! pid = None) /\
  (selfDeleteOk = true -> rm_players r' = ∅).
Proof.
  intros Hgd Hok Hall. cbv zeta. unfold clean, maybeDeleteRoomIfEmpty.
  rewrite Hgd. cbn [rm_players rm_cars rm_doc].
  set (players1 := if selfDeleteOk then _ else _).
  assert (forall pid raw,
            players1 !! pid = Some raw -> rm_players r !! pid = Some raw)
    as Hsub.
  { intros pid raw H. subst players1. destruct selfDeleteOk; [|exact H].
    destruct (decide (me = pid)) as [->|E].
    - by rewrite lookup_delete_eq in H.
    - by rewrite lookup_delete_ne in H. }
  assert (forall pid raw,
            players1 !! pid = Some raw -> isLive (cl_now env) raw = true ->
            pid = me) as Hall1 by (intros pid raw H; apply Hall; by apply Hsub).
  rewrite scanPlayers_spec.
  pose proof (nobody_else_counts me (cl_now env) players1 Hall1) as Hw.
  cbv zeta in Hw. rewrite Hw. cbn [rm_players rm_cars rm_doc].
  assert (forall pid,
            (pid <> me \/ selfDeleteOk = true) ->
            deleteDocs (fun i => deleteOk env (PlayerRef i))
              (map fst (List.filter
                 (fun it => negb (isLive (cl_now env) it.2))
                 (map_to_list players1))) players1 !! pid = None) as Hgone.
  { intros pid Hwho.
    destruct (players1 !! pid) as [raw|] eqn:Ep.
    - destruct (isLive (cl_now env) raw) eqn:El.
      + pose proof (Hall1 pid raw Ep El) as ->.
        destruct Hwho as [H| ->]; [done|].
        subst players1. by rewrite lookup_delete_eq in Ep.
      + by apply (stale_goes _ _ _ _ raw).
    - destruct (deleteDocs _ _ players1 !! pid) as [d|] eqn:Ed;
        [|reflexivity].
      apply deleteDocs_sub in Ed. congruence. }
  split; [|split; [|split]].
  - intros k Hk. apply deleteDocs_gone; [|apply Hok]. exact Hk.
  - rewrite Hok. apply andb_false_r.
  - intros pid Hne. apply Hgone. by left.
  - intros ->. apply map_eq. intros pid. rewrite lookup_empty.
    apply Hgone. by right.
Qed.

End RoomFacts.

(** ** Backoff, chat and car writes *)

Section TrafficFacts.

Import JS Net.
Local Open Scope Q_scope.

Lemma blocked_handle (e : Event) (c : Client) :
  quotaBlocked c = true -> e <> QuotaTimer ->
  snd (handle e c) = [] /\ quotaBlocked (fst (handle e c)) = true.
Proof.
  intros Hq He. destruct e as [ls now|w|label err|carId patch now|]; simpl.
  - unfold playerPublish. simpl. by rewrite Hq.
  - by split.
  - split; [reflexivity|]. unfold setWriteErr.
    by destruct (isQuotaError err).
  - unfold pushCarState. by rewrite Hq.
  - done.
Qed.

Lemma blocked_run (es : list Event) (c : Client) :
  quotaBlocked c = true -> Forall (fun e => e <> QuotaTimer) es ->
  snd (run es c) = [] /\ quotaBlocked (fst (run es c)) = true.
Proof.
  revert c. induction es as [|e es IH]; intros c Hq Hes; [by split|].
  apply Forall_cons_1 in Hes as [He Hes]. simpl.
  destruct (blocked_handle e c Hq He) as [Hout Hq1].
  destruct (handle e c) as [c1 out1]. simpl in Hout, Hq1. subst out1.
  destruct (IH c1 Hq1 Hes) as [Hout2 Hq2].
  destruct (run es c1) as [c2 out2]. simpl in *. by subst out2.
Qed.

(** X19: after a write has failed for quota, the client is silent until the
    timer fires: whatever renders, acknowledgements, further failures and car
    updates follow, no player or car write is issued and a chat message is
    dropped without touching the store; when the timer fires, writes are
    open again. *)
Theorem quota_backoff_is_silent (label : string) (err : Err) (c : Client)
    (es : list Event) :
  isQuotaError err = true ->
  Forall (fun e => e <> QuotaTimer) es ->
  let c' := fst (run es (setWriteErr label err c)) in
  snd (run es (setWriteErr label err c)) = [] /\
  quotaBlocked c' = true /\
  (forall text msgId env st,
     sendChatMessage text msgId env c' st = (c', st)) /\
  quotaBlocked (fst (run (es ++ [QuotaTimer]) (setWriteErr label err c)))
  = false.
Proof.
  intros Herr Hes. cbv zeta.
  assert (quotaBlocked (setWriteErr label err c) = true) as Hq
    by (unfold setWriteErr; by rewrite Herr).
  destruct (blocked_run es _ Hq Hes) as [Hout Hq'].
  split; [exact Hout|]. split; [exact Hq'|]. split.
  - intros text msgId env st. unfold sendChatMessage. by rewrite Hq'.
  - clear. generalize (setWriteErr label err c). intros c0. revert c0.
    induction es as [|e es IH]; intros c0; simpl.
    + reflexivity.
    + destruct (handle e c0) as [c1 out1]. specialize (IH c1).
      destruct (run (es ++ [QuotaTimer]) c1) as [c2 out2]. exact IH.
Qed.

Lemma chatRows_keeps (rnd : nat -> string) (source : list value)
    (m : value) (row : ChatMessage) :
  (forall r, chatRow r m = Some (Some row)) ->
  m ∈ source ->
  forall i rows, chatRows rnd i source = Some rows -> row ∈ rows.
Proof.
  intros Hrow Hin. induction source as [|item rest IH]; intros i rows H;
    [by apply elem_of_nil in Hin|].
  simpl in H.
  destruct (chatRow (rnd i) item) as [r|] eqn:Er; [|discriminate].
  destruct (chatRows rnd (S i) rest) as [rows'|] eqn:Erows; [|discriminate].
  injection H as <-.
  apply elem_of_cons in Hin as [<-|Hin].
  - rewrite Hrow in Er. injection Er as <-. apply elem_of_cons. by left.
  - specialize (IH Hin _ _ Erows).
    destruct r; [apply elem_of_cons; by right|exact IH].
Qed.

Lemma clean_text (text : string) :
  isEmpty (trim text) = false ->
  isEmpty (slice0 180 (trim text)) = false /\
  isEmpty (trim (slice0 180 (trim text))) = false /\
  (1 <= String.length (slice0 180 (trim text)) <= 180)%nat.
Proof.
  intros H. pose proof (trim_head text) as Hh.
  destruct (trim text) as [|a t]; [discriminate|].
  destruct (trim_slice_head 179 a t Hh) as (u & Hu & v & Hv).
  rewrite slice0_length, Hu, Hv. simpl String.length.
  repeat split; lia.
Qed.

(** X20: a chat message sent is a chat message shown: when [sendChatMessage]
    of a client whose writes are not suspended commits a text that is not
    blank, the chat listener of any client, on the feed as it is then, does
    not throw and lists the message with the sender's id, the sender's
    [safeName], the sending time and the text trimmed and cut to 180
    characters, which is not empty. *)
Theorem sent_message_is_shown (text msgId : string) (now srv : Z)
    (c : Client) (st : store) (rnd : nat -> string) :
  quotaBlocked c = false ->
  isEmpty (trim text) = false ->
  let st' := snd (sendChatMessage text msgId (TxCommits now srv) c st) in
  exists rows,
    chatSnapshot rnd (st' !! "chat-feed") = Some rows /\
    {| id := msgId; senderId := clientId c; senderName := safeName c;
       text := slice0 180 (trim text); createdAtMs := inject_Z now |} ∈ rows /\
    (List.length rows <= 40)%nat /\
    (1 <= String.length (slice0 180 (trim text)) <= 180)%nat.
Proof.
  intros Hq Htext. cbv zeta.
  destruct (clean_text text Htext) as (Hc & Htrim & Hlen).
  unfold chatSnapshot. rewrite (sendChatMessage_commit _ _ _ _ _ _ Hq Hc).
  set (m := newMessage msgId c (slice0 180 (trim text)) now).
  set (next := appendAndTrim (messagesOf (st !! "chat-feed")) m).
  destruct (chatRows_total rnd next (appendAndTrim_objects _ _) 0%nat)
    as [rows Hrows].
  rewrite Hrows. exists (sortByTime rows). split; [reflexivity|].
  split; [|split; [|exact Hlen]].
  - rewrite <- (sortByTime_perm rows).
    eapply (chatRows_keeps rnd next m); [| |exact Hrows].
    + intros r. subst m. unfold newMessage, chatRow.
      cbn [prop String.eqb Ascii.eqb Bool.eqb strOr]. rewrite Htrim.
      rewrite slice0_idem.
      pose proof (safeName_shown c) as Hshow.
      unfold shownName in Hshow.
      destruct (isEmpty (trim (safeName c))); by rewrite Hshow.
    + assert (last next = Some m) as Hlast.
      { subst next. unfold appendAndTrim. apply sliceLast_last.
        unfold CHAT_MAX_MESSAGES. lia. }
      clear -Hlast. induction next as [|a l IH]; [discriminate|].
      destruct l as [|b l].
      * injection Hlast as ->. apply elem_of_cons. by left.
      * apply elem_of_cons. right. apply IH. exact Hlast.
  - rewrite <- (Permutation_length (sortByTime_perm rows)).
    assert (List.length next <= 40)%nat as Hn
      by (subst next; apply sliceLast_length).
    clear -Hrows Hn. revert rows Hrows Hn. generalize 0%nat.
    induction next as [|a l IH]; intros i rows Hrows Hn; simpl in *.
    + injection Hrows as <-. simpl. lia.
    + destruct (chatRow (rnd i) a) as [r|]; [|discriminate].
      destruct (chatRows rnd (S i) l) as [rows'|] eqn:E; [|discriminate].
      injection Hrows as <-.
      assert (List.length rows' <= List.length l)%nat as H'.
      { clear -E. revert i rows' E. induction l as [|a l IH];
          intros i rows' E; simpl in *.
        - injection E as <-. simpl. lia.
        - destruct (chatRow (rnd (S i)) a) as [r|]; [|discriminate].
          destruct (chatRows rnd (S (S i)) l) as [rows''|] eqn:E';
            [|discriminate].
          injection E as <-. specialize (IH _ _ E').
          destruct r; simpl; lia. }
      destruct r; simpl; lia.
Qed.

Lemma occupied_by (drv me : string) (d : fields) (t : Z) :
  d !! "driverId" = Some (VStr drv) ->
  drv <> ""%string -> drv <> me ->
  (updatedAtMs (Some d) = 0 \/ t - updatedAtMs (Some d) < STALE_MS)%Z ->
  occupiedByOther me (Some d) t = true.
Proof.
  intros Hd Hne Hme Ht. unfold occupiedByOther, driverOf. rewrite Hd.
  rewrite (truthy_nonempty _ Hne). cbn [differsFrom].
  assert (String.eqb drv me = false) as -> by (by apply String.eqb_neq).
  simpl. apply orb_true_iff.
  destruct Ht as [Ht|Ht]; [left; by apply Z.eqb_eq|right; by apply Z.ltb_lt].
Qed.

(** A car that names a driver stays shut to the others while its last
    update is unknown or fresh. *)
Lemma refused_while_fresh (carId drv : string) (d : fields) (st : store)
    (other : Client) (t srv : Z) :
  st !! carId = Some d ->
  d !! "driverId" = Some (VStr drv) ->
  drv <> ""%string ->
  quotaBlocked other = false ->
  clientId other <> drv ->
  (updatedAtMs (Some d) = 0 \/ t - updatedAtMs (Some d) < STALE_MS)%Z ->
  tryEnterCar carId (TxCommits t srv) other st = (Resolved false, other, st).
Proof.
  intros Hst Hd Hdrv Hq Hne Ht. unfold tryEnterCar. rewrite Hq, Hst.
  rewrite (occupied_by drv (clientId other) d t); try done.
Qed.

(** The document of a car once a write of [pushCarState] has arrived. *)
Lemma landCarWrite_doc (carId : string) (patch : fields) (now srv : Z)
    (c c' : Client) (w : CarWrite) (st : store) :
  pushCarState carId patch now c = (c', Some w) ->
  exists d,
    landCarWrite w srv st !! carId = Some d /\
    d !! "driverId" = Some (VStr (clientId c)) /\
    d !! "updatedAt" = Some (VTime srv) /\
    (forall k v,
       patch !! k = Some v ->
       k <> "driverId"%string -> k <> "driverName"%string ->
       k <> "updatedAt"%string -> d !! k = Some v) /\
    (forall i, i <> carId -> landCarWrite w srv st !! i = st !! i).
Proof.
  intros Hpush. unfold pushCarState in Hpush.
  destruct (quotaBlocked c); [discriminate|].
  destruct (_ <? _)%Z; [discriminate|].
  injection Hpush as _ <-. unfold landCarWrite. cbn [cw_id cw_data].
  set (data := <["driverName" := VStr (safeName c)]>
                 (<["driverId" := VStr (clientId c)]> patch)).
  exists (<["updatedAt" := VTime srv]> data ∪ default ∅ (st !! carId)).
  split; [apply setMerge_same|]. split; [|split; [|split]].
  - apply lookup_union_Some_l. subst data.
    by rewrite lookup_insert_ne, lookup_insert_ne, lookup_insert_eq by done.
  - apply lookup_union_Some_l. by rewrite lookup_insert_eq.
  - intros k v Hk H1 H2 H3. apply lookup_union_Some_l. subst data.
    by rewrite !lookup_insert_ne by congruence.
  - intros i Hi. by apply setMerge_other.
Qed.

(** X21: a car write takes the seat, whoever held it.  Once a write issued by
    [pushCarState] has reached the server, the car's document names the
    sender as the driver and carries the patch, whatever the document held
    before; and [tryEnterCar] of any other client whose clock is less than
    15000 ms ahead of the server's write time is refused and writes
    nothing. *)
Theorem car_write_takes_the_seat (carId : string) (patch : fields)
    (now srv : Z) (c c' : Client) (w : CarWrite) (st : store) :
  pushCarState carId patch now c = (c', Some w) ->
  clientId c <> ""%string ->
  let st' := landCarWrite w srv st in
  driverOf (st' !! carId) = Some (VStr (clientId c)) /\
  (forall k v,
     patch !! k = Some v ->
     k <> "driverId"%string -> k <> "driverName"%string ->
     k <> "updatedAt"%string ->
     exists d, st' !! carId = Some d /\ d !! k = Some v) /\
  (forall i, i <> carId -> st' !! i = st !! i) /\
  forall (other : Client) (t srv2 : Z),
    quotaBlocked other = false ->
    clientId other <> clientId c ->
    (t - srv < STALE_MS)%Z ->
    tryEnterCar carId (TxCommits t srv2) other st'
    = (Resolved false, other, st').
Proof.
  intros Hpush Hid. cbv zeta.
  destruct (landCarWrite_doc carId patch now srv c c' w st Hpush)
    as (d & Hd & Hdrv & Hupd & Hpatch & Hother).
  split; [|split; [|split]].
  - unfold driverOf. by rewrite Hd.
  - intros k v Hk H1 H2 H3. exists d. split; [exact Hd|]. by apply Hpatch.
  - exact Hother.
  - intros other t srv2 Hq Hne Ht.
    apply (refused_while_fresh carId (clientId c) d); try assumption.
    right. unfold updatedAtMs. by rewrite Hupd.
Qed.

End TrafficFacts.

(** ** Getting in and out of a car *)

Section SceneFacts.

Import JS Net Scene.
Local Open Scope Q_scope.

Variable Math_sin Math_cos : Q -> Q.

Lemma nearestCar_fold (p : Q * Q) (cars : list NetCarState)
    (best : option (NetCarState * Q)) (seen : list NetCarState) :
  match best with
  | None => seen = []
  | Some (c, m) =>
      c ∈ seen /\ m = dist2 p c /\ forall c', c' ∈ seen -> m <= dist2 p c'
  end ->
  match
    fold_left
      (fun (best : option (NetCarState * Q)) c =>
         match best with
         | None => Some (c, dist2 p c)
         | Some (_, m) =>
             if Qltb (dist2 p c) m then Some (c, dist2 p c) else best
         end) cars best
  with
  | None => seen ++ cars = []
  | Some (c, m) =>
      c ∈ seen ++ cars /\ m = dist2 p c /\
      forall c', c' ∈ seen ++ cars -> m <= dist2 p c'
  end.
Proof.
  revert best seen. induction cars as [|a cars IH]; intros best seen H.
  - simpl. rewrite app_nil_r. exact H.
  - simpl. replace (seen ++ a :: cars) with ((seen ++ [a]) ++ cars)
      by (by rewrite <- app_assoc).
    apply IH. destruct best as [[c m]|].
    + destruct H as (Hin & Hm & Hmin).
      destruct (Qltb (dist2 p a) m) eqn:E.
      * apply Qltb_lt in E. split; [set_solver|]. split; [reflexivity|].
        intros c' Hc'. apply elem_of_app in Hc' as [Hc'|Hc'].
        -- specialize (Hmin c' Hc'). lra.
        -- apply list_elem_of_singleton in Hc'. subst c'. lra.
      * apply Qltb_ge in E. split; [set_solver|]. split; [exact Hm|].
        intros c' Hc'. apply elem_of_app in Hc' as [Hc'|Hc'].
        -- by apply Hmin.
        -- apply list_elem_of_singleton in Hc'. by subst c'.
    + subst seen. split; [set_solver|]. split; [reflexivity|].
      intros c' Hc'. apply list_elem_of_singleton in Hc'. subst c'. lra.
Qed.

(** The loop finds a car that is nearest, when there is a car at all. *)
Lemma nearestCar_spec (p : Q * Q) (cars : list NetCarState) :
  match nearestCar p cars with
  | None => cars = []
  | Some (c, m) =>
      c ∈ cars /\ m = dist2 p c /\ forall c', c' ∈ cars -> m <= dist2 p c'
  end.
Proof. apply (nearestCar_fold p cars None []). reflexivity. Qed.

Section Callbacks.

Context {S : Type}.
Variable onTryEnterCar : string -> S -> Promise bool * S.
Variable onLeaveCar : string -> option fields -> S -> Promise bool * S.

(** X22: getting out comes first on the client.  When the player drives a car
    whose state is known (the state of the last frame, or else its entry in
    the list of cars), the key [e] puts the player on foot next to the car,
    1.8 to its right at height 1, clears the driven car and the in-car flag,
    and calls [onLeaveCar] once with the car and the state of the last
    frame, whatever that call answers or however it fails. *)
Theorem leaving_is_local_first (cars : list NetCarState) (w : Local) (h : S)
    (carId : string) :
  drivenCarId w = Some carId ->
  carId <> ""%string ->
  (is_Some (activeCarState w) \/ exists f, f ∈ cars /\ car_id f = carId) ->
  let r := pressE Math_sin Math_cos onTryEnterCar onLeaveCar cars w h in
  drivenCarId r.1 = None /\ inCarFlag r.1 = false /\
  activeCarState r.1 = None /\ activeCarSpawnAt r.1 = None /\
  playerPos r.1 = playerPos w /\
  r.2 = (onLeaveCar carId (carStatePatch <$> activeCarState w) h).2 /\
  (exists yaw baseX baseZ,
     spawnAt r.1
     = Some (baseX + Math_cos yaw * 1.8, 1, baseZ + - Math_sin yaw * 1.8) /\
     match activeCarState w with
     | Some l => yaw = Car.s_yaw l /\ baseX = Car.s_x l /\ baseZ = Car.s_z l
     | None =>
         exists f, f ∈ cars /\ car_id f = carId /\
                   yaw = car_yaw f /\ baseX = car_x f /\ baseZ = car_z f
     end).
Proof.
  intros Hd Hid Hknown. cbv zeta. unfold pressE. rewrite Hd.
  assert (truthyId (Some carId) = true) as ->
    by (destruct carId; [congruence|reflexivity]).
  cbn [default from_option]. unfold Datatypes.id.
  destruct (activeCarState w) as [l|] eqn:El.
  - cbn [fmap option_fmap option_map].
    destruct (onLeaveCar carId (Some (carStatePatch l)) h) as [r h'].
    cbn [fst snd drivenCarId inCarFlag activeCarState activeCarSpawnAt
         spawnAt playerPos].
    repeat split. exists (Car.s_yaw l), (Car.s_x l), (Car.s_z l).
    by repeat split.
  - destruct Hknown as [[l Hl]|(f & Hf & Hfid)]; [discriminate|].
    destruct (List.find (fun c => String.eqb (car_id c) carId) cars)
      as [f'|] eqn:Efind.
    + cbn [fmap option_fmap option_map].
      destruct (onLeaveCar carId None h) as [r h'].
      cbn [fst snd drivenCarId inCarFlag activeCarState activeCarSpawnAt
           spawnAt playerPos].
      repeat split. exists (car_yaw f'), (car_x f'), (car_z f').
      split; [reflexivity|]. exists f'.
      apply find_some in Efind as [Hin Heq].
      apply String.eqb_eq in Heq. apply list_elem_of_In in Hin.
      by repeat split.
    + exfalso. apply list_elem_of_In in Hf.
      pose proof (find_none _ _ Efind f Hf) as Hno. simpl in Hno.
      apply String.eqb_neq in Hno. congruence.
Qed.

(** X23: getting in needs a car within reach and a yes.  On foot, the key [e]
    changes nothing and asks nothing when no car is nearer than 4.6; and when
    it puts the player into a car, that car is one of the nearest, nearer
    than 4.6, [onTryEnterCar] was called for it and answered true, or failed
    while the list of cars showed it without a driver; the car is then
    driven from the place the list shows it at. *)
Theorem entering_needs_a_near_car (cars : list NetCarState) (w : Local)
    (h : S) :
  truthyId (drivenCarId w) = false ->
  let r := pressE Math_sin Math_cos onTryEnterCar onLeaveCar cars w h in
  ((forall c, c ∈ cars ->
      ENTER_CAR_DISTANCE * ENTER_CAR_DISTANCE <= dist2 (playerPos w) c) ->
   r = (w, h)) /\
  (r.1 = w \/
   exists nearest,
     nearest ∈ cars /\
     dist2 (playerPos w) nearest < ENTER_CAR_DISTANCE * ENTER_CAR_DISTANCE /\
     (forall c, c ∈ cars ->
        dist2 (playerPos w) nearest <= dist2 (playerPos w) c) /\
     drivenCarId r.1 = Some (car_id nearest) /\ inCarFlag r.1 = true /\
     activeCarSpawnAt r.1
     = Some (car_x nearest, car_y nearest, car_z nearest, car_yaw nearest) /\
     spawnAt r.1 = spawnAt w /\
     r.2 = (onTryEnterCar (car_id nearest) h).2 /\
     ((onTryEnterCar (car_id nearest) h).1 = Resolved true \/
      (exists e, (onTryEnterCar (car_id nearest) h).1 = Rejected e) /\
      truthyId (car_driverId nearest) = false)).
Proof.
  intros Hfoot. cbv zeta. unfold pressE. rewrite Hfoot.
  pose proof (nearestCar_spec (playerPos w) cars) as Hn.
  destruct (nearestCar (playerPos w) cars) as [[nearest m]|].
  2:{ split; [reflexivity|by left]. }
  destruct Hn as (Hin & Hm & Hmin).
  destruct (Qle_bool (ENTER_CAR_DISTANCE * ENTER_CAR_DISTANCE) m) eqn:Efar.
  { split; [reflexivity|by left]. }
  assert (m < ENTER_CAR_DISTANCE * ENTER_CAR_DISTANCE) as Hnear.
  { apply Qnot_le_lt. intros Hle. apply Qle_bool_iff in Hle. congruence. }
  split.
  { intros Hall. specialize (Hall nearest Hin). rewrite <- Hm in Hall. lra. }
  destruct (onTryEnterCar (car_id nearest) h) as [res h'] eqn:Ecall.
  cbn [fst snd].
  destruct res as [[|]|e].
  - right. exists nearest. rewrite Ecall. cbn [fst snd drivenCarId inCarFlag
      activeCarSpawnAt spawnAt]. rewrite <- Hm.
    split; [exact Hin|]. split; [exact Hnear|]. split; [exact Hmin|].
    repeat split. by left.
  - by left.
  - destruct (truthyId (car_driverId nearest)) eqn:Edrv; cbn [negb].
    + by left.
    + right. exists nearest. rewrite Ecall. cbn [fst snd drivenCarId
        inCarFlag activeCarSpawnAt spawnAt]. rewrite <- Hm.
      split; [exact Hin|]. split; [exact Hnear|]. split; [exact Hmin|].
      repeat split. right. split; [by exists e|exact Edrv].
Qed.

End Callbacks.

(** X24: a leave that does not reach the store leaves a ghost at the wheel.
    When the driver presses [e] while its writes are suspended, or the store
    cannot be reached, or the call cannot be set up, the player is on foot
    all the same, the store still names that client as the driver, and
    [tryEnterCar] of any other client is refused as long as the car's last
    update is unknown or less than 15000 ms old on that client's clock. *)
Theorem failed_leave_keeps_the_seat_taken (cars : list NetCarState)
    (w : Local) (c : Client) (st : store) (d : fields) (carId : string)
    (live : Car.CarState) (env envIn : TxEnv) :
  drivenCarId w = Some carId ->
  carId <> ""%string ->
  activeCarState w = Some live ->
  clientId c <> ""%string ->
  st !! carId = Some d ->
  d !! "driverId" = Some (VStr (clientId c)) ->
  (quotaBlocked c = true \/ exists e, env = TxRejects e \/ env = SetupThrows e) ->
  let r := pressE Math_sin Math_cos (hookTryEnterCar envIn) (hookLeaveCar env)
             cars w (c, st) in
  drivenCarId r.1 = None /\ inCarFlag r.1 = false /\
  r.2.2 = st /\
  forall (other : Client) (t srv : Z),
    quotaBlocked other = false ->
    clientId other <> clientId c ->
    (updatedAtMs (Some d) = 0 \/ t - updatedAtMs (Some d) < STALE_MS)%Z ->
    tryEnterCar carId (TxCommits t srv) other r.2.2
    = (Resolved false, other, r.2.2).
Proof.
  intros Hd Hid Hlive Hc Hst Hdrv Hfail. cbv zeta.
  unfold pressE. rewrite Hd, Hlive.
  assert (truthyId (Some carId) = true) as ->
    by (destruct carId; [congruence|reflexivity]).
  cbn [default from_option fmap option_fmap option_map].
  unfold Datatypes.id.
  assert (exists res c', hookLeaveCar env carId (Some (carStatePatch live))
                           (c, st) = (res, (c', st))) as (res & c' & ->).
  { unfold hookLeaveCar, leaveCar. cbn [fst snd].
    destruct Hfail as [Hq|(e & [->| ->])].
    - rewrite Hq. by eexists _, _.
    - destruct (quotaBlocked c); by eexists _, _.
    - destruct (quotaBlocked c); by eexists _, _. }
  cbn [fst snd drivenCarId inCarFlag]. repeat split.
  intros other t srv Hq Hne Ht.
  by apply (refused_while_fresh carId (clientId c) d).
Qed.

(** Without frames in between, the handler is [pressE]. *)
Lemma pressE_leaving_alone (cars : list NetCarState) (now srv : Z)
    (w : Local) (h : Client * store) (envIn : TxEnv) :
  truthyId (drivenCarId w) = true ->
  pressE_leaving Math_sin Math_cos cars now srv [] [] w h
  = pressE Math_sin Math_cos (hookTryEnterCar envIn)
      (hookLeaveCar (TxCommits now srv)) cars w h.
Proof.
  intros Hd. unfold pressE_leaving, pressE. rewrite Hd.
  destruct (activeCarState w) as [l|]; [|destruct (List.find _ cars)];
    cbn [reportFrames fold_left fst snd];
    try destruct (hookLeaveCar _ _ _ _); reflexivity.
Qed.

Lemma onUpdate_driven (carId : string) (f : FrameReport) (w : Local)
    (h : Client * store) :
  drivenCarId w = Some carId ->
  let r := onUpdate (hookCarSync (fr_now f) (fr_srv f)) carId (fr_state f)
             w h in
  drivenCarId r.1 = Some carId /\
  r.2 = hookCarSync (fr_now f) (fr_srv f) carId (carStatePatch (fr_state f)) h.
Proof.
  intros Hd. unfold onUpdate. rewrite Hd, String.eqb_refl. by split.
Qed.

Lemma pushCarState_client (carId : string) (patch : fields) (now : Z)
    (c : Client) :
  let c' := (pushCarState carId patch now c).1 in
  clientId c' = clientId c /\ quotaBlocked c' = quotaBlocked c.
Proof.
  cbv zeta. unfold pushCarState. destruct (quotaBlocked c) eqn:E; [done|].
  destruct (_ <? _)%Z; simpl; by rewrite ?E.
Qed.

(** The frames of the driven car and the store: when no write is issued
    nothing changes; when one is issued the store ends with a document that
    names the client as driver and carries the server time of one of the
    frames; and a store that names the client as driver still does so at the
    end. *)
Lemma reportFrames_store (carId : string) (fs : list FrameReport) :
  forall (w : Local) (c : Client) (st : store),
    drivenCarId w = Some carId ->
    let r := reportFrames carId fs w (c, st) in
    clientId r.2.1 = clientId c /\ quotaBlocked r.2.1 = quotaBlocked c /\
    (issuesWrite carId fs c = false -> r.2 = (c, st)) /\
    (issuesWrite carId fs c = true ->
     exists d' f, f ∈ fs /\ r.2.2 !! carId = Some d' /\
                  d' !! "driverId" = Some (VStr (clientId c)) /\
                  d' !! "updatedAt" = Some (VTime (fr_srv f))) /\
    ((exists d, st !! carId = Some d /\
                d !! "driverId" = Some (VStr (clientId c))) ->
     exists d', r.2.2 !! carId = Some d' /\
                d' !! "driverId" = Some (VStr (clientId c))).
Proof.
  unfold reportFrames.
  set (step := fun (acc : Local * (Client * store)) (f : FrameReport) =>
                 onUpdate (hookCarSync (fr_now f) (fr_srv f)) carId
                   (fr_state f) acc.1 acc.2).
  induction fs as [|f fs IH]; intros w c st Hd.
  - simpl. repeat split; try done.
  - cbn [fold_left issuesWrite].
    assert (exists w1,
              drivenCarId w1 = Some carId /\
              step (w, (c, st)) f
              = (w1, hookCarSync (fr_now f) (fr_srv f) carId
                       (carStatePatch (fr_state f)) (c, st)))
      as (w1 & Hd1 & ->).
    { subst step. cbn [fst snd].
      destruct (onUpdate_driven carId f w (c, st) Hd) as [Hd1 Hh1].
      cbv zeta in Hd1, Hh1.
      destruct (onUpdate _ carId (fr_state f) w (c, st)) as [w1 h1].
      cbn [fst snd] in Hd1, Hh1. subst h1. by exists w1. }
    unfold hookCarSync. cbn [fst snd].
    pose proof (pushCarState_client carId (carStatePatch (fr_state f))
                  (fr_now f) c) as [Hid Hq]. cbv zeta in Hid, Hq.
    destruct (pushCarState carId (carStatePatch (fr_state f)) (fr_now f) c)
      as [c1 [wr|]] eqn:Epush; cbn [fst snd] in Hid, Hq.
    + destruct (landCarWrite_doc _ _ _ (fr_srv f) _ _ _ st Epush)
        as (d1 & Hd1' & Hdrv1 & Hupd1 & _).
      specialize (IH w1 c1 (landCarWrite wr (fr_srv f) st) Hd1).
      cbv zeta in IH. destruct IH as (Hc & Hqq & Hnone & Hsome & Hkeep).
      split; [congruence|]. split; [congruence|].
      split; [discriminate|]. split.
      * intros _. destruct (issuesWrite carId fs c1) eqn:Erest.
        -- destruct (Hsome eq_refl) as (d' & f' & Hin & Hst & Hdrv & Hupd).
           exists d', f'. rewrite Hid in Hdrv.
           split; [by apply elem_of_cons; right|]. by repeat split.
        -- rewrite (Hnone eq_refl). cbn [snd]. exists d1, f.
           split; [by apply elem_of_cons; left|]. by repeat split.
      * intros _. rewrite <- Hid. apply Hkeep. exists d1. by rewrite Hid.
    + apply pushCarState_skip in Epush. subst c1.
      destruct (IH w1 c st Hd1) as (Hc & Hqq & Hnone & Hsome & Hkeep).
      split; [exact Hc|]. split; [exact Hqq|]. split; [exact Hnone|].
      split; [|exact Hkeep].
      intros Hyes. destruct (Hsome Hyes) as (d' & f' & Hin & H).
      exists d', f'. split; [by apply elem_of_cons; right|exact H].
Qed.

(** X25: a leave that commits frees the seat, unless a car write of the
    leaver arrives after it.  While the handler of [e] awaits the transaction
    the player still counts as the driver and the car goes on handing its
    frames to [pushCarState].  The driver presses [e] with writes open and
    the transaction commits; the player is on foot.  When no frame issues a
    write that reaches the store after the commit, the store names no driver
    for the car and holds the state of the last frame before the key, and
    [tryEnterCar] of any other client whose writes are open answers true and
    makes that client the driver.  When a frame does, the store names the
    leaver as the driver again, with the server time of such a write, and
    [tryEnterCar] of any other client is refused until 15000 ms after that
    time. *)
Theorem leave_frees_the_seat_unless_a_write_is_late
    (cars : list NetCarState) (w : Local) (c : Client) (st : store)
    (d : fields) (carId : string) (live : Car.CarState) (now srv : Z)
    (before after : list FrameReport) :
  drivenCarId w = Some carId ->
  carId <> ""%string ->
  activeCarState w = Some live ->
  quotaBlocked c = false ->
  clientId c <> ""%string ->
  st !! carId = Some d ->
  d !! "driverId" = Some (VStr (clientId c)) ->
  let c1 := (reportFrames carId before w (c, st)).2.1 in
  let r := pressE_leaving Math_sin Math_cos cars now srv before after w
             (c, st) in
  drivenCarId r.1 = None /\ inCarFlag r.1 = false /\
  (issuesWrite carId after c1 = false ->
   (exists d', r.2.2 !! carId = Some d' /\
               d' !! "driverId" = Some VNull /\
               d' !! "x" = Some (VNum (Car.s_x live)) /\
               d' !! "z" = Some (VNum (Car.s_z live)) /\
               d' !! "yaw" = Some (VNum (Car.s_yaw live))) /\
   forall (other : Client) (t srv2 : Z),
     quotaBlocked other = false ->
     exists st2,
       tryEnterCar carId (TxCommits t srv2) other r.2.2
       = (Resolved true, other, st2) /\
       driverOf (st2 !! carId) = Some (VStr (clientId other))) /\
  (issuesWrite carId after c1 = true ->
   exists d' f,
     f ∈ after /\ r.2.2 !! carId = Some d' /\
     d' !! "driverId" = Some (VStr (clientId c)) /\
     d' !! "updatedAt" = Some (VTime (fr_srv f)) /\
     forall (other : Client) (t srv2 : Z),
       quotaBlocked other = false ->
       clientId other <> clientId c ->
       (t - fr_srv f < STALE_MS)%Z ->
       tryEnterCar carId (TxCommits t srv2) other r.2.2
       = (Resolved false, other, r.2.2)).
Proof.
  intros Hd Hid Hlive Hq Hc Hst Hdrv c1 r. subst c1 r.
  unfold pressE_leaving. rewrite Hd, Hlive.
  assert (truthyId (Some carId) = true) as ->
    by (destruct carId; [congruence|reflexivity]).
  cbn [default from_option fmap option_fmap option_map].
  unfold Datatypes.id.
  destruct (reportFrames_store carId before w c st Hd)
    as (Hid1 & Hq1 & _ & _ & Hdrv1). cbv zeta in Hid1, Hq1, Hdrv1.
  destruct (Hdrv1 (ex_intro _ d (conj Hst Hdrv)))
    as (d1 & Hst1 & Hd1). clear Hdrv1.
  destruct (reportFrames carId before w (c, st)) as [w1 [c1 st1]].
  cbn [fst snd] in *.
  unfold hookLeaveCar, leaveCar. cbn [fst snd]. rewrite Hq1, Hq, Hst1.
  assert (truthy (driverOf (Some d1))
          && differsFrom (driverOf (Some d1)) (clientId c1) = false) as ->.
  { unfold driverOf. rewrite Hd1, Hid1. cbn [differsFrom].
    rewrite String.eqb_refl. apply andb_false_r. }
  cbn [fst snd].
  set (data := <["driverName" := VNull]>
                 (<["driverId" := VNull]>
                    (default ∅ (Some (carStatePatch live))))).
  set (d2 := <["updatedAt" := VTime srv]> data ∪ default ∅ (Some d1)).
  set (st2 := setMerge carId data srv st1).
  assert (st2 !! carId = Some d2) as Hd2.
  { subst st2. rewrite setMerge_same. by rewrite Hst1. }
  assert (d2 !! "driverId" = Some VNull) as Hnull.
  { apply lookup_union_Some_l. subst data.
    by rewrite lookup_insert_ne, lookup_insert_ne, lookup_insert_eq by done. }
  destruct (reportFrames_store carId after w c1 st2 Hd)
    as (Hid3 & _ & Hnone & Hsome & _). cbv zeta in Hid3, Hnone, Hsome.
  destruct (reportFrames carId after w (c1, st2)) as [w3 [c3 st3]].
  cbn [fst snd drivenCarId inCarFlag] in *.
  split; [reflexivity|]. split; [reflexivity|]. split.
  - intros Hno. specialize (Hnone Hno). injection Hnone as _ ->. split.
    + exists d2. split; [exact Hd2|]. split; [exact Hnull|].
      repeat split; apply lookup_union_Some_l; reflexivity.
    + intros other t srv2 Hqo. eexists. unfold tryEnterCar.
      rewrite Hqo, Hd2.
      assert (occupiedByOther (clientId other) (Some d2) t = false) as ->.
      { unfold occupiedByOther, driverOf. by rewrite Hnull. }
      split; [reflexivity|].
      rewrite setMerge_same. unfold driverOf.
      apply lookup_union_Some_l.
      by rewrite lookup_insert_ne, lookup_insert_ne, lookup_insert_eq by done.
  - intros Hyes.
    destruct (Hsome Hyes) as (d3 & f & Hin & Hst3 & Hd3 & Hupd3).
    rewrite Hid1 in Hd3.
    exists d3, f. split; [exact Hin|]. split; [exact Hst3|].
    split; [exact Hd3|]. split; [exact Hupd3|].
    intros other t srv2 Hqo Hne Ht.
    apply (refused_while_fresh carId (clientId c) d3); try assumption.
    right. unfold updatedAtMs. by rewrite Hupd3.
Qed.


(** X26: getting in without the store.  On foot and nearer than 4.6 to the
    nearest car, the key [e] leaves the store as it is when the client's
    writes are suspended or the store cannot be reached; in the first case
    the player is put into the car whatever the list of cars and the store
    say about its driver, in the second if and only if the list of cars
    shows it without a driver. *)
Theorem entry_without_the_store (cars : list NetCarState) (w : Local)
    (c : Client) (st : store) (nearest : NetCarState) (m : Q)
    (env envOut : TxEnv) :
  truthyId (drivenCarId w) = false ->
  nearestCar (playerPos w) cars = Some (nearest, m) ->
  m < ENTER_CAR_DISTANCE * ENTER_CAR_DISTANCE ->
  let r := pressE Math_sin Math_cos (hookTryEnterCar env)
             (hookLeaveCar envOut) cars w (c, st) in
  (quotaBlocked c = true ->
   r.2 = (c, st) /\ drivenCarId r.1 = Some (car_id nearest) /\
   inCarFlag r.1 = true) /\
  (quotaBlocked c = false -> (exists e, env = TxRejects e) ->
   r.2 = (c, st) /\
   (truthyId (car_driverId nearest) = false ->
    drivenCarId r.1 = Some (car_id nearest) /\ inCarFlag r.1 = true) /\
   (truthyId (car_driverId nearest) = true -> r.1 = w)).
Proof.
  intros Hfoot Hn Hm. cbv zeta. unfold pressE. rewrite Hfoot, Hn.
  assert (Qle_bool (ENTER_CAR_DISTANCE * ENTER_CAR_DISTANCE) m = false) as ->.
  { destruct (Qle_bool _ m) eqn:E; [|reflexivity].
    apply Qle_bool_iff in E. lra. }
  unfold hookTryEnterCar, tryEnterCar. cbn [fst snd]. split.
  - intros Hq. rewrite Hq. by repeat split.
  - intros Hq [e ->]. rewrite Hq. cbn [fst snd].
    destruct (truthyId (car_driverId nearest)); cbn [negb fst snd];
      repeat split; try discriminate; done.
Qed.

(** X27: calling a car takes its seat in the store.  On foot, the key [b]
    sends the first car the list shows without a driver to the player's
    side (x + 4, height 0.75, heading 0) through [pushCarState]; when the
    write is issued and arrives, the store names the caller as the driver of
    that car, although the caller is not driving, and [tryEnterCar] of any
    other client whose clock is less than 15000 ms ahead of the server's
    write time is refused. *)
Theorem calling_a_car_takes_its_seat (cars : list NetCarState) (w : Local)
    (c : Client) (st : store) (emptyCar : NetCarState) (now srv : Z) :
  truthyId (drivenCarId w) = false ->
  List.find (fun k => negb (truthyId (car_driverId k))) cars = Some emptyCar ->
  quotaBlocked c = false ->
  lastCarSent c !! car_id emptyCar = None ->
  lastCarPayload c !! car_id emptyCar = None ->
  (90 <= now)%Z ->
  clientId c <> ""%string ->
  let h := pressB (hookCarSync now srv) cars w (c, st) in
  truthyId (car_driverId emptyCar) = false /\
  (exists d,
     h.2 !! car_id emptyCar = Some d /\
     d !! "driverId" = Some (VStr (clientId c)) /\
     d !! "x" = Some (VNum ((playerPos w).1 + 4)) /\
     d !! "y" = Some (VNum 0.75) /\
     d !! "z" = Some (VNum (playerPos w).2) /\
     d !! "yaw" = Some (VNum 0)) /\
  forall (other : Client) (t srv2 : Z),
    quotaBlocked other = false ->
    clientId other <> clientId c ->
    (t - srv < STALE_MS)%Z ->
    tryEnterCar (car_id emptyCar) (TxCommits t srv2) other h.2
    = (Resolved false, other, h.2).
Proof.
  intros Hfoot Hfind Hq Hlast Hprev Hnow Hid. cbv zeta.
  unfold pressB. rewrite Hfoot, Hfind.
  set (spawn := ({[ "x" := VNum ((playerPos w).1 + 4); "y" := VNum 0.75;
                    "z" := VNum (playerPos w).2; "yaw" := VNum 0 ]} : fields)).
  assert (exists c' wr,
            pushCarState (car_id emptyCar) spawn now c = (c', Some wr))
    as (c' & wr & Hpush).
  { unfold pushCarState. rewrite Hq, Hlast, Hprev. cbn [default from_option].
    assert (carGap spawn None = 90%Z) as -> by reflexivity.
    assert ((now - 0 <? 90)%Z = false) as -> by (apply Z.ltb_ge; lia).
    by eexists _, _. }
  unfold hookCarSync. cbn [fst snd]. rewrite Hpush. cbn [fst snd].
  destruct (landCarWrite_doc _ _ _ srv _ _ _ st Hpush)
    as (d & Hd & Hdrv & Hupd & Hpatch & _).
  split.
  { apply find_some in Hfind as [_ H]. by apply negb_true_iff in H. }
  split.
  - exists d. split; [exact Hd|]. split; [exact Hdrv|].
    repeat split; apply Hpatch; done.
  - intros other t srv2 Hqo Hne Ht.
    apply (refused_while_fresh (car_id emptyCar) (clientId c) d);
      try assumption.
    right. unfold updatedAtMs. by rewrite Hupd.
Qed.

(** X30: in the older iteration of the hook, suspended writes lock the cars.
    While the client's writes are suspended, the key [e] never puts a player
    on foot into a car and asks nothing of the store; a driver still gets
    out on the client, the store keeping its driver; and a further failed
    write, of whatever kind, leaves the writes suspended. *)
Theorem suspended_writes_lock_the_cars (cars : list NetCarState) (w : Local)
    (c : Client) (st : store) (env envOut : TxEnv) :
  quotaBlocked c = true ->
  let r := pressE Math_sin Math_cos (Older.hookTryEnterCar env)
             (Older.hookLeaveCar envOut) cars w (c, st) in
  r.2 = (c, st) /\
  (truthyId (drivenCarId w) = false -> r.1 = w) /\
  (truthyId (drivenCarId w) = true -> is_Some (activeCarState w) ->
   drivenCarId r.1 = None /\ inCarFlag r.1 = false) /\
  (forall label err, quotaBlocked (Older.setWriteErr label err c) = true).
Proof.
  intros Hq. cbv zeta. unfold pressE.
  destruct (truthyId (drivenCarId w)) eqn:Edrv.
  - destruct (activeCarState w) as [live|] eqn:El.
    + cbn [fmap option_fmap option_map].
      unfold Older.hookLeaveCar, Older.leaveCar. cbn [fst snd]. rewrite Hq.
      cbn [fst snd drivenCarId inCarFlag].
      repeat split; try discriminate.
      intros label err. unfold Older.setWriteErr. cbn [quotaBlocked].
      rewrite Hq. by destruct (isQuotaError err).
    + destruct (List.find _ cars) as [f|];
        cbn [fmap option_fmap option_map];
        unfold Older.hookLeaveCar, Older.leaveCar; cbn [fst snd];
        rewrite ?Hq; cbn [fst snd];
        (split; [reflexivity|]); (split; [discriminate|]);
        (split; [intros _ [l Hl]; discriminate Hl|]);
        intros label err; unfold Older.setWriteErr; cbn [quotaBlocked];
        rewrite Hq; by destruct (isQuotaError err).
  - assert (forall label err,
              quotaBlocked (Older.setWriteErr label err c) = true) as Hstay.
    { intros label err. unfold Older.setWriteErr. cbn [quotaBlocked].
      rewrite Hq. by destruct (isQuotaError err). }
    destruct (nearestCar (playerPos w) cars) as [[nearest m]|];
      [|by repeat split].
    destruct (Qle_bool _ m); [by repeat split|].
    unfold Older.hookTryEnterCar, Older.tryEnterCar. cbn [fst snd].
    rewrite Hq. cbn [fst snd]. by repeat split.
Qed.

End SceneFacts.

(** ** Room codes *)

Section CodeFacts.

Import Net App.

Lemma upperAscii_code (a : ascii) : isCodeChar a = true -> upperAscii a = a.
Proof.
  destruct a as [[] [] [] [] [] [] [] []]; vm_compute; congruence.
Qed.

Lemma upper_lower (a : ascii) : upperAscii (lowerAscii a) = upperAscii a.
Proof. destruct a as [[] [] [] [] [] [] [] []]; reflexivity. Qed.

Lemma keepCodeChars_code (s : string) :
  Forall (fun a => isCodeChar a = true)
    (list_ascii_of_string (keepCodeChars s)).
Proof.
  induction s as [|a s IH]; simpl; [constructor|].
  destruct (isCodeChar a) eqn:E; [|exact IH]. simpl. by constructor.
Qed.

Lemma slice0_code (n : nat) (s : string) :
  Forall (fun a => isCodeChar a = true) (list_ascii_of_string s) ->
  Forall (fun a => isCodeChar a = true) (list_ascii_of_string (slice0 n s)).
Proof.
  unfold slice0. revert s. induction n as [|n IH]; intros [|a s] H; simpl;
    try constructor.
  - by apply Forall_cons_1 in H as [H _].
  - apply IH. by apply Forall_cons_1 in H as [_ H].
Qed.

Lemma code_fixed (s : string) :
  Forall (fun a => isCodeChar a = true) (list_ascii_of_string s) ->
  keepCodeChars (toUpperCase s) = s.
Proof.
  induction s as [|a s IH]; intros H; simpl; [reflexivity|].
  simpl in H. apply Forall_cons_1 in H as [Ha H].
  rewrite (upperAscii_code a Ha), Ha, (IH H). reflexivity.
Qed.

Lemma toUpperCase_lower (s : string) :
  toUpperCase (toLowerCase s) = toUpperCase s.
Proof.
  induction s as [|a s IH]; simpl; [reflexivity|].
  by rewrite upper_lower, IH.
Qed.

(** X28: a room code is the fallback, or 1 to 8 characters out of A-Z and
    0-9; upper and lower case in the input make no difference; and a code
    that came out of the input, normalised again, is itself.  (Text is ASCII
    here.) *)
Theorem room_code_shape (input fallback : string) :
  let code := normalizeRoomCode input fallback in
  (code = fallback \/
   (1 <= String.length code <= 8)%nat /\
   Forall (fun a => isCodeChar a = true) (list_ascii_of_string code)) /\
  normalizeRoomCode (toLowerCase input) fallback = code /\
  (keepCodeChars (toUpperCase input) <> ""%string ->
   forall fallback', normalizeRoomCode code fallback' = code).
Proof.
  cbv zeta.
  set (cleaned := keepCodeChars (toUpperCase input)).
  assert (Forall (fun a => isCodeChar a = true)
            (list_ascii_of_string (slice0 8 cleaned))) as Hcode
    by (apply slice0_code, keepCodeChars_code).
  assert (normalizeRoomCode input fallback
          = if isEmpty (slice0 8 cleaned) then fallback else slice0 8 cleaned)
    as Hdef by reflexivity.
  split; [|split].
  - rewrite Hdef.
    destruct (isEmpty (slice0 8 cleaned)) eqn:E; [by left|right].
    split; [|exact Hcode]. rewrite slice0_length. split; [|lia].
    destruct cleaned; [discriminate E|simpl; lia].
  - unfold normalizeRoomCode. by rewrite toUpperCase_lower.
  - intros Hne fallback'.
    assert (isEmpty (slice0 8 cleaned) = false) as E
      by (destruct cleaned; [congruence|reflexivity]).
    rewrite Hdef, E. unfold normalizeRoomCode.
    rewrite (code_fixed _ Hcode), slice0_idem, E. reflexivity.
Qed.

End CodeFacts.

(** ** Keys held on the touch controls *)

Section InputFacts.

Import Net Input.

Lemma has_true (key : string) (act : list string) :
  has key act = true <-> key ∈ act.
Proof.
  unfold has. rewrite existsb_exists. split.
  - intros (k & Hin & Heq). apply String.eqb_eq in Heq. subst k.
    by apply list_elem_of_In.
  - intros Hin. exists key. split; [by apply list_elem_of_In|].
    apply String.eqb_refl.
Qed.

Lemma has_false (key : string) (act : list string) :
  has key act = false <-> key ∉ act.
Proof.
  rewrite <- has_true. destruct (has key act); split; congruence.
Qed.

Lemma without_elem (key k : string) (act : list string) :
  k ∈ List.filter (fun k' => negb (String.eqb key k')) act
  <-> k ∈ act /\ k <> key.
Proof.
  rewrite !list_elem_of_In, filter_In, negb_true_iff, String.eqb_neq.
  split; intros [H1 H2]; split; congruence.
Qed.

Lemma without_NoDup (key : string) (act : list string) :
  NoDup act -> NoDup (List.filter (fun k' => negb (String.eqb key k')) act).
Proof.
  intros H. eapply sublist_NoDup; [exact H|]. clear.
  induction act as [|a act IH]; simpl; [constructor|].
  destruct (negb (String.eqb key a)); by constructor.
Qed.

Lemma without_absent (key : string) (act : list string) :
  key ∉ act -> List.filter (fun k' => negb (String.eqb key k')) act = act.
Proof.
  induction act as [|a act IH]; intros H; simpl; [reflexivity|].
  assert (String.eqb key a = false) as ->.
  { apply String.eqb_neq. intros ->. apply H. apply elem_of_cons. by left. }
  simpl. rewrite IH; [reflexivity|].
  intros Hin. apply H. apply elem_of_cons. by right.
Qed.

Lemma pressed_insert (k k' : string) (b : bool) (keys : Car.KeyMap) :
  Car.pressed (<[k := b]> keys) k'
  = if decide (k = k') then b else Car.pressed keys k'.
Proof.
  unfold Car.pressed, Car.KeyMap in *. destruct (decide (k = k')) as [->|E].
  - by rewrite (lookup_insert_eq (M := gmap string)).
  - by rewrite (lookup_insert_ne (M := gmap string)).
Qed.

Lemma press_agree (key : string) (act : list string) (keys : Car.KeyMap)
    (seen : list KeyEv) :
  toLowerCase key = key ->
  agree act keys seen ->
  agree (press key act).1 (carKeys (press key act).2 keys)
    (seen ++ (press key act).2).
Proof.
  intros Hlow (Hnd & Hin & Hout). unfold press.
  destruct (has key act) eqn:E; simpl.
  { rewrite app_nil_r. exact (conj Hnd (conj Hin Hout)). }
  apply has_false in E. rewrite Hlow. split; [|split].
  - apply NoDup_app. split; [exact Hnd|]. split; [|apply NoDup_singleton].
    intros k Hk Hk'. apply list_elem_of_singleton in Hk'. by subst k.
  - intros k Hk. rewrite pressed_insert.
    apply elem_of_app in Hk as [Hk|Hk].
    + destruct (Hin k Hk) as [H1 H2]. split; [exact H1|].
      by destruct (decide (key = k)).
    + apply list_elem_of_singleton in Hk. subst k. split; [exact Hlow|].
      by destruct (decide (key = key)).
  - intros k Hk Hseen. rewrite pressed_insert.
    destruct (decide (key = k)) as [->|Hne].
    + exfalso. apply Hk. apply elem_of_app. right.
      by apply list_elem_of_singleton.
    + apply Hout.
      * intros Hin'. apply Hk. apply elem_of_app. by left.
      * apply elem_of_app in Hseen as [Hseen|Hseen]; [exact Hseen|].
        apply list_elem_of_singleton in Hseen. congruence.
Qed.

Lemma release_agree (key : string) (act : list string) (keys : Car.KeyMap)
    (seen : list KeyEv) :
  agree act keys seen ->
  agree (release key act).1 (carKeys (release key act).2 keys)
    (seen ++ (release key act).2).
Proof.
  intros (Hnd & Hin & Hout). unfold release.
  destruct (has key act) eqn:E; simpl.
  2:{ rewrite app_nil_r. exact (conj Hnd (conj Hin Hout)). }
  apply has_true in E. destruct (Hin key E) as [Hlow _]. rewrite Hlow.
  split; [|split].
  - by apply without_NoDup.
  - intros k Hk. apply without_elem in Hk as [Hk Hne].
    rewrite pressed_insert. destruct (decide (key = k)); [congruence|].
    by apply Hin.
  - intros k Hk Hseen. rewrite pressed_insert.
    destruct (decide (key = k)) as [->|Hne]; [reflexivity|].
    apply Hout.
    + intros Hin'. apply Hk. apply without_elem. split; [exact Hin'|].
      congruence.
    + apply elem_of_app in Hseen as [Hseen|Hseen]; [exact Hseen|].
      apply list_elem_of_singleton in Hseen. discriminate.
Qed.

Lemma carKeys_app (evs1 evs2 : list KeyEv) (keys : Car.KeyMap) :
  carKeys (evs1 ++ evs2) keys = carKeys evs2 (carKeys evs1 keys).
Proof. unfold carKeys. apply fold_left_app. Qed.

Lemma releaseAll_fold (ks cur : list string) (out : list KeyEv)
    (keys : Car.KeyMap) (seen : list KeyEv) :
  agree cur (carKeys out keys) (seen ++ out) ->
  let r :=
    fold_left
      (fun (acc : list string * list KeyEv) key =>
         let '(act, o) := release key acc.1 in (act, acc.2 ++ o))
      ks (cur, out) in
  agree r.1 (carKeys r.2 keys) (seen ++ r.2) /\
  (forall k, k ∈ r.1 -> k ∈ cur /\ k ∉ ks).
Proof.
  revert cur out. induction ks as [|key ks IH]; intros cur out H; simpl.
  { split; [exact H|]. intros k Hk. split; [exact Hk|]. apply not_elem_of_nil. }
  pose proof (release_agree key cur _ _ H) as H'.
  assert (forall k, k ∈ (release key cur).1 -> k ∈ cur /\ k <> key) as Hrel.
  { intros k Hk. unfold release in Hk. destruct (has key cur) eqn:E; simpl in Hk.
    - by apply without_elem in Hk.
    - split; [exact Hk|]. apply has_false in E. congruence. }
  destruct (release key cur) as [act o]. cbn [fst snd] in *.
  rewrite <- carKeys_app, <- app_assoc in H'.
  destruct (IH act (out ++ o) H') as [Hag Hsub].
  split; [exact Hag|].
  intros k Hk. destruct (Hsub k Hk) as [Hk1 Hk2].
  destruct (Hrel k Hk1) as [Hk3 Hk4]. split; [exact Hk3|].
  intros Hin. apply elem_of_cons in Hin as [->|Hin]; done.
Qed.

Lemma releaseAll_agree (act : list string) (keys : Car.KeyMap)
    (seen : list KeyEv) :
  agree act keys seen ->
  (releaseAll act).1 = [] /\
  agree [] (carKeys (releaseAll act).2 keys) (seen ++ (releaseAll act).2).
Proof.
  intros H. unfold releaseAll.
  destruct (releaseAll_fold act act [] keys seen) as [Hag Hsub].
  { simpl. by rewrite app_nil_r. }
  cbv zeta in Hag, Hsub.
  assert ((fold_left
             (fun (acc : list string * list KeyEv) key =>
                let '(act0, o) := release key acc.1 in (act0, acc.2 ++ o))
             act (act, [])).1 = []) as Hnil.
  { destruct (fold_left _ act (act, [])).1 as [|k l] eqn:E; [reflexivity|].
    exfalso. destruct (Hsub k) as [H1 H2]; [apply elem_of_cons; by left|].
    by apply H2. }
  split; [exact Hnil|]. by rewrite Hnil in Hag.
Qed.

Lemma runOps_agree (ops : list Op) (act : list string) (keys : Car.KeyMap)
    (seen : list KeyEv) :
  Forall lowerCaseOp ops ->
  agree act keys seen ->
  agree (runOps ops act).1 (carKeys (runOps ops act).2 keys)
    (seen ++ (runOps ops act).2).
Proof.
  revert act keys seen. induction ops as [|op ops IH];
    intros act keys seen Hops H; simpl.
  { by rewrite app_nil_r. }
  apply Forall_cons_1 in Hops as [Hop Hops].
  assert (agree (step op act).1 (carKeys (step op act).2 keys)
            (seen ++ (step op act).2)) as H1.
  { destruct op as [key|key|]; simpl.
    - by apply press_agree.
    - by apply release_agree.
    - destruct (releaseAll_agree act keys seen H) as [-> Hag]. exact Hag. }
  destruct (step op act) as [act1 out1]. cbn [fst snd] in H1.
  specialize (IH act1 _ _ Hops H1).
  destruct (runOps ops act1) as [act2 out2]. cbn [fst snd] in *.
  by rewrite carKeys_app, app_assoc.
Qed.

Lemma runOps_app (ops1 ops2 : list Op) (act : list string) :
  runOps (ops1 ++ ops2) act
  = ((runOps ops2 (runOps ops1 act).1).1,
     (runOps ops1 act).2 ++ (runOps ops2 (runOps ops1 act).1).2).
Proof.
  revert act. induction ops1 as [|op ops1 IH]; intros act; simpl.
  { by destruct (runOps ops2 act). }
  destruct (step op act) as [act1 out1]. rewrite IH.
  destruct (runOps ops1 act1) as [act2 out2]. cbn [fst snd].
  destruct (runOps ops2 act2) as [act3 out3]. cbn [fst snd].
  by rewrite app_assoc.
Qed.

(** X29: no key is left down.  Whatever hold buttons were pressed and let go
    on the touch controls, once the window loses the pointer or the focus
    ([releaseAll]) no key is held any more, and every key that went down on
    the controls reads as released in the key map of the car that listens
    to the events. *)
Theorem no_key_is_left_down (ops : list Op) (keys : Car.KeyMap) :
  Forall lowerCaseOp ops ->
  let r := runOps (ops ++ [ReleaseAll]) [] in
  r.1 = [] /\
  forall k, KeyDownEv k ∈ r.2 -> Car.pressed (carKeys r.2 keys) k = false.
Proof.
  intros Hops. cbv zeta.
  assert (agree [] keys []) as H0.
  { split; [constructor|]. split; intros k Hk; [by apply elem_of_nil in Hk|].
    intros Hin. by apply elem_of_nil in Hin. }
  pose proof (runOps_agree ops [] keys [] Hops H0) as H1. simpl in H1.
  rewrite runOps_app. cbn [fst snd]. simpl runOps.
  destruct (runOps ops []) as [act out]. cbn [fst snd] in *.
  destruct (releaseAll_agree act _ _ H1) as [Hnil (_ & _ & Hout)].
  destruct (releaseAll act) as [act' out']. cbn [fst snd] in *.
  rewrite app_nil_r. split; [exact Hnil|].
  intros k Hk. rewrite carKeys_app. apply Hout; [apply not_elem_of_nil|exact Hk].
Qed.

End InputFacts.

(** ** Instances of the properties above *)

Section VehicleInstances.

Import JS Car.
Local Open Scope Q_scope.

(** A respawn, a frame under throttle and a gear change, from damage 0.5 in
    second gear. *)
Lemma damage_stays_in_unit_interval_witness :
  let s := {| pos_x := 0; pos_y := 0.75; pos_z := 0; yaw := 0; speed := 3;
              damage := 0.5; gear := 2; headlightsOn := true |} in
  let es := [Spawn 1 0.75 1 None; Frame true {[ "w"%string := true ]} 0.016;
             KeyDown true "r"] in
  (0 <= damage s <= 1) /\
  (0 <= damage (run (fun _ => 0) (fun _ => 1) World.base None World.bounds
                  es s) <= 1).
Proof.
  intros s es.
  assert (0 <= damage s <= 1) as H by (simpl; lra).
  split; [exact H|].
  exact (damage_stays_in_unit_interval (fun _ => 0) (fun _ => 1) World.base
           None World.bounds es s H).
Defined.

Lemma gear_stays_in_range_witness :
  let s := {| pos_x := 0; pos_y := 0.75; pos_z := 0; yaw := 0; speed := 3;
              damage := 0.5; gear := 6; headlightsOn := true |} in
  let es := [KeyDown true "r"; Frame true {[ "w"%string := true ]} 0.016;
             KeyDown true "f"] in
  (0 <= gear s <= 6)%Z /\
  (0 <= gear (run (fun _ => 0%Q) (fun _ => 1%Q) World.base None World.bounds
                es s) <= 6)%Z.
Proof.
  intros s es.
  assert (0 <= gear s <= 6)%Z as H by (simpl; lia).
  split; [exact H|].
  exact (gear_stays_in_range (fun _ => 0) (fun _ => 1) World.base None
           World.bounds es s H).
Defined.

(** The brake held for a frame of 16 ms on a car at rest. *)
Lemma brake_at_rest_reverses_witness :
  let s := {| pos_x := 0; pos_y := 0.75; pos_z := 0; yaw := 0; speed := 0;
              damage := 0; gear := 1; headlightsOn := true |} in
  let keys : KeyMap := {[ "s"%string := true ]} in
  let v := integrateSpeed true keys 0.016 s in
  - (34 * 0.016) <= v /\ v < 0 /\
  (pressed keys " " = false -> v == - (34 * 0.016)).
Proof.
  intros s keys.
  apply (brake_at_rest_reverses keys 0.016 s); reflexivity.
Defined.

(** A car left alone at speed 10, for a frame of 16 ms. *)
Lemma coasting_slows_down_witness :
  let s := {| pos_x := 0; pos_y := 0.75; pos_z := 0; yaw := 0; speed := 10;
              damage := 0; gear := 1; headlightsOn := true |} in
  let v := integrateSpeed false ∅ 0.016 s in
  Qabs v <= 0.99 * Qabs (speed s) /\ 0 <= v * speed s.
Proof.
  intros s.
  apply (coasting_slows_down ∅ 0.016 s); apply Qle_bool_iff; reflexivity.
Defined.

Lemma World_base_clear :
  standsClear (World.base ++ default [] None) World.bounds
    {| pos_x := 0; pos_y := 0.75; pos_z := 0; yaw := 0; speed := 0;
       damage := 0.3; gear := 1; headlightsOn := true |}.
Proof.
  split; [|split; split; apply Qle_bool_iff; reflexivity].
  repeat (apply Forall_cons_2; [reflexivity|]). apply Forall_nil_2.
Defined.

(** A parked car at the origin of the world, through a frame without a
    driver, a frame with a driver who only steers, and the headlights
    key. *)
Lemma car_at_rest_stays_witness :
  let s := {| pos_x := 0; pos_y := 0.75; pos_z := 0; yaw := 0; speed := 0;
              damage := 0.3; gear := 1; headlightsOn := true |} in
  let es := [Frame false ∅ 0.016; Frame true {[ "a"%string := true ]} 0.016;
             KeyDown true "h"] in
  let s' := run (fun _ => 0) (fun _ => 1) World.base None World.bounds es s in
  Forall noDrive es /\
  pos_x s' == pos_x s /\ pos_z s' == pos_z s /\ pos_y s' = pos_y s /\
  speed s' == 0 /\ damage s' = damage s.
Proof.
  intros s es.
  assert (Forall noDrive es) as Hes.
  { apply Forall_cons_2; [split; reflexivity|].
    apply Forall_cons_2; [split; reflexivity|].
    apply Forall_cons_2; [exact I|]. apply Forall_nil_2. }
  split; [exact Hes|].
  exact (car_at_rest_stays (fun _ => 0) (fun _ => 1) World.base None
           World.bounds es s Hes (Qeq_refl 0) World_base_clear).
Defined.

(** The same car, the driver holding [a] for a frame of 16 ms: the heading
    goes from 0 to 0.0272. *)
Lemma steering_turns_on_the_spot_witness :
  let s := {| pos_x := 0; pos_y := 0.75; pos_z := 0; yaw := 0; speed := 0;
              damage := 0.3; gear := 1; headlightsOn := true |} in
  let keys : KeyMap := {[ "a"%string := true ]} in
  let s' :=
    fst (frameLocal (fun _ => 0) (fun _ => 1) World.base None World.bounds
           true keys 0.016 s) in
  yaw s' == 0.0272 /\ pos_x s' == 0 /\ pos_z s' == 0.
Proof.
  intros s keys.
  destruct (steering_turns_on_the_spot (fun _ => 0) (fun _ => 1) World.base
              None World.bounds true keys 0.016 s
              (conj eq_refl eq_refl) (Qeq_refl 0) World_base_clear)
    as (Hleft & _ & _ & Hx & Hz).
  split; [|split; assumption].
  exact (Qeq_trans _ _ _ (Hleft eq_refl eq_refl eq_refl) eq_refl).
Defined.

(** Three frames towards a sample one radian to the left. *)
Lemma remote_heading_converges_witness :
  let r := {| r_x := 10; r_y := None; r_z := 5; r_yaw := 1 |} in
  let s := {| pos_x := 0; pos_y := 0.75; pos_z := 0; yaw := 0; speed := 0;
              damage := 0; gear := 1; headlightsOn := true |} in
  let s' := Nat.iter 3 (frameRemote (Some r)) s in
  r_yaw r - yaw s' == 0.64 ^ 3 * (r_yaw r - yaw s) /\
  - PI <= r_yaw r - yaw s' < PI.
Proof.
  intros r s.
  apply (remote_heading_converges 3 r s).
  split; [apply Qle_bool_iff; reflexivity|reflexivity].
Defined.

(** A sample that is four radians ahead: the car turns the other way. *)
Lemma remote_turn_short_way_witness :
  let r := {| r_x := 10; r_y := None; r_z := 5; r_yaw := 4 |} in
  let s := {| pos_x := 0; pos_y := 0.75; pos_z := 0; yaw := 0; speed := 0;
              damage := 0; gear := 1; headlightsOn := true |} in
  exists (d : Q) (k : Z),
    yaw (frameRemote (Some r) s) == yaw s + d * 0.36 /\
    - PI <= d < PI /\
    d == r_yaw r - yaw s - 2 * PI * inject_Z k.
Proof.
  intros r s.
  apply (remote_turn_short_way r s). apply Qle_bool_iff. reflexivity.
Defined.

End VehicleInstances.

Section RoomInstances.

Import JS Net.
Local Open Scope Q_scope.

(** Ann's first publish, as Bob's listener shows it a second later. *)
Lemma published_player_is_shown_witness :
  let ls := {| name := "  Ann  "; x := 3; z := 4; yaw := 1; health := 100;
               wanted := 0; ammo := 30; inCar := false |} in
  let c := enterRoom "p-ann" ls in
  let d := <["updatedAt" := VTime 1010]> (playerDoc (playerPayload c))
           ∪ default ∅ ((∅ : store) !! "p-ann") in
  {| rp_id := "p-ann"; rp_state := playerPayload c |}
    ∈ playersSnapshot "p-bob" 2000 [("p-ann"%string, d)] /\
  name (playerPayload c) = "Ann"%string.
Proof.
  intros ls c d.
  destruct (published_player_is_shown c 1000 1010 2000 "p-bob" ∅
              {| pw_now := 1000; pw_payload := playerPayload c |} d
              [("p-ann"%string, d)]) as (H1 & H2 & _).
  - reflexivity.
  - apply setMerge_same.
  - apply list_elem_of_here.
  - discriminate.
  - unfold STALE_MS. lia.
  - split; [exact H1|]. rewrite H2. reflexivity.
Defined.

(** Ann takes the free car 1. *)
Lemma entered_car_is_shown_driven_witness :
  let ls := {| name := "Ann"; x := 0; z := 0; yaw := 0; health := 100;
               wanted := 0; ammo := 30; inCar := false |} in
  let c := enterRoom "p-ann" ls in
  let baseCar := defaultCar "car-1" 6 (-6) 0 in
  let st' :=
    setMerge "car-1"
      (<["driverName" := VStr (safeName c)]>
         (<["driverId" := VStr (clientId c)]> ∅)) 1010 ∅ in
  exists car,
    findCar "car-1" (carsListener baseCar (st' !! "car-1") DEFAULT_CARS)
    = Some car /\
    car !! "driverId" = Some (VStr "p-ann") /\
    car !! "driverName" = Some (VStr "Ann").
Proof.
  intros ls c baseCar st'.
  apply (entered_car_is_shown_driven baseCar 1000 1010 c c ∅ st'
           DEFAULT_CARS).
  - apply list_elem_of_here.
  - reflexivity.
  - reflexivity.
Defined.

(** Ann leaves car 1 at x = 12. *)
Lemma left_car_is_shown_free_witness :
  let ls := {| name := "Ann"; x := 0; z := 0; yaw := 0; health := 100;
               wanted := 0; ammo := 30; inCar := true |} in
  let c := enterRoom "p-ann" ls in
  let baseCar := defaultCar "car-1" 6 (-6) 0 in
  let st : store := {[ "car-1" := {[ "driverId" := VStr "p-ann" ]} ]} in
  let patch : fields := {[ "x" := VNum 12 ]} in
  let st' :=
    setMerge "car-1"
      (<["driverName" := VNull]> (<["driverId" := VNull]> patch)) 1010 st in
  exists car,
    findCar "car-1" (carsListener baseCar (st' !! "car-1") DEFAULT_CARS)
    = Some car /\
    car !! "driverId" = Some VNull /\
    car !! "x" = Some (VNum 12).
Proof.
  intros ls c baseCar st patch st'.
  destruct (left_car_is_shown_free baseCar (Some patch) 1000 1010 c c st st'
              DEFAULT_CARS) as (car & H1 & H2 & _ & H4).
  - apply list_elem_of_here.
  - reflexivity.
  - reflexivity.
  - exists car. split; [exact H1|]. split; [exact H2|].
    apply H4; [reflexivity|discriminate..].
Defined.

(** Ann leaves a room in which only the stale document of an old player is
    left. *)
Lemma last_one_out_clears_the_room_witness :
  let env := {| getDocsFails := false; cl_now := 100000;
                deleteOk := fun _ => true |} in
  let r := {| rm_players :=
                {[ "p-ann" := {[ "updatedAt" := VTime 99000 ]};
                   "p-old" := {[ "updatedAt" := VTime 1000 ]} ]};
              rm_cars := {[ "car-1" := {[ "driverId" := VNull ]} ]};
              rm_doc := true |} in
  let r' := clean "p-ann" true env r in
  rm_cars r' !! "car-1" = None /\ rm_doc r' = false /\ rm_players r' = ∅.
Proof.
  intros env r.
  destruct (last_one_out_clears_the_room "p-ann" true env r)
    as (H1 & H2 & _ & H4).
  - reflexivity.
  - intros ref. reflexivity.
  - intros pid raw H Hl.
    destruct (decide (pid = "p-ann"%string)) as [E|E]; [exact E|].
    exfalso. simpl in H. rewrite lookup_insert_ne in H by congruence.
    apply lookup_singleton_Some in H as [_ <-]. discriminate Hl.
  - split; [|split; [exact H2|by apply H4]].
    apply H1. apply list_elem_of_here.
Defined.

(** A quota error on a car write, then a render and a car update. *)
Lemma quota_backoff_is_silent_witness :
  let ls := {| name := "Ann"; x := 0; z := 0; yaw := 0; health := 100;
               wanted := 0; ammo := 30; inCar := true |} in
  let err := {| code := Some "resource-exhausted"%string; message := None |} in
  let c := setWriteErr "Car write" err (enterRoom "p-ann" ls) in
  let es := [PlayerEffect ls 5000; CarPush "car-1" {[ "x" := VNum 3 ]} 6000] in
  snd (run es c) = [] /\ quotaBlocked (fst (run es c)) = true.
Proof.
  intros ls err c es.
  destruct (quota_backoff_is_silent "Car write" err (enterRoom "p-ann" ls) es)
    as (H1 & H2 & _).
  - reflexivity.
  - apply Forall_cons_2; [discriminate|].
    apply Forall_cons_2; [discriminate|]. apply Forall_nil_2.
  - split; [exact H1|exact H2].
Defined.

(** Ann says hello to an empty feed. *)
Lemma sent_message_is_shown_witness :
  let ls := {| name := "Ann"; x := 0; z := 0; yaw := 0; health := 100;
               wanted := 0; ammo := 30; inCar := false |} in
  let c := enterRoom "p-ann" ls in
  let st' :=
    snd (sendChatMessage "  hello " "m-1" (TxCommits 1000 1010) c ∅) in
  exists rows,
    chatSnapshot (fun _ => "r"%string) (st' !! "chat-feed") = Some rows /\
    {| id := "m-1"; senderId := "p-ann"; senderName := "Ann";
       text := "hello"; createdAtMs := 1000 |} ∈ rows.
Proof.
  intros ls c st'.
  destruct (sent_message_is_shown "  hello " "m-1" 1000 1010 c ∅
              (fun _ => "r"%string)) as (rows & H1 & H2 & _).
  - reflexivity.
  - reflexivity.
  - exists rows. split; [exact H1|exact H2].
Defined.

(** Ann's first write for car 1, and Bob who asks for the car two seconds
    later. *)
Lemma car_write_takes_the_seat_witness :
  let ls := {| name := "Ann"; x := 0; z := 0; yaw := 0; health := 100;
               wanted := 0; ammo := 30; inCar := true |} in
  let c := enterRoom "p-ann" ls in
  let bob := enterRoom "p-bob" ls in
  let patch : fields := {[ "x" := VNum 3 ]} in
  let st : store := {[ "car-1" := {[ "driverId" := VStr "p-bob" ]} ]} in
  let p := pushCarState "car-1" patch 1000 c in
  let st' :=
    setMerge "car-1"
      (<["driverName" := VStr (safeName c)]>
         (<["driverId" := VStr (clientId c)]> patch)) 1100 st in
  driverOf (st' !! "car-1") = Some (VStr "p-ann") /\
  tryEnterCar "car-1" (TxCommits 3000 3010) bob st'
  = (Resolved false, bob, st').
Proof.
  intros ls c bob patch st p st'.
  destruct (car_write_takes_the_seat "car-1" patch 1000 1100 c (fst p)
              {| cw_id := "car-1"; cw_now := 1000; cw_patch := patch;
                 cw_data :=
                   <["driverName" := VStr (safeName c)]>
                     (<["driverId" := VStr (clientId c)]> patch) |} st)
    as (H1 & _ & _ & H4).
  - reflexivity.
  - discriminate.
  - split; [exact H1|].
    apply (H4 bob 3000%Z 3010%Z); [reflexivity|discriminate|].
    unfold STALE_MS. lia.
Defined.

End RoomInstances.

Section SceneInstances.

Import JS Net Scene.
Local Open Scope Q_scope.

(** The driver gets out while the store answers nothing. *)
Lemma leaving_is_local_first_witness :
  let r :=
    pressE (fun _ => 0) (fun _ => 1)
      (fun (_ : string) (h : unit) => (Resolved true, h))
      (fun (_ : string) (_ : option fields) (h : unit) =>
         (Rejected offline, h))
      [car1; car2] driving tt in
  drivenCarId r.1 = None /\ inCarFlag r.1 = false.
Proof.
  intros r.
  destruct (leaving_is_local_first (fun _ => 0) (fun _ => 1)
              (fun (_ : string) (h : unit) => (Resolved true, h))
              (fun (_ : string) (_ : option fields) (h : unit) =>
                 (Rejected offline, h))
              [car1; car2] driving tt "car-1") as (H1 & H2 & _).
  - reflexivity.
  - discriminate.
  - left. by eexists.
  - split; [exact H1|exact H2].
Defined.

(** On foot far from every car, nothing happens. *)
Lemma entering_needs_a_near_car_witness :
  let far : Local :=
    {| drivenCarId := None; spawnAt := None; activeCarSpawnAt := None;
       activeCarState := None; playerPos := (100, 100); inCarFlag := false |} in
  pressE (fun _ => 0) (fun _ => 1)
    (fun (_ : string) (h : unit) => (Resolved true, h))
    (fun (_ : string) (_ : option fields) (h : unit) => (Resolved true, h))
    [car1; car2] far tt
  = (far, tt) /\ truthyId (drivenCarId far) = false.
Proof.
  intros far. split; [|reflexivity].
  apply (proj1 (entering_needs_a_near_car (fun _ => 0) (fun _ => 1)
                  (fun (_ : string) (h : unit) => (Resolved true, h))
                  (fun (_ : string) (_ : option fields) (h : unit) =>
                     (Resolved true, h))
                  [car1; car2] far tt eq_refl)).
  intros c Hc.
  apply elem_of_cons in Hc as [->|Hc];
    [apply Qle_bool_iff; reflexivity|].
  apply list_elem_of_singleton in Hc. subst c.
  apply Qle_bool_iff. reflexivity.
Defined.

(** Ann gets out of car 1 while the store cannot be reached: Bob is refused
    two seconds after her last update. *)
Lemma failed_leave_keeps_the_seat_taken_witness :
  let d : fields :=
    {[ "driverId" := VStr "p-ann"; "updatedAt" := VTime 1000 ]} in
  let st : store := {[ "car-1" := d ]} in
  let r :=
    pressE (fun _ => 0) (fun _ => 1)
      (hookTryEnterCar (TxRejects offline)) (hookLeaveCar (TxRejects offline))
      [car1; car2] driving (ann, st) in
  drivenCarId r.1 = None /\ r.2.2 = st /\
  tryEnterCar "car-1" (TxCommits 3000 3010) (enterRoom "p-bob" (localState ann))
    r.2.2
  = (Resolved false, enterRoom "p-bob" (localState ann), r.2.2).
Proof.
  intros d st.
  destruct (failed_leave_keeps_the_seat_taken (fun _ => 0) (fun _ => 1)
              [car1; car2] driving ann st d "car-1" lastFrame
              (TxRejects offline) (TxRejects offline))
    as (H1 & _ & H3 & H4).
  - reflexivity.
  - discriminate.
  - reflexivity.
  - discriminate.
  - reflexivity.
  - reflexivity.
  - right. exists offline. by left.
  - intros r. split; [exact H1|]. split; [exact H3|].
    apply (H4 (enterRoom "p-bob" (localState ann)) 3000%Z 3010%Z).
    + reflexivity.
    + discriminate.
    + right. reflexivity.
Defined.

(** Ann gets out of car 1 and the transaction commits at server time 2010; a
    frame of the car, 5 ms after the key, issues a write that arrives at
    2020: the store names Ann as the driver and Bob is refused at 3000. *)
Lemma leave_frees_the_seat_unless_a_write_is_late_witness :
  let d : fields :=
    {[ "driverId" := VStr "p-ann"; "updatedAt" := VTime 1000 ]} in
  let st : store := {[ "car-1" := d ]} in
  let late := {| fr_state := lastFrame; fr_now := 2005; fr_srv := 2020 |} in
  let bob := enterRoom "p-bob" (localState ann) in
  let r :=
    pressE_leaving (fun _ => 0) (fun _ => 1) [car1; car2] 2000 2010
      [] [late] driving (ann, st) in
  issuesWrite "car-1" [late] ann = true /\
  drivenCarId r.1 = None /\ inCarFlag r.1 = false /\
  driverOf (r.2.2 !! "car-1") = Some (VStr "p-ann") /\
  tryEnterCar "car-1" (TxCommits 3000 3010) bob r.2.2
  = (Resolved false, bob, r.2.2).
Proof.
  intros d st late bob.
  destruct (leave_frees_the_seat_unless_a_write_is_late
              (fun _ => 0) (fun _ => 1) [car1; car2] driving ann st d
              "car-1" lastFrame 2000 2010
              [] [late])
    as (H1 & H2 & _ & Hlate).
  - reflexivity.
  - discriminate.
  - reflexivity.
  - reflexivity.
  - discriminate.
  - reflexivity.
  - reflexivity.
  - intros r. destruct (Hlate eq_refl) as (d' & f & Hin & Hst & Hdrv & _ & Hno).
    apply list_elem_of_singleton in Hin. subst f.
    split; [reflexivity|]. split; [exact H1|]. split; [exact H2|].
    split.
    + unfold driverOf. fold r in Hst. rewrite Hst. exact Hdrv.
    + apply (Hno bob 3000%Z 3010%Z); [reflexivity|discriminate|reflexivity].
Defined.

(** Ann, on foot next to car 2, which the list shows free, while the store
    cannot be reached. *)
Lemma entry_without_the_store_witness :
  let r :=
    pressE (fun _ => 0) (fun _ => 1)
      (hookTryEnterCar (TxRejects offline))
      (hookLeaveCar (TxRejects offline))
      [car1; car2] onFoot (ann, ∅) in
  r.2 = (ann, ∅) /\ drivenCarId r.1 = Some "car-2"%string.
Proof.
  destruct (entry_without_the_store (fun _ => 0) (fun _ => 1)
              [car1; car2] onFoot ann ∅ car2 (dist2 (playerPos onFoot) car2)
              (TxRejects offline) (TxRejects offline))
    as (_ & H).
  - reflexivity.
  - reflexivity.
  - reflexivity.
  - destruct (H eq_refl (ex_intro _ offline eq_refl)) as (H1 & H2 & _).
    intros r. split; [exact H1|]. exact (proj1 (H2 eq_refl)).
Defined.

(** Ann calls a car: car 2 is the first one shown free. *)
Lemma calling_a_car_takes_its_seat_witness :
  let h := pressB (hookCarSync 1000 1010) [car1; car2] onFoot (ann, ∅) in
  exists d,
    h.2 !! "car-2" = Some d /\ d !! "driverId" = Some (VStr "p-ann") /\
    d !! "x" = Some (VNum (-13 + 4)).
Proof.
  destruct (calling_a_car_takes_its_seat [car1; car2] onFoot ann ∅ car2
              1000 1010) as (_ & (d & Hd & Hdrv & Hx & _) & _).
  - reflexivity.
  - reflexivity.
  - reflexivity.
  - reflexivity.
  - reflexivity.
  - lia.
  - discriminate.
  - intros h. exists d. split; [exact Hd|]. split; [exact Hdrv|exact Hx].
Defined.

(** Ann, her writes suspended, next to the free car 2. *)
Lemma suspended_writes_lock_the_cars_witness :
  let quota := {| code := Some "resource-exhausted"%string; message := None |} in
  let c := Older.setWriteErr "Car write" quota ann in
  let r :=
    pressE (fun _ => 0) (fun _ => 1) (Older.hookTryEnterCar (TxCommits 1000 1010))
      (Older.hookLeaveCar (TxCommits 1000 1010)) [car1; car2] onFoot (c, ∅) in
  quotaBlocked c = true /\ r = (onFoot, (c, ∅)).
Proof.
  intros quota c.
  destruct (suspended_writes_lock_the_cars (fun _ => 0) (fun _ => 1)
              [car1; car2] onFoot c ∅ (TxCommits 1000 1010)
              (TxCommits 1000 1010) eq_refl) as (H1 & H2 & _).
  intros r. split; [reflexivity|].
  specialize (H2 eq_refl). fold r in H1, H2.
  destruct r as [w' h']. simpl in H1, H2. by rewrite H1, H2.
Defined.

End SceneInstances.

Section InputInstances.

Import Net Input.

(** Throttle and handbrake held, the throttle let go, then the pointer is
    lost. *)
Lemma no_key_is_left_down_witness :
  let ops := [Press "w"; Press " "; Release "w"] in
  let r := runOps (ops ++ [ReleaseAll]) [] in
  Forall lowerCaseOp ops /\ r.1 = [] /\
  Car.pressed (carKeys r.2 ∅) " " = false.
Proof.
  intros ops.
  assert (Forall lowerCaseOp ops) as Hops.
  { apply Forall_cons_2; [reflexivity|].
    apply Forall_cons_2; [reflexivity|].
    apply Forall_cons_2; [exact I|]. apply Forall_nil_2. }
  destruct (no_key_is_left_down ops ∅ Hops) as [H1 H2].
  intros r. split; [exact Hops|]. split; [exact H1|].
  apply H2. apply elem_of_cons. right. apply list_elem_of_here.
Defined.

End InputInstances.
